(** * TagForge config-service: entity model, persistence schema, migration
      runner and health probe, embedded in Rocq.

    Part I holds the embedding, one module per Go package or SQL file.
    Part II holds the properties, grouped by component. *)

From stdpp Require Import base strings list gmap sorting pretty.
From Stdlib Require Import ZArith Lia Ascii.

Set Warnings "-register-all,-abstract-large-number".

(* ===================================================================== *)
(** * Part I: the embedding                                               *)
(* ===================================================================== *)

(** Go's [error] interface: [nil], or a value whose [Error()] text is kept. *)
Definition error := option string.
Definition nil : error := None.

(** ** database/sql/driver: the values a column scan hands to [Scan] *)
Module driver.

(** [driver.Value] is one of nil, int64, float64, bool, []byte, string and
    time.Time.  A float64 is carried as its 64-bit pattern, a []byte as
    the list of its bytes, a time as its Unix nanoseconds. *)
Inductive Value :=
| Nil
| Int64 (z : Z)
| Float64 (bits : Z)
| Bool (b : bool)
| Bytes (b : list ascii)
| String (s : string)
| Time (t : Z).

(** What [fmt]'s [%T] verb prints for each of them. *)
Definition type_name (v : Value) : string :=
  match v with
  | Nil => "<nil>"
  | Int64 _ => "int64"
  | Float64 _ => "float64"
  | Bool _ => "bool"
  | Bytes _ => "[]uint8"
  | String _ => "string"
  | Time _ => "time.Time"
  end.

End driver.

(** ** zerolog-style log lines, as the handlers and the runner emit them *)
Module logger.

Inductive Level := Info | Warn | Error.

Record Entry := {
  level : Level;
  err : error;          (* the value passed to [.Err(err)], if any *)
  msg : string
}.

Definition info (m : string) : Entry := {| level := Info; err := nil; msg := m |}.
Definition error_with (e : string) (m : string) : Entry :=
  {| level := Error; err := Some e; msg := m |}.

End logger.

(** ** encoding/json, as far as [JSONMap] drives it

    [JSONMap.Value] calls [json.Marshal] on a [map[string]interface{}] and
    [JSONMap.Scan] calls [json.Unmarshal] into one.  The package is an import
    of the repository; what follows writes out, after its sources, the
    encoder for such maps and the decoder into them. *)
Module json.

Definition bytes := list ascii.

(** The bytes of a literal. *)
Definition lit (s : string) : bytes := String.list_ascii_of_string s.

Definition quote : ascii := ascii_of_nat 34.
Definition backslash : ascii := ascii_of_nat 92.

Definition byte (c : ascii) : N := N_of_ascii c.

(** What the decoder stores into an [interface{}]: nil, bool, float64,
    string, []interface{} or map[string]interface{}.  A float64 is carried
    as the text [strconv] prints for it, the shortest one that reads back
    as the same float64; a string as its bytes, valid UTF-8 as every string
    the decoder builds; a map as its entries in increasing key order, the
    order the encoder writes them in. *)
Inductive value :=
| Null
| Bool (v : bool)
| Number (text : bytes)
| String (s : bytes)
| Array (items : list value)
| Object (members : list (bytes * value)).

(** *** Map keys: byte-wise order, insertion *)

Fixpoint compare (a b : bytes) : comparison :=
  match a, b with
  | [], [] => Eq
  | [], _ :: _ => Lt
  | _ :: _, [] => Gt
  | x :: a', y :: b' =>
      match N.compare (byte x) (byte y) with
      | Eq => compare a' b'
      | c => c
      end
  end.

(** [m[k] = v] on the sorted entries. *)
Fixpoint insert (k : bytes) (v : value) (m : list (bytes * value)) : list (bytes * value) :=
  match m with
  | [] => [(k, v)]
  | (k', v') :: rest =>
      match compare k k' with
      | Lt => (k, v) :: m
      | Eq => (k, v) :: rest
      | Gt => (k', v') :: insert k v rest
      end
  end.

(** Store the members of an object, in the order they were read, into [m]. *)
Definition store (m : list (bytes * value)) (members : list (bytes * value))
  : list (bytes * value) :=
  foldl (λ m kv, insert kv.1 kv.2 m) m members.

(** *** The encoder *)

Definition hex_digit (n : N) : ascii :=
  nth (N.to_nat n) (lit "0123456789abcdef") "0"%char.

(** One byte of a string, with HTML escaping on as [Marshal] has it. *)
Definition escape_byte (c : ascii) : bytes :=
  if bool_decide (c = quote) then [backslash; quote]
  else if bool_decide (c = backslash) then [backslash; backslash]
  else if bool_decide (byte c = 8%N) then [backslash; "b"%char]
  else if bool_decide (byte c = 12%N) then [backslash; "f"%char]
  else if bool_decide (byte c = 10%N) then [backslash; "n"%char]
  else if bool_decide (byte c = 13%N) then [backslash; "r"%char]
  else if bool_decide (byte c = 9%N) then [backslash; "t"%char]
  else if bool_decide (byte c < 32)%N
          || bool_decide (c = "<"%char) || bool_decide (c = ">"%char)
          || bool_decide (c = "&"%char)
  then [backslash; "u"%char; "0"%char; "0"%char;
        hex_digit (byte c / 16); hex_digit (byte c mod 16)]
  else [c].

(** U+2028 and U+2029 (E2 80 A8, E2 80 A9) are written as escapes too. *)
Definition line_separator (c c1 c2 : ascii) : option ascii :=
  if bool_decide (byte c = 226%N) && bool_decide (byte c1 = 128%N)
  then if bool_decide (byte c2 = 168%N) then Some "8"%char
       else if bool_decide (byte c2 = 169%N) then Some "9"%char
       else None
  else None.

Fixpoint escape (s : bytes) : bytes :=
  match s with
  | [] => []
  | c :: rest =>
      match rest with
      | c1 :: c2 :: rest2 =>
          match line_separator c c1 c2 with
          | Some d => [backslash; "u"%char; "2"%char; "0"%char; "2"%char; d] ++ escape rest2
          | None => escape_byte c ++ escape rest
          end
      | _ => escape_byte c ++ escape rest
      end
  end.

Definition encode_string (s : bytes) : bytes := quote :: escape s ++ [quote].

Fixpoint encode (v : value) : bytes :=
  match v with
  | Null => lit "null"
  | Bool true => lit "true"
  | Bool false => lit "false"
  | Number text => text
  | String s => encode_string s
  | Array items =>
      "["%char ::
        (fix elements (l : list value) : bytes :=
           match l with
           | [] => []
           | [x] => encode x
           | x :: l' => encode x ++ ","%char :: elements l'
           end) items ++ ["]"%char]
  | Object members =>
      "{"%char ::
        (fix entries (l : list (bytes * value)) : bytes :=
           match l with
           | [] => []
           | [(k, x)] => encode_string k ++ ":"%char :: encode x
           | (k, x) :: l' => encode_string k ++ ":"%char :: encode x ++ ","%char :: entries l'
           end) members ++ ["}"%char]
  end.

(** The two inner loops of [encode], by name. *)
Definition encode_items : list value → bytes :=
  fix elements (l : list value) : bytes :=
    match l with
    | [] => []
    | [x] => encode x
    | x :: l' => encode x ++ ","%char :: elements l'
    end.

Definition encode_members : list (bytes * value) → bytes :=
  fix entries (l : list (bytes * value)) : bytes :=
    match l with
    | [] => []
    | [(k, x)] => encode_string k ++ ":"%char :: encode x
    | (k, x) :: l' => encode_string k ++ ":"%char :: encode x ++ ","%char :: entries l'
    end.

(** [json.Marshal] of a map; it cannot fail on these values. *)
Definition Marshal (m : list (bytes * value)) : bytes * error := (encode (Object m), nil).

(** *** The decoder *)

Definition hex_value (c : ascii) : option N :=
  let n := byte c in
  if bool_decide (48 ≤ n)%N && bool_decide (n ≤ 57)%N then Some (n - 48)%N
  else if bool_decide (97 ≤ n)%N && bool_decide (n ≤ 102)%N then Some (n - 87)%N
  else if bool_decide (65 ≤ n)%N && bool_decide (n ≤ 70)%N then Some (n - 55)%N
  else None.

Definition hex4 (h1 h2 h3 h4 : ascii) : option N :=
  a ← hex_value h1; b ← hex_value h2; c ← hex_value h3; d ← hex_value h4;
  Some (((a * 16 + b) * 16 + c) * 16 + d)%N.

Definition of_byte (n : N) : ascii := ascii_of_N n.

(** UTF-8 of a code point below 0x110000. *)
Definition utf8 (cp : N) : bytes :=
  if bool_decide (cp < 128)%N then [of_byte cp]
  else if bool_decide (cp < 2048)%N
  then [of_byte (192 + cp / 64); of_byte (128 + cp mod 64)]
  else if bool_decide (cp < 65536)%N
  then [of_byte (224 + cp / 4096); of_byte (128 + (cp / 64) mod 64);
        of_byte (128 + cp mod 64)]
  else [of_byte (240 + cp / 262144); of_byte (128 + (cp / 4096) mod 64);
        of_byte (128 + (cp / 64) mod 64); of_byte (128 + cp mod 64)].

Definition replacement : bytes := utf8 65533.   (* U+FFFD *)

Definition high_surrogate (cp : N) : bool :=
  bool_decide (55296 ≤ cp)%N && bool_decide (cp < 56320)%N.
Definition low_surrogate (cp : N) : bool :=
  bool_decide (56320 ≤ cp)%N && bool_decide (cp < 57344)%N.

Definition unescape (e : ascii) : option ascii :=
  if bool_decide (e = quote) then Some quote
  else if bool_decide (e = backslash) then Some backslash
  else if bool_decide (e = "/"%char) then Some "/"%char
  else if bool_decide (e = "b"%char) then Some (of_byte 8)
  else if bool_decide (e = "f"%char) then Some (of_byte 12)
  else if bool_decide (e = "n"%char) then Some (of_byte 10)
  else if bool_decide (e = "r"%char) then Some (of_byte 13)
  else if bool_decide (e = "t"%char) then Some (of_byte 9)
  else None.

Definition prepend (s : bytes) (r : option (bytes * bytes)) : option (bytes * bytes) :=
  '(s', rest) ← r; Some (s ++ s', rest).

(** A second [\uXXXX] right here that is a low surrogate. *)
Definition low_surrogate_here (input : bytes) : option N :=
  match input with
  | b1 :: u1 :: l1 :: l2 :: l3 :: l4 :: _ =>
      if bool_decide (b1 = backslash) && bool_decide (u1 = "u"%char)
      then lo ← hex4 l1 l2 l3 l4; if low_surrogate lo then Some lo else None
      else None
  | _ => None
  end.

(** The inside of a string literal, up to and past its closing quote. *)
Fixpoint decode_chars (input : bytes) : option (bytes * bytes) :=
  match input with
  | [] => None
  | c :: rest =>
      if bool_decide (c = quote) then Some ([], rest)
      else if bool_decide (c = backslash) then
        match rest with
        | [] => None
        | e :: rest1 =>
            if bool_decide (e = "u"%char) then
              match rest1 with
              | h1 :: h2 :: h3 :: h4 :: rest2 =>
                  match hex4 h1 h2 h3 h4 with
                  | None => None
                  | Some cp =>
                      if high_surrogate cp then
                        match low_surrogate_here rest2, rest2 with
                        | Some lo, _ :: _ :: _ :: _ :: _ :: _ :: rest3 =>
                            prepend (utf8 (65536 + (cp - 55296) * 1024 + (lo - 56320))%N)
                                    (decode_chars rest3)
                        | _, _ => prepend replacement (decode_chars rest2)
                        end
                      else if low_surrogate cp then prepend replacement (decode_chars rest2)
                      else prepend (utf8 cp) (decode_chars rest2)
                  end
              | _ => None
              end
            else
              match unescape e with
              | Some c' => prepend [c'] (decode_chars rest1)
              | None => None
              end
        end
      else if bool_decide (byte c < 32)%N then None
      else prepend [c] (decode_chars rest)
  end.

Definition is_space (c : ascii) : bool :=
  bool_decide (byte c = 32%N) || bool_decide (byte c = 9%N)
  || bool_decide (byte c = 10%N) || bool_decide (byte c = 13%N).

Fixpoint skip_space (input : bytes) : bytes :=
  match input with
  | c :: rest => if is_space c then skip_space rest else input
  | [] => []
  end.

Definition is_digit (c : ascii) : bool :=
  bool_decide (48 ≤ byte c)%N && bool_decide (byte c ≤ 57)%N.

(** The bytes a number can be made of. *)
Definition number_byte (c : ascii) : bool :=
  is_digit c || bool_decide (c ∈ lit "-+.eE").

Fixpoint span (p : ascii → bool) (input : bytes) : bytes * bytes :=
  match input with
  | c :: rest => if p c then let '(a, b) := span p rest in (c :: a, b) else ([], input)
  | [] => ([], [])
  end.

(** The number grammar: an optional minus; 0, or a non-zero digit and
    more digits; an optional fraction; an optional exponent. *)
Definition is_exponent (r : bytes) : bool :=
  match r with
  | [] => true
  | e :: r1 =>
      bool_decide (e ∈ lit "eE")
      && (let digits := match r1 with
                        | sign :: r2 => if bool_decide (sign ∈ lit "+-") then r2 else r1
                        | [] => []
                        end in
          negb (bool_decide (digits = [])) && forallb is_digit digits)
  end.

Definition is_fraction (r : bytes) : bool :=
  match r with
  | "."%char :: r1 =>
      let '(digits, r2) := span is_digit r1 in
      negb (bool_decide (digits = [])) && is_exponent r2
  | _ => is_exponent r
  end.

Definition is_number (text : bytes) : bool :=
  let unsigned := match text with
                  | "-"%char :: r => r
                  | _ => text
                  end in
  match unsigned with
  | "0"%char :: r => is_fraction r
  | d :: r => is_digit d && is_fraction (span is_digit r).2
  | [] => false
  end.

Definition strip (prefix : string) (input : bytes) : option bytes :=
  let p := lit prefix in
  if bool_decide (take (length p) input = p) then Some (drop (length p) input) else None.

(** Nesting deeper than this is refused ("exceeded max depth"). *)
Definition maxNestingDepth : nat := 10000.

(** The value at the head of [input], and what follows it.  [depth] counts
    the arrays and objects around it; one unit of [fuel] per call. *)
Fixpoint decode (fuel depth : nat) (input : bytes) : option (value * bytes) :=
  match fuel with
  | O => None
  | S fuel =>
      match skip_space input with
      | [] => None
      | c :: rest =>
          if bool_decide (c = quote) then
            '(s, r) ← decode_chars rest; Some (String s, r)
          else if bool_decide (c = "["%char) then
            if bool_decide (maxNestingDepth ≤ depth)%nat then None
            else match skip_space rest with
                 | c' :: r =>
                     if bool_decide (c' = "]"%char) then Some (Array [], r)
                     else '(items, r') ← decode_items fuel (S depth) rest;
                          Some (Array items, r')
                 | [] => None
                 end
          else if bool_decide (c = "{"%char) then
            if bool_decide (maxNestingDepth ≤ depth)%nat then None
            else match skip_space rest with
                 | c' :: r =>
                     if bool_decide (c' = "}"%char) then Some (Object [], r)
                     else '(members, r') ← decode_members fuel (S depth) rest;
                          Some (Object (store [] members), r')
                 | [] => None
                 end
          else if bool_decide (c = "n"%char) then r ← strip "ull" rest; Some (Null, r)
          else if bool_decide (c = "t"%char) then r ← strip "rue" rest; Some (Bool true, r)
          else if bool_decide (c = "f"%char) then r ← strip "alse" rest; Some (Bool false, r)
          else if is_digit c || bool_decide (c = "-"%char) then
            let '(text, r) := span number_byte (c :: rest) in
            if is_number text then Some (Number text, r) else None
          else None
      end
  end
with decode_items (fuel depth : nat) (input : bytes) : option (list value * bytes) :=
  match fuel with
  | O => None
  | S fuel =>
      '(v, r) ← decode fuel depth input;
      match skip_space r with
      | c :: r' =>
          if bool_decide (c = ","%char) then
            '(vs, r'') ← decode_items fuel depth r'; Some (v :: vs, r'')
          else if bool_decide (c = "]"%char) then Some ([v], r')
          else None
      | [] => None
      end
  end
with decode_members (fuel depth : nat) (input : bytes)
  : option (list (bytes * value) * bytes) :=
  match fuel with
  | O => None
  | S fuel =>
      match skip_space input with
      | q :: r0 =>
          if bool_decide (q = quote) then
            '(k, r1) ← decode_chars r0;
            match skip_space r1 with
            | colon :: r2 =>
                if bool_decide (colon = ":"%char) then
                  '(v, r3) ← decode fuel depth r2;
                  match skip_space r3 with
                  | c :: r4 =>
                      if bool_decide (c = ","%char) then
                        '(ms, r5) ← decode_members fuel depth r4; Some ((k, v) :: ms, r5)
                      else if bool_decide (c = "}"%char) then Some ([(k, v)], r4)
                      else None
                  | [] => None
                  end
                else None
            | [] => None
            end
          else None
      | [] => None
      end
  end.

(** The whole text as one value, spaces around it allowed. *)
Definition parse (data : bytes) : option value :=
  '(v, r) ← decode (S (length data)) 0 data;
  if bool_decide (skip_space r = []) then Some v else None.

Definition kind (v : value) : string :=
  match v with
  | Null => "null" | Bool _ => "bool" | Number _ => "number"
  | String _ => "string" | Array _ => "array" | Object _ => "object"
  end.

(** [json.Unmarshal(data, j)] for [j] a pointer to a map: [old] is the map
    before the call, [None] a nil one.  An object is stored into the map
    that is there, a new one if it is nil; [null] makes the map nil;
    anything else is an error and leaves the map alone. *)
Definition Unmarshal (data : bytes) (old : option (list (bytes * value)))
  : option (list (bytes * value)) * error :=
  match parse data with
  | None => (old, Some "invalid JSON input")
  | Some Null => (None, nil)
  | Some (Object members) => (Some (store (default [] old) members), nil)
  | Some v =>
      (old, Some ("json: cannot unmarshal " +:+ kind v
                  +:+ " into Go value of type model.JSONMap"))
  end.

(** *** The documents the decoder can have produced *)

Definition key_lt (a b : bytes * value) : Prop := compare a.1 b.1 = Lt.

Fixpoint height (v : value) : nat :=
  match v with
  | Array items => S (foldr (λ x h, Nat.max (height x) h) 0%nat items)
  | Object members => S (foldr (λ kx h, Nat.max (height kx.2) h) 0%nat members)
  | _ => 0%nat
  end.

(** Numbers are number texts, and every map has its keys in strictly
    increasing order (hence distinct). *)
Fixpoint well_formed (v : value) : Prop :=
  match v with
  | Number text => is_number text = true ∧ forallb number_byte text = true
  | Array items => foldr (λ x p, well_formed x ∧ p) True items
  | Object members =>
      StronglySorted key_lt members
      ∧ foldr (λ kx p, well_formed kx.2 ∧ p) True members
  | _ => True
  end.

(** What may follow a value inside a text: nothing, or [,], []] or [}]. *)
Definition terminated (rest : bytes) : Prop :=
  match rest with
  | [] => True
  | c :: _ => c ∈ lit ",]}"
  end.

(** What a byte must be for [decode] to take the branch of each kind. *)
Definition opens (v : value) (c : ascii) : Prop :=
  match v with
  | Null => c = "n"%char
  | Bool true => c = "t"%char
  | Bool false => c = "f"%char
  | Number _ => (is_digit c || bool_decide (c = "-"%char)) = true
  | String _ => c = quote
  | Array _ => c = "["%char
  | Object _ => c = "{"%char
  end.

(** The claim of the main induction: [v], encoded and followed by [rest],
    decodes to [v] and [rest]. *)
Definition reads_back (v : value) : Prop :=
  ∀ fuel depth rest,
    well_formed v → length (encode v) ≤ fuel →
    depth + height v ≤ maxNestingDepth → terminated rest →
    decode fuel depth (encode v ++ rest) = Some (v, rest).

End json.

(** ** internal/model *)
Module model.

(** [type ConfigFormat string] *)
Definition ConfigFormat := string.

Definition ConfigFormatJSON : ConfigFormat := "json".
Definition ConfigFormatYAML : ConfigFormat := "yaml".
Definition ConfigFormatTOML : ConfigFormat := "toml".
Definition ConfigFormatEnv : ConfigFormat := "env".

(** The four declared constants, also the labels of the SQL enum. *)
Definition config_formats : list ConfigFormat :=
  [ConfigFormatJSON; ConfigFormatYAML; ConfigFormatTOML; ConfigFormatEnv].

(** [func (cf *ConfigFormat) Scan(value interface{}) error]: the receiver
    before the call goes in, the receiver after it and the error come out. *)
Definition ConfigFormat_Scan (cf : ConfigFormat) (value : driver.Value)
  : ConfigFormat * error :=
  match value with
  | driver.Nil => (ConfigFormatJSON, nil)
  | driver.String str => (str, nil)
  | _ => (cf, Some ("cannot scan " +:+ driver.type_name value +:+ " into ConfigFormat"))
  end.

(** [func (cf ConfigFormat) Value() (driver.Value, error)] *)
Definition ConfigFormat_Value (cf : ConfigFormat) : driver.Value * error :=
  (driver.String cf, nil).

(** [type JSONMap map[string]interface{}]: [None] is the nil map. *)
Definition JSONMap := option (list (json.bytes * json.value)).

(** [make(JSONMap)] *)
Definition make_JSONMap : JSONMap := Some [].

(** [func (j *JSONMap) Scan(value interface{}) error]: the map [j] points to
    before the call goes in, the map after it and the error come out. *)
Definition JSONMap_Scan (j : JSONMap) (value : driver.Value) : JSONMap * error :=
  match value with
  | driver.Nil => (make_JSONMap, nil)
  | driver.Bytes bytes => json.Unmarshal bytes j
  | _ => (j, Some ("cannot scan " +:+ driver.type_name value +:+ " into JSONMap"))
  end.

(** [func (j JSONMap) Value() (driver.Value, error)] *)
Definition JSONMap_Value (j : JSONMap) : driver.Value * error :=
  match j with
  | None => (driver.Nil, nil)
  | Some m => let '(data, err) := json.Marshal m in (driver.Bytes data, err)
  end.

(** The entries a map reads as; a nil map reads as an empty one. *)
Definition entries (j : JSONMap) : list (json.bytes * json.value) := default [] j.

(** A document the store can hand back: a nil map, or a map whose values
    are what the decoder builds and nest no deeper than it reads. *)
Definition document (j : JSONMap) : Prop :=
  match j with
  | None => True
  | Some m =>
      json.well_formed (json.Object m)
      ∧ json.height (json.Object m) ≤ json.maxNestingDepth
  end.

(** common.go *)
Record ErrorResponse := {
  Error : string;
  Message : string;
  Details : gmap string string
}.

(** [Data interface{}] is nil wherever the service builds this value. *)
Record SuccessResponse := {
  SMessage : string;
  Data : option string
}.

Record ServiceHealthInfo := {
  Status : string;
  HMessage : string;
  Latency : string;
  LastCheck : string
}.

Record HealthResponse := {
  HStatus : string;
  Version : string;
  Services : gmap string ServiceHealthInfo
}.

End model.

(** ** net/http status codes used below *)
Module http.
Definition StatusOK : Z := 200.
Definition StatusInternalServerError : Z := 500.
Definition StatusServiceUnavailable : Z := 503.
End http.

(** ** internal/database/connection.go *)
Module database.

(** [Connection.HealthCheck]: [ping] is what [DB.PingContext] returned. *)
Definition HealthCheck (ping : error) : error :=
  match ping with
  | Some e => Some ("database health check failed: " +:+ e)
  | None => nil
  end.

End database.

(** ** internal/api/health/handler.go *)
Module health.

(** What the two dependencies answer when they are asked. *)
Record Deps := {
  db_ping : error;       (* DB.PingContext *)
  redis_ping : error     (* redis.Ping(ctx).Err() *)
}.

(** The clock readings a check takes, already formatted. *)
Record Clock := {
  latency : string;      (* time.Since(start).String() *)
  last_check : string    (* time.Now().Format(time.RFC3339) *)
}.

Inductive Body :=
| ErrorBody (r : model.ErrorResponse)
| SuccessBody (r : model.SuccessResponse)
| HealthBody (r : model.HealthResponse).

(** What [c.JSON(code, obj)] writes, and the lines logged on the way. *)
Record Result := {
  code : Z;
  body : Body;
  logged : list logger.Entry
}.

Definition checkDatabase (d : Deps) (c : Clock) : model.ServiceHealthInfo :=
  match database.HealthCheck (db_ping d) with
  | Some e =>
      {| model.Status := "unhealthy"; model.HMessage := e;
         model.Latency := latency c; model.LastCheck := last_check c |}
  | None =>
      {| model.Status := "healthy";
         model.HMessage := "Database connection is healthy";
         model.Latency := latency c; model.LastCheck := last_check c |}
  end.

Definition checkRedis (d : Deps) (c : Clock) : model.ServiceHealthInfo :=
  match redis_ping d with
  | Some e =>
      {| model.Status := "unhealthy"; model.HMessage := e;
         model.Latency := latency c; model.LastCheck := last_check c |}
  | None =>
      {| model.Status := "healthy";
         model.HMessage := "Redis connection is healthy";
         model.Latency := latency c; model.LastCheck := last_check c |}
  end.

Definition Health (version : string) (d : Deps) (cdb credis : Clock) : Result :=
  let overall := "healthy" in
  let dbHealth := checkDatabase d cdb in
  let services : gmap string model.ServiceHealthInfo := <["database" := dbHealth]> ∅ in
  let overall := if decide (model.Status dbHealth ≠ "healthy") then "unhealthy" else overall in
  let redisHealth := checkRedis d credis in
  let services := <["redis" := redisHealth]> services in
  let overall := if decide (model.Status redisHealth ≠ "healthy") then "unhealthy" else overall in
  let response :=
    {| model.HStatus := overall; model.Version := version; model.Services := services |} in
  if decide (overall = "healthy")
  then {| code := http.StatusOK; body := HealthBody response; logged := [] |}
  else {| code := http.StatusServiceUnavailable; body := HealthBody response; logged := [] |}.

Definition Readiness (d : Deps) : Result :=
  match database.HealthCheck (db_ping d) with
  | Some e =>
      {| code := http.StatusServiceUnavailable;
         body := ErrorBody {| model.Error := "service_not_ready";
                              model.Message := "Database is not ready";
                              model.Details := ∅ |};
         logged := [logger.error_with e "Database readiness check failed"] |}
  | None =>
      match redis_ping d with
      | Some e =>
          {| code := http.StatusServiceUnavailable;
             body := ErrorBody {| model.Error := "service_not_ready";
                                  model.Message := "Redis is not ready";
                                  model.Details := ∅ |};
             logged := [logger.error_with e "Redis readiness check failed"] |}
      | None =>
          {| code := http.StatusOK;
             body := SuccessBody {| model.SMessage := "Service is ready";
                                    model.Data := None |};
             logged := [] |}
      end
  end.

Definition Liveness : Result :=
  {| code := http.StatusOK;
     body := SuccessBody {| model.SMessage := "Service is alive"; model.Data := None |};
     logged := [] |}.

(** Whether both dependencies answered without error. *)
Definition all_up (d : Deps) : bool :=
  match db_ping d, redis_ping d with
  | None, None => true
  | _, _ => false
  end.

End health.

(** ** cmd/server/main.go: the two list endpoints *)
Module api.

(** A [gin.H] document: the values the handlers put into it. *)
Inductive any :=
| Str (s : string)
| Int (z : Z)
| Boolean (b : bool)
| List (l : list any)
| H (m : list (string * any)).

(** What [db.DB.Query] hands back: an error, or rows, each of which
    [rows.Scan] either fails on or decodes into its column values.  The
    handlers never call [rows.Err()], so rows cut short by an error are
    just fewer rows. *)
Definition Rows (row : Type) := list (string + row).
Definition QueryResult (row : Type) := (string + Rows row)%type.

Record EnvironmentRow := {
  e_id : Z; e_name : string; e_slug : string; e_description : string;
  e_active : bool; e_priority : Z
}.

Record TagRow := {
  t_id : Z; t_name : string; t_description : string; t_color : string
}.

Record Response := {
  status : Z;
  payload : any;
  logged : list logger.Entry   (* lines the handler itself logs *)
}.

Definition environment_H (r : EnvironmentRow) : any :=
  H [("id", Int (e_id r)); ("name", Str (e_name r)); ("slug", Str (e_slug r));
     ("description", Str (e_description r)); ("active", Boolean (e_active r));
     ("priority", Int (e_priority r))].

Definition tag_H (r : TagRow) : any :=
  H [("id", Int (t_id r)); ("name", Str (t_name r));
     ("description", Str (t_description r)); ("color", Str (t_color r))].

(** The [for rows.Next()] loop: [acc] is the slice built so far. *)
Fixpoint collect {row} (to_H : row → any) (rows : Rows row) (acc : list any)
  : string + list any :=
  match rows with
  | [] => inr acc
  | inl e :: _ => inl e
  | inr r :: rest => collect to_H rest (acc ++ [to_H r])
  end.

Definition list_handler {row} (key : string) (to_H : row → any)
    (q : QueryResult row) : Response :=
  match q with
  | inl e =>
      {| status := http.StatusInternalServerError;
         payload := H [("error", Str e)]; logged := [] |}
  | inr rows =>
      match collect to_H rows [] with
      | inl e =>
          {| status := http.StatusInternalServerError;
             payload := H [("error", Str e)]; logged := [] |}
      | inr items =>
          {| status := http.StatusOK;
             payload := H [(key, List items); ("total", Int (Z.of_nat (length items)))];
             logged := [] |}
      end
  end.

Definition getEnvironments (q : QueryResult EnvironmentRow) : Response :=
  list_handler "environments" environment_H q.

Definition getTags (q : QueryResult TagRow) : Response :=
  list_handler "tags" tag_H q.

(** The strings that occur anywhere in a document sent to the caller. *)
Fixpoint texts (v : any) : list string :=
  match v with
  | Str s => [s]
  | Int _ | Boolean _ => []
  | List l => concat (map texts l)
  | H m => concat (map (λ kv, texts kv.2) m)
  end.

End api.

(** ** golang-migrate, as far as the runner drives it

    The runner delegates to [migrate.Migrate]: [Up], [Steps], [Version] and
    [Force].  The library is an import of the repository, so its behaviour
    is written out here after its v4 sources: the source driver's sorted
    index with [First]/[Prev]/[Next], the readers that plan a run, and
    [runMigrations], which flags the target version dirty, runs the body and
    clears the flag. *)
Module migrate.

Inductive Direction := DUp | DDown.

(** A migration file's body; [script_ok] tells whether the database driver
    runs it without error. *)
Record Script := { script_ok : bool }.

(** One version of the source: its number and the bodies it ships. *)
Record Entry := {
  ver : nat;
  up : option Script;
  down : option Script
}.

Definition Source := list Entry.

Definition index (src : Source) : list nat := ver <$> src.

Inductive Err :=
| ErrNoChange
| ErrNilVersion
| ErrInvalidVersion
| ErrDirty (v : Z)
| ErrNotExist
| ErrShortLimit (short : Z)
| ErrRun (d : Direction) (v : nat).   (* the driver failed on a body *)

(** A planned step: run [Body] (if any) and move to [TargetVersion]. *)
Record Migration := {
  Version : nat;
  TargetVersion : Z;
  Body : option Script
}.

(** What the readers send down the channel. *)
Inductive Item :=
| Migr (m : Migration)
| Fail (e : Err).

(** The store side: the tracked version ([-1] is the nil version), the
    dirty flag, and the steps handed to the store so far, oldest first. *)
Record Database := {
  version : Z;
  dirty : bool;
  history : list Migration
}.

Definition NilVersion : Z := -1.

Definition SetVersion (v : Z) (d : bool) (db : Database) : Database :=
  {| version := v; dirty := d; history := history db |}.

Definition ReadUp (src : Source) (v : nat) : option Script :=
  e ← find (λ e, bool_decide (ver e = v)) src; up e.

Definition ReadDown (src : Source) (v : nat) : option Script :=
  e ← find (λ e, bool_decide (ver e = v)) src; down e.

Definition First (src : Source) : option nat := head (index src).

Fixpoint next_in (idx : list nat) (v : nat) : option nat :=
  match idx with
  | [] => None
  | x :: rest => if bool_decide (x = v) then head rest else next_in rest v
  end.

Fixpoint prev_in (idx : list nat) (v : nat) : option nat :=
  match idx with
  | [] => None
  | x :: rest =>
      match rest with
      | y :: _ => if bool_decide (y = v) then Some x else prev_in rest v
      | [] => None
      end
  end.

Definition Next (src : Source) (v : nat) : option nat := next_in (index src) v.
Definition Prev (src : Source) (v : nat) : option nat := prev_in (index src) v.

Definition versionExists (src : Source) (v : nat) : option Err :=
  match ReadUp src v with
  | Some _ => None
  | None => match ReadDown src v with
            | Some _ => None
            | None => Some ErrNotExist
            end
  end.

Definition newMigration (src : Source) (v : nat) (target : Z) : Migration :=
  {| Version := v; TargetVersion := target;
     Body := if bool_decide (Z.of_nat v ≤ target)%Z then ReadUp src v else ReadDown src v |}.

(** The step that applies version [w]. *)
Definition up_step (src : Source) (w : nat) : Migration :=
  newMigration src w (Z.of_nat w).

(** The [for count < limit || limit == -1] loop of [readUp]; one unit of
    fuel per iteration. *)
Fixpoint readUp_loop (fuel : nat) (src : Source) (from limit count : Z) : list Item :=
  match fuel with
  | O => []
  | S fuel =>
      if negb (bool_decide (count < limit)%Z || bool_decide (limit = -1)%Z) then []
      else if bool_decide (from = -1)%Z then
        match First src with
        | None => [Fail ErrNotExist]
        | Some firstVersion =>
            Migr (newMigration src firstVersion (Z.of_nat firstVersion))
              :: readUp_loop fuel src (Z.of_nat firstVersion) limit (count + 1)
        end
      else
        match Next src (Z.to_nat from) with
        | None =>
            if bool_decide (limit = -1)%Z && bool_decide (count = 0)%Z then [Fail ErrNoChange]
            else if bool_decide (limit = -1)%Z then []
            else if bool_decide (0 < limit)%Z && bool_decide (count = 0)%Z then [Fail ErrNotExist]
            else if bool_decide (count < limit)%Z then [Fail (ErrShortLimit (limit - count))]
            else []
        | Some next =>
            Migr (newMigration src next (Z.of_nat next))
              :: readUp_loop fuel src (Z.of_nat next) limit (count + 1)
        end
  end.

(** Every iteration but the last moves one place up the index. *)
Definition fuel_for (src : Source) : nat := S (S (length src)).

Definition readUp (src : Source) (from limit : Z) : list Item :=
  match (if bool_decide (0 ≤ from)%Z then versionExists src (Z.to_nat from) else None) with
  | Some e => [Fail e]
  | None =>
      if bool_decide (limit = 0)%Z then [Fail ErrNoChange]
      else readUp_loop (fuel_for src) src from limit 0
  end.

Fixpoint readDown_loop (fuel : nat) (src : Source) (from limit count : Z) : list Item :=
  match fuel with
  | O => []
  | S fuel =>
      if negb (bool_decide (count < limit)%Z || bool_decide (limit = -1)%Z) then []
      else
        match Prev src (Z.to_nat from) with
        | None =>
            (if bool_decide (limit = -1)%Z || bool_decide (0 < limit - count)%Z then
               match First src with
               | None => [Fail ErrNotExist]
               | Some firstVersion =>
                   Migr (newMigration src firstVersion (-1))
                     :: (if bool_decide (count + 1 < limit)%Z
                         then [Fail (ErrShortLimit (limit - (count + 1)))] else [])
               end
             else
               if bool_decide (count < limit)%Z
               then [Fail (ErrShortLimit (limit - count))] else [])
        | Some prev =>
            Migr (newMigration src (Z.to_nat from) (Z.of_nat prev))
              :: readDown_loop fuel src (Z.of_nat prev) limit (count + 1)
        end
  end.

Definition readDown (src : Source) (from limit : Z) : list Item :=
  match (if bool_decide (0 ≤ from)%Z then versionExists src (Z.to_nat from) else None) with
  | Some e => [Fail e]
  | None =>
      if bool_decide (limit = 0)%Z then [Fail ErrNoChange]
      else if bool_decide (from = -1)%Z && bool_decide (limit = -1)%Z then [Fail ErrNoChange]
      else if bool_decide (from = -1)%Z && bool_decide (0 < limit)%Z then [Fail ErrNotExist]
      else readDown_loop (fuel_for src) src from limit 0
  end.

Definition direction (m : Migration) : Direction :=
  if bool_decide (Z.of_nat (Version m) ≤ TargetVersion m)%Z then DUp else DDown.

(** One [*Migration] received by [runMigrations]. *)
Definition run_one (db : Database) (m : Migration) : Database * option Err :=
  let db := SetVersion (TargetVersion m) true db in
  let db := {| version := version db; dirty := dirty db;
               history := history db ++ [m] |} in
  match Body m with
  | Some body =>
      if script_ok body then (SetVersion (TargetVersion m) false db, None)
      else (db, Some (ErrRun (direction m) (Version m)))
  | None => (SetVersion (TargetVersion m) false db, None)
  end.

Fixpoint runMigrations (db : Database) (ret : list Item) : Database * option Err :=
  match ret with
  | [] => (db, None)
  | Fail e :: _ => (db, Some e)
  | Migr m :: rest =>
      match run_one db m with
      | (db', None) => runMigrations db' rest
      | (db', Some e) => (db', Some e)
      end
  end.

Definition Up (src : Source) (db : Database) : Database * option Err :=
  if dirty db then (db, Some (ErrDirty (version db)))
  else runMigrations db (readUp src (version db) (-1)).

Definition Steps (src : Source) (n : Z) (db : Database) : Database * option Err :=
  if bool_decide (n = 0)%Z then (db, Some ErrNoChange)
  else if dirty db then (db, Some (ErrDirty (version db)))
  else if bool_decide (0 < n)%Z then runMigrations db (readUp src (version db) n)
  else runMigrations db (readDown src (version db) (- n)).

Definition GetVersion (db : Database) : (Z * bool) * option Err :=
  if bool_decide (version db = NilVersion) then ((0%Z, false), Some ErrNilVersion)
  else ((version db, dirty db), None).

Definition Force (v : Z) (db : Database) : Database * option Err :=
  if bool_decide (v < -1)%Z then (db, Some ErrInvalidVersion)
  else (SetVersion v false db, None).

(** The versions applied in [db], oldest first. *)
Definition applied (src : Source) (db : Database) : list nat :=
  filter (λ v, Z.of_nat v ≤ version db)%Z (index src).

(** The source driver keeps its index strictly increasing, and lists a
    version only when it found an up or a down file for it. *)
Definition wf (src : Source) : Prop :=
  StronglySorted lt (index src)
  ∧ Forall (λ e, is_Some (up e) ∨ is_Some (down e)) src.

Definition latest (src : Source) : option nat := last (index src).

(** The store is clean and its version is the newest one of the source. *)
Definition at_latest (src : Source) (db : Database) : Prop :=
  dirty db = false ∧ ∃ v, latest src = Some v ∧ version db = Z.of_nat v.

End migrate.

(** ** internal/database/migrations.go *)
Module MigrationRunner.

(** [fmt.Errorf("...: %w", err)]: the message and the wrapped cause. *)
Record WrappedError := { prefix : string; cause : migrate.Err }.

(** The runner's view: the store it migrates and the lines it logged. *)
Record State := {
  db : migrate.Database;
  log : list logger.Entry
}.

Definition say (e : logger.Entry) (st : State) : State :=
  {| db := db st; log := log st ++ [e] |}.

Definition Up (src : migrate.Source) (st : State) : State * option WrappedError :=
  let st := say (logger.info "Running database migrations...") st in
  match migrate.Up src (db st) with
  | (db', Some e) =>
      let st := {| db := db'; log := log st |} in
      match e with
      | migrate.ErrNoChange => (say (logger.info "No new migrations to apply") st, None)
      | _ => (st, Some {| prefix := "failed to run migrations"; cause := e |})
      end
  | (db', None) =>
      (say (logger.info "Successfully applied database migrations")
           {| db := db'; log := log st |}, None)
  end.

Definition Down (src : migrate.Source) (st : State) : State * option WrappedError :=
  let st := say (logger.info "Rolling back one migration...") st in
  match migrate.Steps src (-1) (db st) with
  | (db', Some e) =>
      ({| db := db'; log := log st |},
       Some {| prefix := "failed to rollback migration"; cause := e |})
  | (db', None) =>
      (say (logger.info "Successfully rolled back one migration")
           {| db := db'; log := log st |}, None)
  end.

Definition Version (st : State) : (Z * bool) * option WrappedError :=
  match migrate.GetVersion (db st) with
  | (_, Some e) => ((0%Z, false), Some {| prefix := "failed to get migration version"; cause := e |})
  | (vd, None) => (vd, None)
  end.

Definition ForceVersion (v : Z) (st : State) : State * option WrappedError :=
  let st := say {| logger.level := logger.Warn; logger.err := nil;
                   logger.msg := "Forcing migration version (USE WITH CAUTION)" |} st in
  match migrate.Force v (db st) with
  | (db', Some e) =>
      ({| db := db'; log := log st |},
       Some {| prefix := "failed to force migration version"; cause := e |})
  | (db', None) =>
      (say (logger.info "Successfully forced migration version")
           {| db := db'; log := log st |}, None)
  end.

(** The steps a call handed to the store: what [history] gained. *)
Definition steps_of (before after : State) : list migrate.Migration :=
  drop (length (migrate.history (db before))) (migrate.history (db after)).

(** Section 4.3 of the design, in its words: [Down(n)] rolls back the last
    [n] applied versions in reverse order.  These are the versions such a
    call would have to undo, newest first. *)
Definition last_applied (n : nat) (src : migrate.Source) (st : State) : list nat :=
  take n (reverse (migrate.applied src (db st))).

End MigrationRunner.

(** ** The persistence schema (the SQL migrations)

    Tables are lists of rows in insertion order.  A nullable column holds
    an [option]; a column an INSERT may leave out holds an [option] in the
    statement, [None] standing for the column's DEFAULT.  Statement values
    are of the column's type: NOT NULL columns take a value, the [format]
    column takes one of the enum's labels.  [now] is what [NOW()] returns
    in the statement's transaction, the transaction's start time. *)
Module schema.

Local Open Scope Z_scope.

Inductive config_format := json | yaml | toml | env.

Record tag := {
  tag_id : Z;                          (* BIGSERIAL PRIMARY KEY *)
  tag_name : string;                   (* VARCHAR(100) NOT NULL UNIQUE *)
  tag_description : option string;     (* TEXT DEFAULT '' *)
  tag_color : string;                  (* VARCHAR(7) NOT NULL DEFAULT '#6b7280' *)
  tag_created_at : option Z;           (* TIMESTAMPTZ DEFAULT NOW() *)
  tag_updated_at : option Z            (* TIMESTAMPTZ DEFAULT NOW() *)
}.

Record environment := {
  env_id : Z;
  env_name : string;                   (* NOT NULL UNIQUE *)
  env_slug : string;                   (* NOT NULL UNIQUE *)
  env_description : option string;
  env_active : option bool;            (* DEFAULT true *)
  env_priority : option Z;             (* DEFAULT 50 CHECK (0..100) *)
  env_created_at : option Z;
  env_updated_at : option Z
}.

Record template := {
  tpl_id : Z;
  tpl_name : string;                   (* VARCHAR(200) NOT NULL *)
  tpl_description : option string;
  tpl_format : config_format;          (* NOT NULL DEFAULT 'json' *)
  tpl_content : string;                (* TEXT NOT NULL *)
  tpl_schema : option string;          (* JSONB DEFAULT '{}' *)
  tpl_default_values : option string;  (* JSONB DEFAULT '{}' *)
  tpl_version : string;
  tpl_environment_id : Z;              (* NOT NULL REFERENCES environments ON DELETE CASCADE *)
  tpl_active : option bool;
  tpl_created_at : option Z;
  tpl_updated_at : option Z;
  tpl_created_by : string;
  tpl_updated_by : string
}.

(** [template_tags(template_id, tag_id)], both CASCADE, the pair the key. *)
Definition template_tag := (Z * Z)%type.

(** The tables, and the last value each BIGSERIAL sequence handed out. *)
Record DB := {
  tags : list tag;
  environments : list environment;
  templates : list template;
  template_tags : list template_tag;
  tags_id_seq : Z;
  environments_id_seq : Z;
  templates_id_seq : Z
}.

Definition empty : DB :=
  {| tags := []; environments := []; templates := []; template_tags := [];
     tags_id_seq := 0; environments_id_seq := 0; templates_id_seq := 0 |}.

Inductive SqlError :=
| unique_violation (constraint : string)
| check_violation (constraint : string)
| foreign_key_violation (constraint : string).

(** *** Statements *)

Record insert_tag := {
  it_id : option Z;
  it_name : string;
  it_description : option (option string);
  it_color : option string;
  it_created_at : option (option Z);
  it_updated_at : option (option Z)
}.

Record update_tag := {
  ut_name : option string;
  ut_description : option (option string);
  ut_color : option string;
  ut_created_at : option (option Z);
  ut_updated_at : option (option Z)
}.

Record insert_environment := {
  ie_id : option Z;
  ie_name : string;
  ie_slug : string;
  ie_description : option (option string);
  ie_active : option (option bool);
  ie_priority : option (option Z);
  ie_created_at : option (option Z);
  ie_updated_at : option (option Z)
}.

Record update_environment := {
  ue_name : option string;
  ue_slug : option string;
  ue_description : option (option string);
  ue_active : option (option bool);
  ue_priority : option (option Z);
  ue_created_at : option (option Z);
  ue_updated_at : option (option Z)
}.

Record insert_template := {
  itp_id : option Z;
  itp_name : string;
  itp_description : option (option string);
  itp_format : option config_format;
  itp_content : string;
  itp_schema : option (option string);
  itp_default_values : option (option string);
  itp_version : string;
  itp_environment_id : Z;
  itp_active : option (option bool);
  itp_created_at : option (option Z);
  itp_updated_at : option (option Z);
  itp_created_by : string;
  itp_updated_by : string
}.

Record update_template := {
  utp_name : option string;
  utp_description : option (option string);
  utp_format : option config_format;
  utp_content : option string;
  utp_schema : option (option string);
  utp_default_values : option (option string);
  utp_version : option string;
  utp_environment_id : option Z;
  utp_active : option (option bool);
  utp_created_at : option (option Z);
  utp_updated_at : option (option Z);
  utp_created_by : option string;
  utp_updated_by : option string
}.

(** One statement on one row.  UPDATE and DELETE address the row by its
    primary key, and no UPDATE rewrites a primary key. *)
Inductive Stmt :=
| InsertTag (i : insert_tag)
| InsertTagOnConflictName (i : insert_tag)           (* ON CONFLICT (name) DO NOTHING *)
| UpdateTag (id : Z) (u : update_tag)
| DeleteTag (id : Z)
| InsertEnvironment (i : insert_environment)
| InsertEnvironmentOnConflictSlug (i : insert_environment)  (* ON CONFLICT (slug) DO NOTHING *)
| UpdateEnvironment (id : Z) (u : update_environment)
| DeleteEnvironment (id : Z)
| InsertTemplate (i : insert_template)
| UpdateTemplate (id : Z) (u : update_template)
| DeleteTemplate (id : Z)
| InsertTemplateTag (template_id tag_id : Z)
| DeleteTemplateTag (template_id tag_id : Z).

(** *** Row construction: DEFAULTs on insert, the trigger on update *)

Definition new_tag (now id : Z) (i : insert_tag) : tag :=
  {| tag_id := id;
     tag_name := it_name i;
     tag_description := default (Some "") (it_description i);
     tag_color := default "#6b7280" (it_color i);
     tag_created_at := default (Some now) (it_created_at i);
     tag_updated_at := default (Some now) (it_updated_at i) |}.

(** [update_updated_at_column], BEFORE UPDATE FOR EACH ROW: whatever the
    SET list put into the new row, [NEW.updated_at = NOW()]. *)
Definition set_tag (now : Z) (u : update_tag) (old : tag) : tag :=
  let new := {| tag_id := tag_id old;
                tag_name := default (tag_name old) (ut_name u);
                tag_description := default (tag_description old) (ut_description u);
                tag_color := default (tag_color old) (ut_color u);
                tag_created_at := default (tag_created_at old) (ut_created_at u);
                tag_updated_at := default (tag_updated_at old) (ut_updated_at u) |} in
  {| tag_id := tag_id new; tag_name := tag_name new;
     tag_description := tag_description new; tag_color := tag_color new;
     tag_created_at := tag_created_at new;
     tag_updated_at := Some now |}.

Definition new_environment (now id : Z) (i : insert_environment) : environment :=
  {| env_id := id;
     env_name := ie_name i;
     env_slug := ie_slug i;
     env_description := default (Some "") (ie_description i);
     env_active := default (Some true) (ie_active i);
     env_priority := default (Some 50) (ie_priority i);
     env_created_at := default (Some now) (ie_created_at i);
     env_updated_at := default (Some now) (ie_updated_at i) |}.

Definition set_environment (now : Z) (u : update_environment) (old : environment)
  : environment :=
  let new := {| env_id := env_id old;
                env_name := default (env_name old) (ue_name u);
                env_slug := default (env_slug old) (ue_slug u);
                env_description := default (env_description old) (ue_description u);
                env_active := default (env_active old) (ue_active u);
                env_priority := default (env_priority old) (ue_priority u);
                env_created_at := default (env_created_at old) (ue_created_at u);
                env_updated_at := default (env_updated_at old) (ue_updated_at u) |} in
  {| env_id := env_id new; env_name := env_name new; env_slug := env_slug new;
     env_description := env_description new; env_active := env_active new;
     env_priority := env_priority new; env_created_at := env_created_at new;
     env_updated_at := Some now |}.

Definition new_template (now id : Z) (i : insert_template) : template :=
  {| tpl_id := id;
     tpl_name := itp_name i;
     tpl_description := default (Some "") (itp_description i);
     tpl_format := default json (itp_format i);
     tpl_content := itp_content i;
     tpl_schema := default (Some "{}") (itp_schema i);
     tpl_default_values := default (Some "{}") (itp_default_values i);
     tpl_version := itp_version i;
     tpl_environment_id := itp_environment_id i;
     tpl_active := default (Some true) (itp_active i);
     tpl_created_at := default (Some now) (itp_created_at i);
     tpl_updated_at := default (Some now) (itp_updated_at i);
     tpl_created_by := itp_created_by i;
     tpl_updated_by := itp_updated_by i |}.

Definition set_template (now : Z) (u : update_template) (old : template) : template :=
  let new := {| tpl_id := tpl_id old;
                tpl_name := default (tpl_name old) (utp_name u);
                tpl_description := default (tpl_description old) (utp_description u);
                tpl_format := default (tpl_format old) (utp_format u);
                tpl_content := default (tpl_content old) (utp_content u);
                tpl_schema := default (tpl_schema old) (utp_schema u);
                tpl_default_values :=
                  default (tpl_default_values old) (utp_default_values u);
                tpl_version := default (tpl_version old) (utp_version u);
                tpl_environment_id :=
                  default (tpl_environment_id old) (utp_environment_id u);
                tpl_active := default (tpl_active old) (utp_active u);
                tpl_created_at := default (tpl_created_at old) (utp_created_at u);
                tpl_updated_at := default (tpl_updated_at old) (utp_updated_at u);
                tpl_created_by := default (tpl_created_by old) (utp_created_by u);
                tpl_updated_by := default (tpl_updated_by old) (utp_updated_by u) |} in
  {| tpl_id := tpl_id new; tpl_name := tpl_name new;
     tpl_description := tpl_description new; tpl_format := tpl_format new;
     tpl_content := tpl_content new; tpl_schema := tpl_schema new;
     tpl_default_values := tpl_default_values new; tpl_version := tpl_version new;
     tpl_environment_id := tpl_environment_id new; tpl_active := tpl_active new;
     tpl_created_at := tpl_created_at new;
     tpl_updated_at := Some now;
     tpl_created_by := tpl_created_by new; tpl_updated_by := tpl_updated_by new |}.

(** A column value of the DEFAULT or of the statement, and the sequence
    after it: [nextval] is consumed only when the id is left out. *)
Definition serial (given : option Z) (seq : Z) : Z * Z :=
  match given with
  | Some id => (id, seq)
  | None => (seq + 1, seq + 1)
  end.

(** CHECK (priority >= 0 AND priority <= 100): a NULL passes. *)
Definition priority_ok (p : option Z) : bool :=
  match p with
  | Some p => bool_decide (0 ≤ p) && bool_decide (p ≤ 100)
  | None => true
  end.

(** The key of UNIQUE(name, environment_id). *)
Definition tpl_key (t : template) : string * Z := (tpl_name t, tpl_environment_id t).

(** Replace the row whose primary key is [id]. *)
Definition update_row {A} (key : A → Z) (id : Z) (f : A → A) (rows : list A) : list A :=
  (λ r, if bool_decide (key r = id) then f r else r) <$> rows.

(** The rows other than the one whose primary key is [id]. *)
Definition others {A} (key : A → Z) (id : Z) (rows : list A) : list A :=
  filter (λ r, key r ≠ id) rows.

Definition with_tags (db : DB) (seq : Z) (rows : list tag) : DB :=
  {| tags := rows; environments := environments db; templates := templates db;
     template_tags := template_tags db; tags_id_seq := seq;
     environments_id_seq := environments_id_seq db;
     templates_id_seq := templates_id_seq db |}.

Definition with_environments (db : DB) (seq : Z) (rows : list environment) : DB :=
  {| tags := tags db; environments := rows; templates := templates db;
     template_tags := template_tags db; tags_id_seq := tags_id_seq db;
     environments_id_seq := seq;
     templates_id_seq := templates_id_seq db |}.

Definition with_templates (db : DB) (seq : Z) (rows : list template) : DB :=
  {| tags := tags db; environments := environments db; templates := rows;
     template_tags := template_tags db; tags_id_seq := tags_id_seq db;
     environments_id_seq := environments_id_seq db;
     templates_id_seq := seq |}.

Definition with_template_tags (db : DB) (rows : list template_tag) : DB :=
  {| tags := tags db; environments := environments db; templates := templates db;
     template_tags := rows; tags_id_seq := tags_id_seq db;
     environments_id_seq := environments_id_seq db;
     templates_id_seq := templates_id_seq db |}.

(** *** Execution: the store after the statement, and the error raised.
    A failed statement leaves every table as it was; a sequence value it
    drew stays drawn. *)

(** [on_conflict] is set for [ON CONFLICT (name) DO NOTHING]: a row whose
    name is taken is then skipped without error. *)
Definition exec_insert_tag (on_conflict : bool) (now : Z) (i : insert_tag) (db : DB)
  : DB * option SqlError :=
  let '(id, seq) := serial (it_id i) (tags_id_seq db) in
  let row := new_tag now id i in
  if on_conflict && bool_decide (tag_name row ∈ tag_name <$> tags db)
  then (with_tags db seq (tags db), None)
  else if bool_decide (id ∈ tag_id <$> tags db)
  then (with_tags db seq (tags db), Some (unique_violation "tags_pkey"))
  else if bool_decide (tag_name row ∈ tag_name <$> tags db)
  then (with_tags db seq (tags db), Some (unique_violation "tags_name_key"))
  else (with_tags db seq (tags db ++ [row]), None).

Definition exec_update_tag (now id : Z) (u : update_tag) (db : DB) : DB * option SqlError :=
  match find (λ r, bool_decide (tag_id r = id)) (tags db) with
  | None => (db, None)
  | Some old =>
      let row := set_tag now u old in
      if bool_decide (tag_name row ∈ tag_name <$> others tag_id id (tags db))
      then (db, Some (unique_violation "tags_name_key"))
      else (with_tags db (tags_id_seq db) (update_row tag_id id (set_tag now u) (tags db)),
            None)
  end.

Definition exec_delete_tag (id : Z) (db : DB) : DB * option SqlError :=
  ({| tags := others tag_id id (tags db);
      environments := environments db;
      templates := templates db;
      template_tags := filter (λ tt, tt.2 ≠ id) (template_tags db);
      tags_id_seq := tags_id_seq db;
      environments_id_seq := environments_id_seq db;
      templates_id_seq := templates_id_seq db |}, None).

(** [on_conflict] is set for [ON CONFLICT (slug) DO NOTHING].  The CHECK
    constraint is tested on the new row before any index is consulted. *)
Definition exec_insert_environment (on_conflict : bool) (now : Z)
    (i : insert_environment) (db : DB) : DB * option SqlError :=
  let '(id, seq) := serial (ie_id i) (environments_id_seq db) in
  let row := new_environment now id i in
  let rejected e := (with_environments db seq (environments db), Some e) in
  if negb (priority_ok (env_priority row))
  then rejected (check_violation "environments_priority_check")
  else if on_conflict && bool_decide (env_slug row ∈ env_slug <$> environments db)
  then (with_environments db seq (environments db), None)
  else if bool_decide (id ∈ env_id <$> environments db)
  then rejected (unique_violation "environments_pkey")
  else if bool_decide (env_name row ∈ env_name <$> environments db)
  then rejected (unique_violation "environments_name_key")
  else if bool_decide (env_slug row ∈ env_slug <$> environments db)
  then rejected (unique_violation "environments_slug_key")
  else (with_environments db seq (environments db ++ [row]), None).

Definition exec_update_environment (now id : Z) (u : update_environment) (db : DB)
  : DB * option SqlError :=
  match find (λ r, bool_decide (env_id r = id)) (environments db) with
  | None => (db, None)
  | Some old =>
      let row := set_environment now u old in
      let rest := others env_id id (environments db) in
      if negb (priority_ok (env_priority row))
      then (db, Some (check_violation "environments_priority_check"))
      else if bool_decide (env_name row ∈ env_name <$> rest)
      then (db, Some (unique_violation "environments_name_key"))
      else if bool_decide (env_slug row ∈ env_slug <$> rest)
      then (db, Some (unique_violation "environments_slug_key"))
      else (with_environments db (environments_id_seq db)
              (update_row env_id id (set_environment now u) (environments db)), None)
  end.

(** ON DELETE CASCADE, twice: the environment's templates go, and with
    them their junction rows. *)
Definition exec_delete_environment (id : Z) (db : DB) : DB * option SqlError :=
  let gone := tpl_id <$> filter (λ t, tpl_environment_id t = id) (templates db) in
  ({| tags := tags db;
      environments := others env_id id (environments db);
      templates := filter (λ t, tpl_environment_id t ≠ id) (templates db);
      template_tags := filter (λ tt, tt.1 ∉ gone) (template_tags db);
      tags_id_seq := tags_id_seq db;
      environments_id_seq := environments_id_seq db;
      templates_id_seq := templates_id_seq db |}, None).

Definition exec_insert_template (now : Z) (i : insert_template) (db : DB)
  : DB * option SqlError :=
  let '(id, seq) := serial (itp_id i) (templates_id_seq db) in
  let row := new_template now id i in
  let rejected e := (with_templates db seq (templates db), Some e) in
  if bool_decide (id ∈ tpl_id <$> templates db)
  then rejected (unique_violation "templates_pkey")
  else if bool_decide (tpl_key row ∈ tpl_key <$> templates db)
  then rejected (unique_violation "templates_name_environment_id_key")
  else if bool_decide (tpl_environment_id row ∉ env_id <$> environments db)
  then rejected (foreign_key_violation "templates_environment_id_fkey")
  else (with_templates db seq (templates db ++ [row]), None).

Definition exec_update_template (now id : Z) (u : update_template) (db : DB)
  : DB * option SqlError :=
  match find (λ r, bool_decide (tpl_id r = id)) (templates db) with
  | None => (db, None)
  | Some old =>
      let row := set_template now u old in
      if bool_decide (tpl_key row ∈ tpl_key <$> others tpl_id id (templates db))
      then (db, Some (unique_violation "templates_name_environment_id_key"))
      else if bool_decide (tpl_environment_id row ∉ env_id <$> environments db)
      then (db, Some (foreign_key_violation "templates_environment_id_fkey"))
      else (with_templates db (templates_id_seq db)
              (update_row tpl_id id (set_template now u) (templates db)), None)
  end.

Definition exec_delete_template (id : Z) (db : DB) : DB * option SqlError :=
  ({| tags := tags db;
      environments := environments db;
      templates := others tpl_id id (templates db);
      template_tags := filter (λ tt, tt.1 ≠ id) (template_tags db);
      tags_id_seq := tags_id_seq db;
      environments_id_seq := environments_id_seq db;
      templates_id_seq := templates_id_seq db |}, None).

Definition exec_insert_template_tag (template_id tag_id' : Z) (db : DB)
  : DB * option SqlError :=
  if bool_decide ((template_id, tag_id') ∈ template_tags db)
  then (db, Some (unique_violation "template_tags_pkey"))
  else if bool_decide (template_id ∉ tpl_id <$> templates db)
  then (db, Some (foreign_key_violation "template_tags_template_id_fkey"))
  else if bool_decide (tag_id' ∉ tag_id <$> tags db)
  then (db, Some (foreign_key_violation "template_tags_tag_id_fkey"))
  else (with_template_tags db (template_tags db ++ [(template_id, tag_id')]), None).

Definition exec_delete_template_tag (template_id tag_id' : Z) (db : DB)
  : DB * option SqlError :=
  (with_template_tags db
     (filter (λ tt, tt ≠ (template_id, tag_id')) (template_tags db)), None).

Definition exec (now : Z) (s : Stmt) (db : DB) : DB * option SqlError :=
  match s with
  | InsertTag i => exec_insert_tag false now i db
  | InsertTagOnConflictName i => exec_insert_tag true now i db
  | UpdateTag id u => exec_update_tag now id u db
  | DeleteTag id => exec_delete_tag id db
  | InsertEnvironment i => exec_insert_environment false now i db
  | InsertEnvironmentOnConflictSlug i => exec_insert_environment true now i db
  | UpdateEnvironment id u => exec_update_environment now id u db
  | DeleteEnvironment id => exec_delete_environment id db
  | InsertTemplate i => exec_insert_template now i db
  | UpdateTemplate id u => exec_update_template now id u db
  | DeleteTemplate id => exec_delete_template id db
  | InsertTemplateTag t g => exec_insert_template_tag t g db
  | DeleteTemplateTag t g => exec_delete_template_tag t g db
  end.

(** The stores the statements can produce, starting from the empty
    tables the migrations create. *)
Inductive reachable : DB → Prop :=
| reachable_empty : reachable empty
| reachable_exec now s db : reachable db → reachable (exec now s db).1.

(** Run a script, stopping at the first error as a migration body does. *)
Fixpoint run (now : Z) (script : list Stmt) (db : DB) : DB * option SqlError :=
  match script with
  | [] => (db, None)
  | s :: rest =>
      match exec now s db with
      | (db', None) => run now rest db'
      | failed => failed
      end
  end.

(** The tables alone, the sequences left aside. *)
Definition tables (db : DB)
  : list tag * list environment * list template * list template_tag :=
  (tags db, environments db, templates db, template_tags db).

(** The uniqueness constraints of the four tables. *)
Record unique (db : DB) : Prop := {
  unique_tag_id : NoDup (tag_id <$> tags db);
  unique_tag_name : NoDup (tag_name <$> tags db);
  unique_env_id : NoDup (env_id <$> environments db);
  unique_env_name : NoDup (env_name <$> environments db);
  unique_env_slug : NoDup (env_slug <$> environments db);
  unique_tpl_id : NoDup (tpl_id <$> templates db);
  unique_tpl_key : NoDup (tpl_key <$> templates db);
  unique_template_tags : NoDup (template_tags db)
}.

(** The store refuses the statement: an error, and every table as before. *)
Definition rejects (now : Z) (s : Stmt) (db : DB) : Prop :=
  is_Some (exec now s db).2 ∧ tables (exec now s db).1 = tables db.

(** The tags linked to a template, as the junction table lists them. *)
Definition tag_ids_of (db : DB) (template_id : Z) : list Z :=
  snd <$> filter (λ tt, tt.1 = template_id) (template_tags db).

(** *** Seed data of the migrations, one statement per VALUES row *)

Definition seed_tag (name description color : string) : Stmt :=
  InsertTagOnConflictName
    {| it_id := None; it_name := name; it_description := Some (Some description);
       it_color := Some color; it_created_at := None; it_updated_at := None |}.

Definition seed_environment (name slug description : string) (priority : Z) : Stmt :=
  InsertEnvironmentOnConflictSlug
    {| ie_id := None; ie_name := name; ie_slug := slug;
       ie_description := Some (Some description); ie_active := None;
       ie_priority := Some (Some priority);
       ie_created_at := None; ie_updated_at := None |}.

Definition seeds : list Stmt :=
  [ seed_environment "Development" "dev"
      "Development environment for testing new features" 10;
    seed_environment "Staging" "staging"
      "Staging environment for pre-production testing" 50;
    seed_environment "Production" "prod"
      "Production environment for live applications" 90;
    seed_tag "database" "Database configuration templates" "#3b82f6";
    seed_tag "api" "API service configuration templates" "#10b981";
    seed_tag "monitoring" "Monitoring and observability configs" "#f59e0b";
    seed_tag "security" "Security and authentication configs" "#ef4444" ].

End schema.

(** ** pkg/errors/errors.go *)
Module errors.

Record AppError := {
  Type_ : string;
  Message : string;
  Details : gmap string string
}.

Definition NewValidationError (fieldErrors : gmap string string) : AppError :=
  {| Type_ := "validation_error"; Message := "Validation failed";
     Details := fieldErrors |}.

Definition NewConflictError (resource : string) : AppError :=
  {| Type_ := "conflict"; Message := resource +:+ " already exists"; Details := ∅ |}.

End errors.

(** ** The request types of internal/model and their [validate] tags *)
Module request.

Local Open Scope Z_scope.

(** The rules the struct tags use. *)
Inductive Rule :=
| required
| omitempty
| min (n : Z)
| max (n : Z)
| hexcolor
| alphanum
| semver
| oneof (values : list string).

(** A field's value, by the kind of its Go type. *)
Inductive Value :=
| Str (s : string)                (* string, ConfigFormat *)
| Int (z : Z)                     (* int, int64 *)
| StrPtr (p : option string)      (* *string, *ConfigFormat *)
| IntPtr (p : option Z)           (* *int, *int64 *)
| BoolPtr (p : option bool)       (* *bool *)
| Opaque.                         (* JSONMap, []int64: carried, never inspected *)

(** One struct field: its JSON name, its [validate] tag, its value. *)
Record Field := { name : string; tag : list Rule; value : Value }.

Record CreateTagRequest := {
  ct_Name : string; ct_Description : string; ct_Color : string
}.

Record UpdateTagRequest := {
  ut_Name : option string; ut_Description : option string; ut_Color : option string
}.

Record CreateEnvironmentRequest := {
  ce_Name : string; ce_Slug : string; ce_Description : string;
  ce_Active : option bool; ce_Priority : option Z
}.

Record UpdateEnvironmentRequest := {
  ue_Name : option string; ue_Slug : option string; ue_Description : option string;
  ue_Active : option bool; ue_Priority : option Z
}.

Record CreateTemplateRequest := {
  ctp_Name : string; ctp_Description : string; ctp_Format : model.ConfigFormat;
  ctp_Content : string; ctp_Schema : model.JSONMap; ctp_DefaultValues : model.JSONMap;
  ctp_Version : string; ctp_EnvironmentID : Z;
  ctp_TagIDs : list Z; ctp_Active : option bool; ctp_CreatedBy : string
}.

Record UpdateTemplateRequest := {
  utp_Name : option string; utp_Description : option string;
  utp_Format : option model.ConfigFormat; utp_Content : option string;
  utp_Schema : model.JSONMap; utp_DefaultValues : model.JSONMap;
  utp_Version : option string; utp_EnvironmentID : option Z;
  utp_TagIDs : list Z; utp_Active : option bool; utp_UpdatedBy : string
}.

Definition formats : Rule := oneof ["json"; "yaml"; "toml"; "env"].

(** The types a write request can have, each with its tagged fields. *)
Class Tagged (R : Type) := fields : R → list Field.

#[global] Instance CreateTagRequest_tagged : Tagged CreateTagRequest := λ r,
  [ {| name := "name"; tag := [required; min 1; max 100]; value := Str (ct_Name r) |};
    {| name := "description"; tag := [max 500]; value := Str (ct_Description r) |};
    {| name := "color"; tag := [required; hexcolor]; value := Str (ct_Color r) |} ].

#[global] Instance UpdateTagRequest_tagged : Tagged UpdateTagRequest := λ r,
  [ {| name := "name"; tag := [omitempty; min 1; max 100]; value := StrPtr (ut_Name r) |};
    {| name := "description"; tag := [omitempty; max 500];
       value := StrPtr (ut_Description r) |};
    {| name := "color"; tag := [omitempty; hexcolor]; value := StrPtr (ut_Color r) |} ].

#[global] Instance CreateEnvironmentRequest_tagged : Tagged CreateEnvironmentRequest := λ r,
  [ {| name := "name"; tag := [required; min 1; max 100]; value := Str (ce_Name r) |};
    {| name := "slug"; tag := [required; min 1; max 100; alphanum];
       value := Str (ce_Slug r) |};
    {| name := "description"; tag := [max 500]; value := Str (ce_Description r) |};
    {| name := "active"; tag := []; value := BoolPtr (ce_Active r) |};
    {| name := "priority"; tag := [omitempty; min 0; max 100];
       value := IntPtr (ce_Priority r) |} ].

#[global] Instance UpdateEnvironmentRequest_tagged : Tagged UpdateEnvironmentRequest := λ r,
  [ {| name := "name"; tag := [omitempty; min 1; max 100]; value := StrPtr (ue_Name r) |};
    {| name := "slug"; tag := [omitempty; min 1; max 100; alphanum];
       value := StrPtr (ue_Slug r) |};
    {| name := "description"; tag := [omitempty; max 500];
       value := StrPtr (ue_Description r) |};
    {| name := "active"; tag := []; value := BoolPtr (ue_Active r) |};
    {| name := "priority"; tag := [omitempty; min 0; max 100];
       value := IntPtr (ue_Priority r) |} ].

#[global] Instance CreateTemplateRequest_tagged : Tagged CreateTemplateRequest := λ r,
  [ {| name := "name"; tag := [required; min 1; max 200]; value := Str (ctp_Name r) |};
    {| name := "description"; tag := [max 1000]; value := Str (ctp_Description r) |};
    {| name := "format"; tag := [required; formats]; value := Str (ctp_Format r) |};
    {| name := "content"; tag := [required]; value := Str (ctp_Content r) |};
    {| name := "schema"; tag := []; value := Opaque |};
    {| name := "default_values"; tag := []; value := Opaque |};
    {| name := "version"; tag := [required; semver]; value := Str (ctp_Version r) |};
    {| name := "environment_id"; tag := [required]; value := Int (ctp_EnvironmentID r) |};
    {| name := "tag_ids"; tag := []; value := Opaque |};
    {| name := "active"; tag := []; value := BoolPtr (ctp_Active r) |};
    {| name := "created_by"; tag := [required]; value := Str (ctp_CreatedBy r) |} ].

#[global] Instance UpdateTemplateRequest_tagged : Tagged UpdateTemplateRequest := λ r,
  [ {| name := "name"; tag := [omitempty; min 1; max 200]; value := StrPtr (utp_Name r) |};
    {| name := "description"; tag := [omitempty; max 1000];
       value := StrPtr (utp_Description r) |};
    {| name := "format"; tag := [omitempty; formats]; value := StrPtr (utp_Format r) |};
    {| name := "content"; tag := [omitempty; min 1]; value := StrPtr (utp_Content r) |};
    {| name := "schema"; tag := []; value := Opaque |};
    {| name := "default_values"; tag := []; value := Opaque |};
    {| name := "version"; tag := [omitempty; semver]; value := StrPtr (utp_Version r) |};
    {| name := "environment_id"; tag := []; value := IntPtr (utp_EnvironmentID r) |};
    {| name := "tag_ids"; tag := []; value := Opaque |};
    {| name := "active"; tag := []; value := BoolPtr (utp_Active r) |};
    {| name := "updated_by"; tag := [required]; value := Str (utp_UpdatedBy r) |} ].

(** Any of the six write requests. *)
Inductive WriteRequest :=
| CreateTag (r : CreateTagRequest)
| UpdateTag (r : UpdateTagRequest)
| CreateEnvironment (r : CreateEnvironmentRequest)
| UpdateEnvironment (r : UpdateEnvironmentRequest)
| CreateTemplate (r : CreateTemplateRequest)
| UpdateTemplate (r : UpdateTemplateRequest).

#[global] Instance WriteRequest_tagged : Tagged WriteRequest := λ w,
  match w with
  | CreateTag r => fields r
  | UpdateTag r => fields r
  | CreateEnvironment r => fields r
  | UpdateEnvironment r => fields r
  | CreateTemplate r => fields r
  | UpdateTemplate r => fields r
  end.

End request.

(** ** The validation step of section 4.1

    The repository has the tags but nothing that reads them.  What a rule
    demands is taken from section 4.1 (length bounds, required-ness,
    enumerated-value membership, semantic-version, hex-color and
    alphanumeric syntax), each read the way the validator package the tags
    are written for reads it. *)
Module validation.

Import request.
Local Open Scope Z_scope.

Definition code (c : ascii) : Z := Z.of_N (Ascii.N_of_ascii c).

Definition is_digit (c : ascii) : bool :=
  bool_decide (48 ≤ code c) && bool_decide (code c ≤ 57).
Definition is_alpha (c : ascii) : bool :=
  (bool_decide (65 ≤ code c) && bool_decide (code c ≤ 90))
  || (bool_decide (97 ≤ code c) && bool_decide (code c ≤ 122)).
Definition is_hex (c : ascii) : bool :=
  is_digit c
  || (bool_decide (65 ≤ code c) && bool_decide (code c ≤ 70))
  || (bool_decide (97 ≤ code c) && bool_decide (code c ≤ 102)).
Definition is_alnum (c : ascii) : bool := is_digit c || is_alpha c.
Definition is_hyphen (c : ascii) : bool := bool_decide (code c = 45).

Definition chars (s : string) : list ascii := String.list_ascii_of_string s.

(** Characters of a UTF-8 string: the bytes that do not continue one. *)
Definition rune_count (s : string) : Z :=
  Z.of_nat (length (filter (λ c, ¬ (128 ≤ code c ∧ code c ≤ 191)) (chars s))).

(** [^#([0-9a-fA-F]{3}|[0-9a-fA-F]{4}|[0-9a-fA-F]{6}|[0-9a-fA-F]{8})$] *)
Definition is_hexcolor (s : string) : bool :=
  match chars s with
  | "#"%char :: digits =>
      forallb is_hex digits
      && bool_decide (length digits ∈ [3; 4; 6; 8]%nat)
  | _ => false
  end.

(** [^[a-zA-Z0-9]+$] *)
Definition is_alphanum (s : string) : bool :=
  match chars s with
  | [] => false
  | cs => forallb is_alnum cs
  end.

(** Split at every [sep]. *)
Fixpoint split_on (sep : ascii) (cs : list ascii) : list (list ascii) :=
  match cs with
  | [] => [[]]
  | c :: rest =>
      match split_on sep rest with
      | piece :: pieces =>
          if bool_decide (c = sep) then [] :: piece :: pieces else (c :: piece) :: pieces
      | [] => [[c]]
      end
  end.

(** Split at the first [sep], if there is one. *)
Fixpoint split_first (sep : ascii) (cs : list ascii) : list ascii * option (list ascii) :=
  match cs with
  | [] => ([], None)
  | c :: rest =>
      if bool_decide (c = sep) then ([], Some rest)
      else let '(before, after) := split_first sep rest in (c :: before, after)
  end.

(** [0|[1-9]\d*] *)
Definition is_numeric_id (cs : list ascii) : bool :=
  match cs with
  | [] => false
  | ["0"%char] => true
  | "0"%char :: _ => false
  | _ => forallb is_digit cs
  end.

(** [0|[1-9]\d*|\d*[a-zA-Z-][0-9a-zA-Z-]*] *)
Definition is_prerelease_id (cs : list ascii) : bool :=
  match cs with
  | [] => false
  | _ =>
      forallb (λ c, is_alnum c || is_hyphen c) cs
      && (is_numeric_id cs || negb (forallb is_digit cs))
  end.

(** [[0-9a-zA-Z-]+] *)
Definition is_build_id (cs : list ascii) : bool :=
  match cs with
  | [] => false
  | _ => forallb (λ c, is_alnum c || is_hyphen c) cs
  end.

(** Semantic Versioning 2.0.0: core, then [-prerelease], then [+build]. *)
Definition is_semver (s : string) : bool :=
  let '(rest, build) := split_first "+" (chars s) in
  let '(core, pre) := split_first "-" rest in
  (match split_on "." core with
   | [major; minor; patch] =>
       is_numeric_id major && is_numeric_id minor && is_numeric_id patch
   | _ => false
   end)
  && (match pre with
      | Some p => forallb is_prerelease_id (split_on "." p)
      | None => true
      end)
  && (match build with
      | Some b => forallb is_build_id (split_on "." b)
      | None => true
      end).

(** Whether a value is set: what [required] demands and [omitempty] tests. *)
Definition has_value (v : Value) : bool :=
  match v with
  | Str s => negb (bool_decide (s = ""))
  | Int z => negb (bool_decide (z = 0))
  | StrPtr p => bool_decide (is_Some p)
  | IntPtr p => bool_decide (is_Some p)
  | BoolPtr p => bool_decide (is_Some p)
  | Opaque => true
  end.

(** The string or number a rule looks at, through a pointer if need be. *)
Definition as_string (v : Value) : option string :=
  match v with
  | Str s => Some s
  | StrPtr p => p
  | _ => None
  end.

Definition as_int (v : Value) : option Z :=
  match v with
  | Int z => Some z
  | IntPtr p => p
  | _ => None
  end.

(** Modelled from the spec: whether a value meets one rule of a tag (the
    repository has no code that evaluates the tags). *)
Definition holds (r : Rule) (v : Value) : bool :=
  match r with
  | required => has_value v
  | omitempty => true
  | min n =>
      match as_string v, as_int v with
      | Some s, _ => bool_decide (n ≤ rune_count s)
      | _, Some z => bool_decide (n ≤ z)
      | _, _ => false
      end
  | max n =>
      match as_string v, as_int v with
      | Some s, _ => bool_decide (rune_count s ≤ n)
      | _, Some z => bool_decide (z ≤ n)
      | _, _ => false
      end
  | hexcolor => from_option is_hexcolor false (as_string v)
  | alphanum => from_option is_alphanum false (as_string v)
  | semver => from_option is_semver false (as_string v)
  | oneof values => from_option (λ s, bool_decide (s ∈ values)) false (as_string v)
  end.

Definition reason (r : Rule) : string :=
  match r with
  | required => "is required"
  | omitempty => "may be omitted"
  | min _ => "is below the minimum"
  | max _ => "is above the maximum"
  | hexcolor => "must be a hex color"
  | alphanum => "must be alphanumeric"
  | semver => "must be a semantic version"
  | oneof _ => "must be one of the allowed values"
  end.

(** Modelled from the spec: the check of one field, missing from the
    repository.  It gives the first rule of the tag the value breaks, read
    left to right; [omitempty] ends the reading when the value is not set. *)
Fixpoint check (rules : list Rule) (v : Value) : option Rule :=
  match rules with
  | [] => None
  | omitempty :: rest => if has_value v then check rest v else None
  | r :: rest => if holds r v then check rest v else Some r
  end.

(** A field violates its constraints when some rule of its tag is broken. *)
Definition violated (f : Field) : Prop := is_Some (check (tag f) (value f)).

(** Modelled from the spec: the validation step itself.  The repository
    declares the constraints (the struct tags above) and the error that
    carries the result ([NewValidationError]) but has no code that runs the
    one to build the other.  Section 4.1: "On any violation, fail with a
    ValidationError carrying a mapping from field name to human-readable
    reason -- multiple violations should be collected and reported together,
    not just the first." *)
Definition collect (l : list Field) : gmap string string :=
  foldr (λ f acc, match check (tag f) (value f) with
                  | Some rule => <[name f := reason rule]> acc
                  | None => acc
                  end) ∅ l.

(** Modelled from the spec: the validation of a whole request, missing
    from the repository: the violations of all its fields. *)
Definition Struct `{Tagged R} (r : R) : gmap string string := collect (fields r).

Inductive Outcome (S : Type) :=
| Rejected (e : errors.AppError)
| Persisted (s : S).
Arguments Rejected {S} e.
Arguments Persisted {S} s.

(** Modelled from the spec: a create or update operation.  Section 4.1:
    "validate field constraints ... before any persistence operation is
    attempted".  [persist] is the storage step; [calls] counts how often it
    ran. *)
Definition handle `{Tagged R} {S : Type} (persist : R → S → S) (r : R) (store : S)
  : Outcome S * nat :=
  let fieldErrors := Struct r in
  if bool_decide (fieldErrors = ∅)
  then (Persisted (persist r store), 1%nat)
  else (Rejected (errors.NewValidationError fieldErrors), 0%nat).

End validation.

(** ** unicode/utf8 *)
Module utf8.

Local Open Scope N_scope.

Definition between (lo hi b : N) : bool := (lo <=? b) && (b <=? hi).

(** A continuation byte, [10xxxxxx]. *)
Definition cont (b : N) : bool := between 128 191 b.

(** [utf8.Valid] on the bytes of a string: every byte starts or continues
    a shortest-form encoding of a code point that is no surrogate and at
    most U+10FFFF. *)
Fixpoint valid (s : list N) : bool :=
  match s with
  | [] => true
  | b :: rest =>
      if b <? 128 then valid rest
      else if between 194 223 b then
        match rest with
        | c1 :: rest => cont c1 && valid rest
        | _ => false
        end
      else if between 224 239 b then
        match rest with
        | c1 :: c2 :: rest =>
            (if b =? 224 then between 160 191 c1
             else if b =? 237 then between 128 159 c1
             else cont c1)
            && cont c2 && valid rest
        | _ => false
        end
      else if between 240 244 b then
        match rest with
        | c1 :: c2 :: c3 :: rest =>
            (if b =? 240 then between 144 191 c1
             else if b =? 244 then between 128 143 c1
             else cont c1)
            && cont c2 && cont c3 && valid rest
        | _ => false
        end
      else false
  end.

Definition ValidString (s : string) : bool :=
  valid (N_of_ascii <$> String.list_ascii_of_string s).

End utf8.

(** ** prometheus/client_golang, as far as the collectors are driven

    A vector maps the values of its labels to a child.  [WithLabelValues]
    panics when it is given another number of values than the vector has
    labels, or a value that is not valid UTF-8; otherwise it hands out the
    child of these values, made at zero when it is asked for first.  A
    counter and a gauge are carried as the integer they hold, a histogram
    as the observations it took, oldest first. *)
Module prometheus.

(** What [Observe] was given: a [time.Duration]'s [Seconds()], or an [int]
    converted to float64. *)
Inductive Sample :=
| Seconds (nanoseconds : Z)
| Count (n : Z).

Record Vec (child : Type) := {
  labelNames : list string;
  children : gmap (list string) child
}.
Arguments labelNames {child}.
Arguments children {child}.

Definition NewVec {child} (names : list string) : Vec child :=
  {| labelNames := names; children := ∅ |}.

(** The errors of [validateLabelValues]. *)
Inductive Error :=
| InconsistentCardinality (expected got : nat)
| InvalidUTF8 (value : string).

Definition validateLabelValues {child} (v : Vec child) (lvs : list string) : option Error :=
  if negb (bool_decide (length lvs = length (labelNames v))) then
    Some (InconsistentCardinality (length (labelNames v)) (length lvs))
  else
    match find (λ val, negb (utf8.ValidString val)) lvs with
    | Some val => Some (InvalidUTF8 val)
    | None => None
    end.

(** [v.WithLabelValues(lvs...)] followed by a method [f] of the child; the
    child starts from [zero].  The error is the value of the panic, which
    leaves the vector as it was. *)
Definition WithLabelValues {child} (zero : child) (f : child → child)
    (lvs : list string) (v : Vec child) : Vec child * option Error :=
  match validateLabelValues v lvs with
  | Some e => (v, Some e)
  | None =>
      ({| labelNames := labelNames v;
          children := <[lvs := f (default zero (children v !! lvs))]> (children v) |},
       None)
  end.

Definition CounterVec := Vec Z.
Definition GaugeVec := Vec Z.
Definition HistogramVec := Vec (list Sample).

Definition Inc := WithLabelValues 0%Z Z.succ.
(** [Gauge.Set] *)
Definition Set_ (x : Z) := WithLabelValues 0%Z (λ _, x).
Definition Observe (x : Sample) := WithLabelValues [] (λ obs, obs ++ [x]).

(** What a scrape reads for these label values. *)
Definition value (lvs : list string) (v : Vec Z) : Z := default 0%Z (children v !! lvs).
Definition samples (lvs : list string) (v : HistogramVec) : list Sample :=
  default [] (children v !! lvs).

End prometheus.

(** ** gin, as far as the middleware drives it

    The context of one request: the request, the route it matched, the
    response writer's header, status and size, the keys handlers leave for
    one another, and the index of the handler that is running. *)
Module gin.

Record Request := {
  Method : string;
  Path : string;                    (* URL.Path *)
  RawQuery : string;                (* URL.RawQuery *)
  HeaderGet : string → string;      (* Header.Get: empty for a header not sent *)
  RemoteIP : string                 (* what [c.ClientIP()] makes of the request *)
}.

Definition UserAgent (r : Request) : string := HeaderGet r "User-Agent".

Record Context := {
  request : Request;
  fullPath : string;                (* the pattern of the matched route, or empty *)
  index : Z;
  Keys : gmap string string;
  header : gmap string string;      (* c.Writer.Header() *)
  status : Z;                       (* c.Writer.Status() *)
  size : Z                          (* c.Writer.Size() *)
}.

Definition noWritten : Z := -1.
Definition defaultStatus : Z := 200.
Definition abortIndex : Z := 63.

Definition Written (c : Context) : bool := negb (bool_decide (size c = noWritten)).

(** [responseWriter.WriteHeader]: a status can be set until the header is
    written. *)
Definition WriteHeader (code : Z) (c : Context) : Context :=
  if bool_decide (0 < code)%Z && negb (bool_decide (status c = code)) then
    if Written c then c
    else {| request := request c; fullPath := fullPath c; index := index c;
            Keys := Keys c; header := header c; status := code; size := size c |}
  else c.

Definition WriteHeaderNow (c : Context) : Context :=
  if Written c then c
  else {| request := request c; fullPath := fullPath c; index := index c;
          Keys := Keys c; header := header c; status := status c; size := 0 |}.

Definition Abort (c : Context) : Context :=
  {| request := request c; fullPath := fullPath c; index := abortIndex;
     Keys := Keys c; header := header c; status := status c; size := size c |}.

Definition IsAborted (c : Context) : bool := bool_decide (abortIndex ≤ index c)%Z.

Definition AbortWithStatus (code : Z) (c : Context) : Context :=
  Abort (WriteHeaderNow (WriteHeader code c)).

(** [c.Header(key, value)]: an empty value removes the header. *)
Definition Header (key value : string) (c : Context) : Context :=
  {| request := request c; fullPath := fullPath c; index := index c; Keys := Keys c;
     header := if bool_decide (value = "") then delete key (header c)
               else <[key := value]> (header c);
     status := status c; size := size c |}.

Definition GetHeader (key : string) (c : Context) : string := HeaderGet (request c) key.

(** [c.Set(key, value)] *)
Definition Set_ (key value : string) (c : Context) : Context :=
  {| request := request c; fullPath := fullPath c; index := index c;
     Keys := <[key := value]> (Keys c); header := header c;
     status := status c; size := size c |}.

Definition Get (key : string) (c : Context) : option string := Keys c !! key.

(** [c.JSON(code, obj)] for an [obj] that encodes to [n] bytes: the status,
    the content type unless one is set, and the body where the status
    allows one. *)
Definition JSON (code n : Z) (c : Context) : Context :=
  let c := WriteHeader code c in
  let c := {| request := request c; fullPath := fullPath c; index := index c;
              Keys := Keys c;
              header := match header c !! "Content-Type" with
                        | Some _ => header c
                        | None => <["Content-Type" := "application/json; charset=utf-8"]>
                                    (header c)
                        end;
              status := status c; size := size c |} in
  let c := WriteHeaderNow c in
  let bodyAllowed :=
    negb (bool_decide (100 ≤ code ≤ 199)%Z || bool_decide (code = 204%Z)
          || bool_decide (code = 304%Z)) in
  if bodyAllowed
  then {| request := request c; fullPath := fullPath c; index := index c;
          Keys := Keys c; header := header c; status := status c;
          size := size c + n |}
  else c.

Definition step (c : Context) : Context :=
  {| request := request c; fullPath := fullPath c; index := index c + 1;
     Keys := Keys c; header := header c; status := status c; size := size c |}.

(** The value of a panic: the error of a collector, or another value. *)
Inductive Panic :=
| Collector (e : prometheus.Error)
| Value (v : string).

(** A request in flight: the context, the objects the handlers' closures
    hold (the collector [M], the logger with the events handed to it so
    far), and the value of a panic that is unwinding the stack. *)
Record Flight (M E : Type) := {
  c : Context;
  m : M;
  events : list E;
  panicking : option Panic
}.
Arguments c {M E}.
Arguments m {M E}.
Arguments events {M E}.
Arguments panicking {M E}.

Section chain.
Context {M E : Type}.

(** A handler; its first argument is [c.Next]. *)
Definition HandlerFunc := (Flight M E → Flight M E) → Flight M E → Flight M E.

Definition on_context (f : Context → Context) (w : Flight M E) : Flight M E :=
  {| c := f (c w); m := m w; events := events w; panicking := panicking w |}.

(** The loop of [c.Next], [for c.index < len(c.handlers)]: [handlers] are
    the handlers from [c.index] on and [n] is the length of the whole
    chain.  A panic leaves the loop. *)
Fixpoint loop (n : Z) (handlers : list HandlerFunc) (w : Flight M E) : Flight M E :=
  match handlers with
  | [] => w
  | h :: rest =>
      if bool_decide (index (c w) < n)%Z then
        let w := h (λ w, loop n rest (on_context step w)) w in
        match panicking w with
        | Some _ => w
        | None => loop n rest (on_context step w)
        end
      else w
  end.

(** [c.Next()] as the engine calls it on a context it has just reset. *)
Definition Next (handlers : list HandlerFunc) (w : Flight M E) : Flight M E :=
  loop (Z.of_nat (length handlers)) handlers (on_context step w).

End chain.

End gin.

(** ** pkg/metrics/metrics.go *)
Module metrics.

Record Metrics := {
  requestsTotal : prometheus.CounterVec;
  requestDuration : prometheus.HistogramVec;
  responseSize : prometheus.HistogramVec;
  activeConnections : Z;
  dbConnections : prometheus.GaugeVec
}.

Definition New : Metrics :=
  {| requestsTotal := prometheus.NewVec ["method"; "endpoint"; "status_code"];
     requestDuration := prometheus.NewVec ["method"; "endpoint"; "status_code"];
     responseSize := prometheus.NewVec ["method"; "endpoint"];
     activeConnections := 0;
     dbConnections := prometheus.NewVec ["state"] |}.

Definition with_activeConnections (x : Z) (m : Metrics) : Metrics :=
  {| requestsTotal := requestsTotal m; requestDuration := requestDuration m;
     responseSize := responseSize m; activeConnections := x;
     dbConnections := dbConnections m |}.

(** The three recordings at the end of [Middleware], in their order; the
    first that panics ends them. *)
Definition record (method endpoint statusCode : string) (duration size : Z) (m : Metrics)
  : Metrics * option prometheus.Error :=
  let '(total, e) := prometheus.Inc [method; endpoint; statusCode] (requestsTotal m) in
  let m := {| requestsTotal := total; requestDuration := requestDuration m;
              responseSize := responseSize m; activeConnections := activeConnections m;
              dbConnections := dbConnections m |} in
  match e with
  | Some e => (m, Some e)
  | None =>
      let '(durations, e) :=
        prometheus.Observe (prometheus.Seconds duration)
          [method; endpoint; statusCode] (requestDuration m) in
      let m := {| requestsTotal := requestsTotal m; requestDuration := durations;
                  responseSize := responseSize m;
                  activeConnections := activeConnections m;
                  dbConnections := dbConnections m |} in
      match e with
      | Some e => (m, Some e)
      | None =>
          let '(sizes, e) :=
            prometheus.Observe (prometheus.Count size) [method; endpoint] (responseSize m) in
          ({| requestsTotal := requestsTotal m; requestDuration := requestDuration m;
              responseSize := sizes; activeConnections := activeConnections m;
              dbConnections := dbConnections m |}, e)
      end
  end.

(** [func (m *Metrics) Middleware() gin.HandlerFunc]; [duration] is what
    [time.Since(start)] reads once the later handlers are done.  The
    deferred [Dec] runs whether or not a panic is unwinding. *)
Definition Middleware {E} (duration : Z) : @gin.HandlerFunc Metrics E :=
  λ next w,
    let w := {| gin.c := gin.c w;
                gin.m := with_activeConnections (activeConnections (gin.m w) + 1) (gin.m w);
                gin.events := gin.events w; gin.panicking := gin.panicking w |} in
    let w := next w in
    let deferred (w : gin.Flight Metrics E) :=
      {| gin.c := gin.c w;
         gin.m := with_activeConnections (activeConnections (gin.m w) - 1) (gin.m w);
         gin.events := gin.events w; gin.panicking := gin.panicking w |} in
    match gin.panicking w with
    | Some _ => deferred w
    | None =>
        let statusCode := pretty (gin.status (gin.c w)) in
        let method := gin.Method (gin.request (gin.c w)) in
        let endpoint := gin.fullPath (gin.c w) in
        let endpoint :=
          if bool_decide (endpoint = "") then gin.Path (gin.request (gin.c w))
          else endpoint in
        let '(m', e) :=
          record method endpoint statusCode duration (gin.size (gin.c w)) (gin.m w) in
        deferred {| gin.c := gin.c w; gin.m := m'; gin.events := gin.events w;
                    gin.panicking := gin.Collector <$> e |}
    end.

(** The collectors have the label names [New] gave them. *)
Definition labelled (m : Metrics) : Prop :=
  prometheus.labelNames (requestsTotal m) = ["method"; "endpoint"; "status_code"]
  ∧ prometheus.labelNames (requestDuration m) = ["method"; "endpoint"; "status_code"]
  ∧ prometheus.labelNames (responseSize m) = ["method"; "endpoint"]
  ∧ prometheus.labelNames (dbConnections m) = ["state"].

(** [func (m *Metrics) UpdateDBConnections(open, idle, inUse int)] *)
Definition UpdateDBConnections (open idle inUse : Z) (m : Metrics)
  : Metrics * option prometheus.Error :=
  let with_dbConnections g :=
    {| requestsTotal := requestsTotal m; requestDuration := requestDuration m;
       responseSize := responseSize m; activeConnections := activeConnections m;
       dbConnections := g |} in
  let '(g, e) := prometheus.Set_ open ["open"] (dbConnections m) in
  match e with
  | Some e => (with_dbConnections g, Some e)
  | None =>
      let '(g, e) := prometheus.Set_ idle ["idle"] g in
      match e with
      | Some e => (with_dbConnections g, Some e)
      | None =>
          let '(g, e) := prometheus.Set_ inUse ["in_use"] g in
          (with_dbConnections g, e)
      end
  end.

(** The package's own collectors. *)
Record Package := {
  ConfigTemplatesTotal : prometheus.GaugeVec;
  ConfigTemplateOperations : prometheus.CounterVec;
  ConfigTemplateSize : prometheus.HistogramVec
}.

Definition init : Package :=
  {| ConfigTemplatesTotal := prometheus.NewVec ["environment"; "format"; "active"];
     ConfigTemplateOperations := prometheus.NewVec ["operation"; "environment"; "status"];
     ConfigTemplateSize := prometheus.NewVec ["environment"; "format"] |}.

Definition RecordTemplateOperation (operation environment status : string) (p : Package)
  : Package * option prometheus.Error :=
  let '(v, e) :=
    prometheus.Inc [operation; environment; status] (ConfigTemplateOperations p) in
  ({| ConfigTemplatesTotal := ConfigTemplatesTotal p;
      ConfigTemplateOperations := v;
      ConfigTemplateSize := ConfigTemplateSize p |}, e).

Definition RecordTemplateSize (environment format : string) (size : Z) (p : Package)
  : Package * option prometheus.Error :=
  let '(v, e) :=
    prometheus.Observe (prometheus.Count size) [environment; format]
      (ConfigTemplateSize p) in
  ({| ConfigTemplatesTotal := ConfigTemplatesTotal p;
      ConfigTemplateOperations := ConfigTemplateOperations p;
      ConfigTemplateSize := v |}, e).

Definition UpdateTemplateCount (environment format : string) (active : bool) (count : Z)
    (p : Package) : Package * option prometheus.Error :=
  let activeStr := "false" in
  let activeStr := if active then "true" else activeStr in
  let '(v, e) :=
    prometheus.Set_ count [environment; format; activeStr] (ConfigTemplatesTotal p) in
  ({| ConfigTemplatesTotal := v;
      ConfigTemplateOperations := ConfigTemplateOperations p;
      ConfigTemplateSize := ConfigTemplateSize p |}, e).

End metrics.

(** ** cmd/server/main.go: the middleware *)
Module server.

(** The fields of the "HTTP request" event. *)
Record AccessLog := {
  request_id : option string;      (* nil when no handler set the key *)
  log_status : Z;
  latency : string;
  client_ip : string;
  method : string;
  path : string;
  user_agent : string;
  body_size : Z
}.

Definition Flight := gin.Flight metrics.Metrics AccessLog.
Definition HandlerFunc := @gin.HandlerFunc metrics.Metrics AccessLog.

Definition corsMiddleware : HandlerFunc :=
  λ next w,
    let w := gin.on_context (gin.Header "Access-Control-Allow-Origin" "*") w in
    let w := gin.on_context (gin.Header "Access-Control-Allow-Credentials" "true") w in
    let w := gin.on_context
               (gin.Header "Access-Control-Allow-Headers"
                  "Content-Type, Content-Length, Accept-Encoding, X-CSRF-Token, Authorization, accept, origin, Cache-Control, X-Requested-With") w in
    let w := gin.on_context
               (gin.Header "Access-Control-Allow-Methods"
                  "POST, OPTIONS, GET, PUT, DELETE, PATCH") w in
    if bool_decide (gin.Method (gin.request (gin.c w)) = "OPTIONS")
    then gin.on_context (gin.AbortWithStatus 204) w
    else next w.

(** [fmt.Sprintf("%d", time.Now().UnixNano())] *)
Definition generateRequestID (unixNano : Z) : string := pretty unixNano.

(** [unixNano] is the clock reading [generateRequestID] would take. *)
Definition requestIDMiddleware (unixNano : Z) : HandlerFunc :=
  λ next w,
    let requestID := gin.GetHeader "X-Request-ID" (gin.c w) in
    let requestID :=
      if bool_decide (requestID = "") then generateRequestID unixNano else requestID in
    let w := gin.on_context (gin.Header "X-Request-ID" requestID) w in
    let w := gin.on_context (gin.Set_ "request_id" requestID) w in
    next w.

(** [elapsed] is [time.Since(start).String()] once the later handlers are
    done.  Nothing is logged when they panic. *)
Definition loggingMiddleware (elapsed : string) : HandlerFunc :=
  λ next w,
    let path := gin.Path (gin.request (gin.c w)) in
    let raw := gin.RawQuery (gin.request (gin.c w)) in
    let requestID := gin.Get "request_id" (gin.c w) in
    let w := next w in
    match gin.panicking w with
    | Some _ => w
    | None =>
        let statusCode := gin.status (gin.c w) in
        let clientIP := gin.RemoteIP (gin.request (gin.c w)) in
        let method := gin.Method (gin.request (gin.c w)) in
        let userAgent := gin.UserAgent (gin.request (gin.c w)) in
        let path := if negb (bool_decide (raw = "")) then path +:+ "?" +:+ raw else path in
        {| gin.c := gin.c w; gin.m := gin.m w;
           gin.events :=
             gin.events w
               ++ [ {| request_id := requestID; log_status := statusCode;
                       latency := elapsed; client_ip := clientIP; method := method;
                       path := path; user_agent := userAgent;
                       body_size := gin.size (gin.c w) |} ];
           gin.panicking := None |}
    end.

(** A route's handler: it does not call [c.Next]. *)
Definition route (h : Flight → Flight) : HandlerFunc := λ _ w, h w.

(** The chain of a request, below [gin.Recovery]: the middleware [main]
    registers, in its order, and then the handler of the route the request
    matched; a request that matches no route has the middleware alone. *)
Definition handlers (duration unixNano : Z) (elapsed : string)
    (h : option (Flight → Flight)) : list HandlerFunc :=
  [ metrics.Middleware duration; corsMiddleware; requestIDMiddleware unixNano;
    loggingMiddleware elapsed ]
  ++ match h with Some h => [route h] | None => [] end.

Definition serve (duration unixNano : Z) (elapsed : string)
    (h : option (Flight → Flight)) (w : Flight) : Flight :=
  gin.Next (handlers duration unixNano elapsed h) w.

End server.

(** ** A request's way through the chain, stage by stage *)
Module stages.

Section request.
Context (duration unixNano : Z) (elapsed : string).
Context (r : gin.Request) (matched : string) (status0 : Z).
Context (m0 : metrics.Metrics) (ev0 : list server.AccessLog).

(** The request as the engine hands it to the chain: the context reset,
    the pattern of the matched route in it, and in the writer the status
    [status0] the engine starts the chain with (200, or the 404 it sets
    before the chain of a request that matched no route). *)
Definition start : server.Flight :=
  {| gin.c :=
       {| gin.request := r; gin.fullPath := matched; gin.index := -1;
          gin.Keys := ∅; gin.header := ∅;
          gin.status := status0; gin.size := gin.noWritten |};
     gin.m := m0; gin.events := ev0; gin.panicking := None |}.

(** The id [requestIDMiddleware] settles on. *)
Definition requestID : string :=
  if bool_decide (gin.HeaderGet r "X-Request-ID" = "")
  then server.generateRequestID unixNano else gin.HeaderGet r "X-Request-ID".

(** The flight as [loggingMiddleware] passes it on, to the route's handler
    if there is one, when the request is no preflight. *)
Definition arrival : server.Flight :=
  {| gin.c :=
       {| gin.request := r; gin.fullPath := matched; gin.index := 4;
          gin.Keys := {["request_id" := requestID]};
          gin.header :=
            <["X-Request-ID" := requestID]>
              (<["Access-Control-Allow-Methods" :=
                   "POST, OPTIONS, GET, PUT, DELETE, PATCH"]>
                 (<["Access-Control-Allow-Headers" :=
                      "Content-Type, Content-Length, Accept-Encoding, X-CSRF-Token, Authorization, accept, origin, Cache-Control, X-Requested-With"]>
                    (<["Access-Control-Allow-Credentials" := "true"]>
                       (<["Access-Control-Allow-Origin" := "*"]> ∅))));
          gin.status := status0; gin.size := gin.noWritten |};
     gin.m := metrics.with_activeConnections (metrics.activeConnections m0 + 1) m0;
     gin.events := ev0; gin.panicking := None |}.

(** What the route's handler makes of it; without a handler, nothing. *)
Definition answer (h : option (server.Flight → server.Flight)) : server.Flight :=
  match h with
  | Some h => h arrival
  | None => arrival
  end.

(** The event [loggingMiddleware] hands to the logger for a flight the
    later handlers returned. *)
Definition event (w : server.Flight) : server.AccessLog :=
  {| server.request_id := Some requestID;
     server.log_status := gin.status (gin.c w);
     server.latency := elapsed;
     server.client_ip := gin.RemoteIP (gin.request (gin.c w));
     server.method := gin.Method (gin.request (gin.c w));
     server.path :=
       if negb (bool_decide (gin.RawQuery r = ""))
       then gin.Path r +:+ "?" +:+ gin.RawQuery r else gin.Path r;
     server.user_agent := gin.UserAgent (gin.request (gin.c w));
     server.body_size := gin.size (gin.c w) |}.

(** The label values [metrics.Middleware] records a returned flight under. *)
Definition endpoint (w : server.Flight) : string :=
  if bool_decide (gin.fullPath (gin.c w) = "") then gin.Path (gin.request (gin.c w))
  else gin.fullPath (gin.c w).

Definition labels (w : server.Flight) : list string :=
  [gin.Method (gin.request (gin.c w)); endpoint w; pretty (gin.status (gin.c w))].

End request.

End stages.

(** ** Reading a [JSONMap] *)
Module jsonmap.

(** [v, ok := j[k]]: the value stored under [k]; a nil map has none. *)
Definition get (k : json.bytes) (j : model.JSONMap) : option json.value :=
  kv ← find (λ kv : json.bytes * json.value, bool_decide (kv.1 = k)) (model.entries j);
  Some kv.2.

(** The value a JSON object text gives a name: that of its last member of
    that name, as the decoder stores the members in the order it reads
    them. *)
Definition member (k : json.bytes) (members : list (json.bytes * json.value))
  : option json.value :=
  get k (Some (reverse members)).

End jsonmap.

(** ** The seed statements, [INSERT ... ON CONFLICT (column) DO NOTHING] *)
Module seeding.

(** The statement is such an insert, and its row passes the CHECK. *)
Definition guarded (s : schema.Stmt) : Prop :=
  match s with
  | schema.InsertTagOnConflictName _ => True
  | schema.InsertEnvironmentOnConflictSlug i =>
      schema.priority_ok (default (Some 50%Z) (schema.ie_priority i)) = true
  | _ => False
  end.

(** A row with the statement's value in its conflict column is there. *)
Definition present (s : schema.Stmt) (db : schema.DB) : Prop :=
  match s with
  | schema.InsertTagOnConflictName i =>
      schema.it_name i ∈ schema.tag_name <$> schema.tags db
  | schema.InsertEnvironmentOnConflictSlug i =>
      schema.ie_slug i ∈ schema.env_slug <$> schema.environments db
  | _ => False
  end.

End seeding.

(** ** Statements of a client session *)
Module session.

(** Statements sent one after another, each in a transaction of its own
    with its own [NOW()]; one that fails does not stop the next. *)
Definition run_all (script : list (Z * schema.Stmt)) (db : schema.DB) : schema.DB :=
  foldl (λ db ns, (schema.exec ns.1 ns.2 db).1) db script.

(** The statement leaves the id of the row it inserts, if it inserts one,
    to the column's sequence. *)
Definition default_id (s : schema.Stmt) : Prop :=
  match s with
  | schema.InsertTag i | schema.InsertTagOnConflictName i => schema.it_id i = None
  | schema.InsertEnvironment i | schema.InsertEnvironmentOnConflictSlug i =>
      schema.ie_id i = None
  | schema.InsertTemplate i => schema.itp_id i = None
  | _ => True
  end.

End session.

(** ** What a run of the migrations has left to do *)
Module plan.

(** The versions of the source above the store's, oldest first. *)
Definition pending (src : migrate.Source) (db : migrate.Database) : list nat :=
  filter (λ w, (migrate.version db < Z.of_nat w)%Z) (migrate.index src).

End plan.

(** ** Sample data used by the worked examples *)
Module sample.

Definition ok : migrate.Script := {| migrate.script_ok := true |}.

(** The two schema versions of the repository: tags, then environments
    and templates. *)
Definition source : migrate.Source :=
  [ {| migrate.ver := 1; migrate.up := Some ok; migrate.down := Some ok |};
    {| migrate.ver := 2; migrate.up := Some ok; migrate.down := Some ok |} ].

(** The store once the seed rows are in, at server time 1000. *)
Definition seeded : schema.DB := (schema.run 1000 schema.seeds schema.empty).1.

(** A template in the Development environment, tagged [database] and [api]. *)
Definition db_config : schema.insert_template :=
  {| schema.itp_id := None; schema.itp_name := "db-config";
     schema.itp_description := None; schema.itp_format := Some schema.yaml;
     schema.itp_content := "a: 1"; schema.itp_schema := None;
     schema.itp_default_values := None; schema.itp_version := "1.0.0";
     schema.itp_environment_id := 1; schema.itp_active := None;
     schema.itp_created_at := None; schema.itp_updated_at := None;
     schema.itp_created_by := "ops"; schema.itp_updated_by := "ops" |}.

(** A schema document: [{"port": 5432, "tags": ["a<b", null, {}]}]. *)
Definition schema_document : model.JSONMap :=
  Some [ (json.lit "port", json.Number (json.lit "5432"));
         (json.lit "tags",
          json.Array [json.String (json.lit "a<b"); json.Null; json.Object []]) ].

Definition linked : schema.DB :=
  (schema.run 2000
     [schema.InsertTemplate db_config;
      schema.InsertTemplateTag 1 1; schema.InsertTemplateTag 1 2] seeded).1.

Definition at_version (v : Z) : MigrationRunner.State :=
  {| MigrationRunner.db :=
       {| migrate.version := v; migrate.dirty := false; migrate.history := [] |};
     MigrationRunner.log := [] |}.

End sample.

(** ** Further sample data *)
Module fixtures.

Definition failing : migrate.Script := {| migrate.script_ok := false |}.

(** The two schema versions, and a third whose up body the store rejects. *)
Definition broken_source : migrate.Source :=
  sample.source
  ++ [ {| migrate.ver := 3; migrate.up := Some failing; migrate.down := Some sample.ok |} ].

(** A store in which the name of a seed environment is taken, under
    another slug. *)
Definition renamed : schema.DB :=
  (schema.exec 500
     (schema.InsertEnvironment
        {| schema.ie_id := None; schema.ie_name := "Development";
           schema.ie_slug := "development"; schema.ie_description := None;
           schema.ie_active := None; schema.ie_priority := None;
           schema.ie_created_at := None; schema.ie_updated_at := None |})
     schema.empty).1.

(** A request for the list of tags, and a preflight for it. *)
Definition list_tags : gin.Request :=
  {| gin.Method := "GET"; gin.Path := "/api/v1/tags"; gin.RawQuery := "page=2";
     gin.HeaderGet := λ key, if bool_decide (key = "User-Agent") then "curl/8.5.0" else "";
     gin.RemoteIP := "10.0.0.7" |}.

Definition preflight : gin.Request :=
  {| gin.Method := "OPTIONS"; gin.Path := "/api/v1/tags"; gin.RawQuery := "";
     gin.HeaderGet := λ key, ""; gin.RemoteIP := "10.0.0.7" |}.

(** A handler that answers 200 with a body of 30 bytes, as [Liveness]
    does, and one that panics. *)
Definition alive : server.Flight → server.Flight := gin.on_context (gin.JSON 200 30).

Definition crash : server.Flight → server.Flight :=
  λ w, {| gin.c := gin.c w; gin.m := gin.m w; gin.events := gin.events w;
          gin.panicking := Some (gin.Value "runtime error") |}.

End fixtures.

(* ===================================================================== *)
(** * Part II: properties                                                 *)
(* ===================================================================== *)

(** ** ConfigFormat *)

(** C10.  [ConfigFormat.Scan] fails exactly on values that are neither nil
    nor a string; nil scans to [json]; a string [s] scans to [s] itself,
    whether or not it is one of the four declared formats, and some string
    outside them is accepted. *)
Theorem ConfigFormat_Scan_spec :
  (∀ cf v, snd (model.ConfigFormat_Scan cf v) ≠ nil
           ↔ v ≠ driver.Nil ∧ (∀ s, v ≠ driver.String s))
  ∧ (∀ cf, model.ConfigFormat_Scan cf driver.Nil = (model.ConfigFormatJSON, nil))
  ∧ (∀ cf s, model.ConfigFormat_Scan cf (driver.String s) = (s, nil))
  ∧ (∃ s, (s ∉ model.config_formats)
          ∧ (∀ cf, model.ConfigFormat_Scan cf (driver.String s) = (s, nil))).
Proof.
  repeat split.
  - destruct v; simpl in *; congruence.
  - destruct v; simpl in *; congruence.
  - intros [Hnil Hstr]. destruct v; simpl; try discriminate.
    + by destruct Hnil.
    + by destruct (Hstr s).
  - exists "xml". split; [|done].
    unfold model.config_formats. rewrite !elem_of_cons, elem_of_nil.
    intros [?|[?|[?|[?|[]]]]]; discriminate.
Qed.

(** ** Health and readiness *)

(** [Readiness] answers 200 exactly when both dependencies answer. *)
Lemma Readiness_code (d : health.Deps) :
  health.code (health.Readiness d) = http.StatusOK ↔ health.all_up d = true.
Proof.
  destruct d as [[e1|] [e2|]]; unfold health.Readiness, health.all_up; simpl;
    split; intros; try done.
Qed.

(** C8, as stated, fails: two not-ready outcomes that differ only in which
    dependency is down get different bodies, so the body tells the caller
    which dependency failed. *)
Lemma Readiness_names_failed_dependency :
  let store_down := {| health.db_ping := Some "connection refused";
                       health.redis_ping := None |} in
  let cache_down := {| health.db_ping := None;
                       health.redis_ping := Some "connection refused" |} in
  health.all_up store_down = false
  ∧ health.all_up cache_down = false
  ∧ health.body (health.Readiness store_down) ≠ health.body (health.Readiness cache_down).
Proof. repeat split; discriminate. Qed.

(** C8, amended.  [Readiness] answers 200 "Service is ready" when both
    dependencies answer, and otherwise 503 with error [service_not_ready],
    no details map, and a message naming the first dependency found down:
    the store when its check fails (the cache is then not asked), the cache
    when only its ping fails.  The body never depends on the error text of
    the failed dependency, which goes to the log only; [Health] by contrast
    reports one status entry per dependency. *)
Theorem Readiness_spec :
  (∀ d, health.all_up d = true →
        health.Readiness d =
          {| health.code := http.StatusOK;
             health.body := health.SuccessBody
               {| model.SMessage := "Service is ready"; model.Data := None |};
             health.logged := [] |})
  ∧ (∀ d, health.all_up d = false →
        health.code (health.Readiness d) = http.StatusServiceUnavailable
        ∧ ∃ m, health.body (health.Readiness d) = health.ErrorBody
                 {| model.Error := "service_not_ready"; model.Message := m;
                    model.Details := ∅ |}
               ∧ (is_Some (health.db_ping d) → m = "Database is not ready")
               ∧ (health.db_ping d = None → m = "Redis is not ready"))
  ∧ (∀ d d', (is_Some (health.db_ping d) ↔ is_Some (health.db_ping d')) →
             (is_Some (health.redis_ping d) ↔ is_Some (health.redis_ping d')) →
             health.body (health.Readiness d) = health.body (health.Readiness d'))
  ∧ (∀ v d c1 c2, ∃ r sdb sredis,
        health.body (health.Health v d c1 c2) = health.HealthBody r
        ∧ model.Services r !! "database" = Some sdb
        ∧ model.Services r !! "redis" = Some sredis
        ∧ (model.Status sdb = "healthy" ↔ health.db_ping d = None)
        ∧ (model.Status sredis = "healthy" ↔ health.redis_ping d = None)).
Proof.
  split; [|split; [|split]].
  - intros [[e1|] [e2|]]; unfold health.all_up; simpl; intros; done.
  - intros [[e1|] [e2|]]; unfold health.all_up, health.Readiness; simpl;
      intros Hdown; try done; (split; [done|]); eexists; (split; [done|]);
      split; intros H; try done; by destruct H.
  - intros [[e1|] [e2|]] [[e1'|] [e2'|]]; unfold health.Readiness; simpl;
      intros [H1 H1'] [H2 H2']; try done;
      repeat match goal with
             | H : is_Some (Some ?x) → is_Some None |- _ =>
                 destruct (H (ex_intro _ x eq_refl)) as [? ?]; discriminate
             end.
  - intros v d c1 c2.
    exists {| model.HStatus :=
                if decide (health.all_up d = true) then "healthy" else "unhealthy";
              model.Version := v;
              model.Services := <["redis" := health.checkRedis d c2]>
                                  (<["database" := health.checkDatabase d c1]> ∅) |},
      (health.checkDatabase d c1), (health.checkRedis d c2).
    split; [|split; [|split; [|split]]].
    + destruct d as [[e1|] [e2|]]; reflexivity.
    + done.
    + done.
    + destruct d as [[e1|] r]; simpl; split; intros; done.
    + destruct d as [p [e2|]]; simpl; split; intros; done.
Qed.

(** ** The list endpoints *)

(** C7.  On a failed query, and on a failed row scan alike, both list
    handlers answer 500 with the storage error's own text as the ["error"]
    value, and log nothing themselves. *)
Theorem list_handlers_return_storage_error_text :
  (∀ e, api.getEnvironments (inl e)
        = {| api.status := http.StatusInternalServerError;
             api.payload := api.H [("error", api.Str e)]; api.logged := [] |})
  ∧ (∀ e, api.getTags (inl e)
        = {| api.status := http.StatusInternalServerError;
             api.payload := api.H [("error", api.Str e)]; api.logged := [] |})
  ∧ (∀ e good rest, api.getEnvironments (inr ((inr <$> good) ++ inl e :: rest))
        = {| api.status := http.StatusInternalServerError;
             api.payload := api.H [("error", api.Str e)]; api.logged := [] |})
  ∧ (∀ e good rest, api.getTags (inr ((inr <$> good) ++ inl e :: rest))
        = {| api.status := http.StatusInternalServerError;
             api.payload := api.H [("error", api.Str e)]; api.logged := [] |}).
Proof.
  assert (Hc : ∀ row (f : row → api.any) e good rest acc,
             api.collect f ((inr <$> good) ++ inl e :: rest) acc = inl e).
  { intros row f e good rest. induction good as [|g good IH]; intros acc; simpl.
    - done.
    - apply IH. }
  repeat split; intros; try done;
    unfold api.getEnvironments, api.getTags, api.list_handler; by rewrite Hc.
Qed.

(** The failing input of C7 evaluated: the caller reads the driver's text. *)
Example getEnvironments_leak :
  "pq: relation environments does not exist"
    ∈ api.texts (api.payload
        (api.getEnvironments (inl "pq: relation environments does not exist"))).
Proof. simpl. apply list_elem_of_here. Qed.

(** ** The migration runner *)

Section migrate_facts.
Import migrate.

Lemma next_in_last (idx : list nat) (v : nat) :
  NoDup idx → last idx = Some v → next_in idx v = None.
Proof.
  induction idx as [|x rest IH]; [done|].
  intros Hnd Hlast. apply NoDup_cons in Hnd as [Hx Hnd]. simpl.
  destruct rest as [|y rest'].
  - by case_bool_decide.
  - change (last (x :: y :: rest')) with (last (y :: rest')) in Hlast.
    case_bool_decide as Hxv.
    + subst x. destruct Hx. eapply list_elem_of_lookup_2.
      rewrite last_lookup in Hlast. exact Hlast.
    + by apply IH.
Qed.

Lemma next_in_None_last (idx : list nat) (v : nat) :
  v ∈ idx → next_in idx v = None → last idx = Some v.
Proof.
  induction idx as [|x rest IH]; [by intros ?%elem_of_nil|].
  intros Hin Hnext. simpl in Hnext.
  case_bool_decide as Hxv.
  - subst x. by destruct rest.
  - apply elem_of_cons in Hin as [->|Hin]; [done|].
    destruct rest as [|y rest']; [by apply elem_of_nil in Hin|].
    change (last (x :: y :: rest')) with (last (y :: rest')). by apply IH.
Qed.

Lemma next_in_middle (pre post : list nat) (v w : nat) :
  NoDup (pre ++ v :: w :: post) → next_in (pre ++ v :: w :: post) v = Some w.
Proof.
  induction pre as [|x pre IH]; simpl; intros Hnd.
  - by rewrite bool_decide_eq_true_2.
  - apply NoDup_cons in Hnd as [Hx Hnd].
    rewrite bool_decide_eq_false_2; [by apply IH|].
    intros ->. apply Hx. apply elem_of_app. right. apply list_elem_of_here.
Qed.

Lemma prev_in_lt (idx : list nat) (v p : nat) :
  StronglySorted lt idx → prev_in idx v = Some p → p < v ∧ p ∈ idx.
Proof.
  induction idx as [|x rest IH]; [done|].
  intros Hs Hp. apply StronglySorted_inv in Hs as [Hs Hall]. simpl in Hp.
  destruct rest as [|y rest']; [done|].
  case_bool_decide as Hyv.
  - injection Hp as <-. subst y. split; [|apply list_elem_of_here].
    by apply Forall_cons in Hall as [? _].
  - destruct (IH Hs Hp) as [? ?]. split; [done|]. by apply list_elem_of_further.
Qed.

Lemma prev_in_None_head (idx : list nat) (v : nat) :
  v ∈ idx → prev_in idx v = None → head idx = Some v.
Proof.
  induction idx as [|x rest IH]; [by intros ?%elem_of_nil|].
  intros Hin Hp. simpl in *.
  destruct rest as [|y rest'].
  - apply elem_of_cons in Hin as [->|Hin]; [done|]. by apply elem_of_nil in Hin.
  - case_bool_decide as Hyv; [done|].
    apply elem_of_cons in Hin as [->|Hin]; [done|].
    specialize (IH Hin Hp). simpl in IH. congruence.
Qed.

Lemma sorted_NoDup (idx : list nat) : StronglySorted lt idx → NoDup idx.
Proof.
  induction 1 as [|x rest Hs IH Hall]; [constructor|].
  apply NoDup_cons. split; [|done].
  intros Hin. rewrite Forall_forall in Hall. specialize (Hall _ Hin). lia.
Qed.

Lemma find_ver (src : Source) (v : nat) :
  v ∈ index src →
  ∃ e, find (λ e, bool_decide (ver e = v)) src = Some e ∧ e ∈ src ∧ ver e = v.
Proof.
  induction src as [|e src IH]; simpl; [by intros ?%elem_of_nil|].
  intros Hin. case_bool_decide as Hv.
  - exists e. split; [done|]. split; [apply list_elem_of_here|done].
  - apply elem_of_cons in Hin as [?|Hin]; [done|].
    destruct (IH Hin) as (e' & ? & ? & ?). exists e'.
    split; [done|]. split; [by apply list_elem_of_further|done].
Qed.

Lemma versionExists_index (src : Source) (v : nat) :
  wf src → v ∈ index src → versionExists src v = None.
Proof.
  intros [_ Hbody] Hin. destruct (find_ver src v Hin) as (e & Hf & He & _).
  rewrite Forall_forall in Hbody. specialize (Hbody e He).
  unfold versionExists, ReadUp, ReadDown. rewrite Hf. simpl.
  destruct (up e), (down e); try done.
  destruct Hbody as [[? ?]|[? ?]]; done.
Qed.

Lemma versionExists_inv (src : Source) (v : nat) :
  versionExists src v = None → v ∈ index src.
Proof.
  unfold versionExists, ReadUp, ReadDown.
  destruct (find _ src) as [e|] eqn:Hf; simpl; [|done].
  intros _. clear -Hf. induction src as [|e' src IH]; simpl in *; [done|].
  case_bool_decide as Hv.
  - subst v. apply list_elem_of_here.
  - apply list_elem_of_further. by apply IH.
Qed.

(** With no limit, [readUp] plans every version above [v], in index order,
    and reports [ErrNoChange] only when there is none and none was sent. *)
Lemma readUp_loop_all (src : Source) (post pre : list nat) (v : nat)
      (count : Z) (fuel : nat) :
  index src = pre ++ v :: post → NoDup (index src) →
  length post < fuel → (0 ≤ count)%Z →
  readUp_loop fuel src (Z.of_nat v) (-1) count
  = (Migr <$> (up_step src <$> post))
      ++ (if bool_decide (post = [] ∧ count = 0%Z) then [Fail ErrNoChange] else []).
Proof.
  revert pre v count fuel.
  induction post as [|w post IH]; intros pre v count fuel Hidx Hnd Hfuel Hcount;
    (destruct fuel as [|fuel]; [simpl in Hfuel; lia|]); simpl.
  - rewrite (bool_decide_eq_false_2 (count < -1)%Z) by lia. simpl.
    rewrite (bool_decide_eq_false_2 (Z.of_nat v = -1)%Z) by lia.
    rewrite Nat2Z.id. unfold Next.
    rewrite next_in_last; [|done|rewrite Hidx; by rewrite last_app].
    simpl. destruct (bool_decide (count = 0%Z)) eqn:Hc.
    + apply bool_decide_eq_true in Hc. by rewrite bool_decide_eq_true_2.
    + apply bool_decide_eq_false in Hc. rewrite bool_decide_eq_false_2; [done|].
      by intros [_ ?].
  - rewrite (bool_decide_eq_false_2 (count < -1)%Z) by lia. simpl.
    rewrite (bool_decide_eq_false_2 (Z.of_nat v = -1)%Z) by lia.
    rewrite Nat2Z.id. unfold Next. rewrite Hidx.
    rewrite next_in_middle by (by rewrite <- Hidx).
    rewrite app_nil_r. f_equal.
    rewrite (IH (pre ++ [v]) w (count + 1)%Z fuel); try done.
    + rewrite bool_decide_eq_false_2 by (intros [_ ?]; lia). by rewrite app_nil_r.
    + by rewrite <- app_assoc.
    + simpl in Hfuel. lia.
    + lia.
Qed.

Lemma readUp_loop_nil (fuel : nat) (src : Source) (count : Z) :
  (0 ≤ count)%Z →
  readUp_loop (S fuel) src (-1) (-1) count
  = match First src with
    | None => [Fail ErrNotExist]
    | Some f => Migr (up_step src f) :: readUp_loop fuel src (Z.of_nat f) (-1) (count + 1)
    end.
Proof.
  intros Hcount. simpl.
  by rewrite (bool_decide_eq_false_2 (count < -1)%Z) by lia.
Qed.

Lemma runMigrations_app (db db1 : Database) (ms : list Migration) (rest : list Item) :
  runMigrations db (Migr <$> ms) = (db1, None) →
  runMigrations db ((Migr <$> ms) ++ rest) = runMigrations db1 rest.
Proof.
  revert db. induction ms as [|m ms IH]; intros db; simpl.
  - by intros [= ->].
  - destruct (run_one db m) as [db2 [e|]]; [done|]. apply IH.
Qed.

Lemma run_one_ok (db db' : Database) (m : Migration) :
  run_one db m = (db', None) →
  version db' = TargetVersion m ∧ dirty db' = false
  ∧ history db' = history db ++ [m].
Proof.
  unfold run_one. destruct (Body m) as [[[|]]|]; simpl; intros [= <-]; done.
Qed.

Lemma runMigrations_ok (db db' : Database) (ms : list Migration) (m : Migration) :
  last ms = Some m →
  runMigrations db (Migr <$> ms) = (db', None) →
  version db' = TargetVersion m ∧ dirty db' = false.
Proof.
  revert db. induction ms as [|m0 ms IH]; intros db Hlast; [done|].
  simpl. destruct (run_one db m0) as [db2 [e|]] eqn:Hone; [done|].
  destruct ms as [|m1 ms].
  - injection Hlast as ->. simpl. intros [= <-].
    apply run_one_ok in Hone. tauto.
  - apply IH. exact Hlast.
Qed.

Lemma runMigrations_err (db db' : Database) (ms : list Migration) (e : Err) :
  runMigrations db (Migr <$> ms) = (db', Some e) → ∃ d v, e = ErrRun d v.
Proof.
  revert db. induction ms as [|m ms IH]; intros db; simpl; [done|].
  destruct (run_one db m) as [db2 [e'|]] eqn:Hone.
  - intros [= <- <-]. unfold run_one in Hone.
    destruct (Body m) as [[[|]]|]; simpl in Hone; try done.
    injection Hone as <- <-. eauto.
  - apply IH.
Qed.

(** A run of [Up] that ends without error, or with [ErrNoChange], leaves
    the store clean at the newest version of the source. *)
Lemma Up_settled (src : Source) (db db' : Database) (r : option Err) :
  wf src → (-1 ≤ version db)%Z →
  Up src db = (db', r) → r = None ∨ r = Some ErrNoChange →
  at_latest src db'.
Proof.
  intros Hwf Hver. pose proof (sorted_NoDup _ (proj1 Hwf)) as Hnd.
  unfold Up. destruct (dirty db) eqn:Hdirty; [by intros [= <- <-] [?|?]|].
  unfold readUp.
  assert (Hlen : length (index src) = length src) by apply length_fmap.
  case_bool_decide as Hnonneg.
  - destruct (versionExists src (Z.to_nat (version db))) as [e|] eqn:Hex.
    { simpl. intros [= <- <-] [?|Heq]; [done|]. injection Heq as ->.
      unfold versionExists in Hex.
      destruct (ReadUp _ _); [done|]. by destruct (ReadDown _ _). }
    apply versionExists_inv in Hex.
    apply list_elem_of_split in Hex as (pre & post & Hidx).
    rewrite (bool_decide_eq_false_2 (-1 = 0)%Z) by done.
    replace (version db) with (Z.of_nat (Z.to_nat (version db))) at 1 by lia.
    rewrite (readUp_loop_all src post pre); try done.
    2: { unfold fuel_for. rewrite <- Hlen, Hidx, length_app. simpl. lia. }
    induction post as [|w post _] using rev_ind.
    + rewrite bool_decide_eq_true_2 by done. simpl. intros [= <- <-] _.
      split; [done|]. exists (Z.to_nat (version db)). split; [|lia].
      unfold latest. by rewrite Hidx, last_snoc.
    + rewrite bool_decide_eq_false_2 by (intros [? _]; by destruct post).
      rewrite app_nil_r. intros Hrun [-> | ->].
      * apply (runMigrations_ok _ _ _ (up_step src w)) in Hrun as [Hv Hd];
          [|by rewrite fmap_last, last_snoc].
        split; [done|]. exists w. split; [|done].
        unfold latest. by rewrite Hidx, app_comm_cons, (assoc_L (++)), last_snoc.
      * apply runMigrations_err in Hrun as (? & ? & ?). done.
  - assert (version db = -1)%Z as Hnil by lia. rewrite Hnil.
    rewrite (bool_decide_eq_false_2 (-1 = 0)%Z) by done.
    unfold fuel_for. rewrite readUp_loop_nil by done.
    unfold First. destruct (index src) as [|f rest] eqn:Hidx.
    { simpl. by intros [= <- <-] [?|?]. }
    cbn [head].
    rewrite (readUp_loop_all src rest [] f); try done.
    2: { by rewrite Hidx. }
    2: { rewrite <- Hlen. simpl. lia. }
    rewrite (bool_decide_eq_false_2 (_ ∧ _)) by (intros [_ ?]; lia).
    rewrite app_nil_r.
    change (Migr (up_step src f) :: (Migr <$> (up_step src <$> rest)))
      with (Migr <$> (up_step src <$> (f :: rest))).
    destruct (exists_last (l := f :: rest)) as (all & w & Hall); [done|].
    rewrite Hall. intros Hrun [-> | ->].
    + apply (runMigrations_ok _ _ _ (up_step src w)) in Hrun as [Hv Hd];
        [|by rewrite fmap_last, last_snoc].
      split; [done|].
      exists w. split; [|done]. unfold latest. rewrite Hidx, Hall. by rewrite last_snoc.
    + apply runMigrations_err in Hrun as (? & ? & ?). done.
Qed.

(** At the newest version, clean, [Up] finds nothing to plan. *)
Lemma Up_at_latest (src : Source) (db : Database) :
  wf src → at_latest src db → Up src db = (db, Some ErrNoChange).
Proof.
  intros Hwf [Hclean (v & Hlatest & Hv)].
  pose proof (sorted_NoDup _ (proj1 Hwf)) as Hnd.
  assert (Hin : v ∈ index src).
  { unfold latest in Hlatest. rewrite last_lookup in Hlatest.
    by eapply list_elem_of_lookup_2. }
  unfold Up, readUp. rewrite Hclean, Hv.
  rewrite bool_decide_eq_true_2 by lia. rewrite Nat2Z.id.
  rewrite versionExists_index by done.
  rewrite (bool_decide_eq_false_2 (-1 = 0)%Z) by done.
  apply list_elem_of_split in Hin as (pre & post & Hidx).
  assert (post = []) as ->.
  { unfold latest in Hlatest. rewrite Hidx in Hlatest, Hnd.
    destruct post as [|w post _] using rev_ind; [done|]. exfalso.
    rewrite app_comm_cons, (assoc_L (++)), last_snoc in Hlatest.
    injection Hlatest as ->.
    apply NoDup_app in Hnd as (_ & _ & Hnd).
    apply NoDup_cons in Hnd as [Hnd _]. apply Hnd.
    apply elem_of_app. right. apply list_elem_of_here. }
  rewrite (readUp_loop_all src [] pre); try done.
  unfold fuel_for. simpl. lia.
Qed.

(** A one-step rollback plans exactly the current version, down to the
    version before it, or to the nil version from the first one. *)
Lemma readDown_one (src : Source) (v : nat) :
  wf src → v ∈ index src →
  readDown src (Z.of_nat v) 1
  = [Migr (newMigration src v (default (-1)%Z (Z.of_nat <$> Prev src v)))].
Proof.
  intros Hwf Hin. unfold readDown.
  rewrite bool_decide_eq_true_2 by lia. rewrite Nat2Z.id.
  rewrite versionExists_index by done.
  rewrite (bool_decide_eq_false_2 (1 = 0)%Z) by done.
  rewrite (bool_decide_eq_false_2 (Z.of_nat v = -1)%Z) by lia.
  unfold fuel_for. cbn [andb readDown_loop].
  rewrite Nat2Z.id.
  destruct (Prev src v) as [p|] eqn:Hprev; simpl.
  - done.
  - apply prev_in_None_head in Hprev; [|done].
    unfold First. by rewrite Hprev.
Qed.

Lemma filter_above (x : nat) (rest : list nat) :
  Forall (lt x) rest → filter (λ w, Z.of_nat w ≤ Z.of_nat x)%Z rest = [].
Proof.
  induction 1 as [|y rest Hy _ IH]; [done|].
  rewrite filter_cons_False by lia. done.
Qed.

(** In a sorted index the applied versions end with the current one. *)
Lemma applied_ends_with_current (idx : list nat) (v : nat) :
  StronglySorted lt idx → v ∈ idx →
  ∃ older, filter (λ w, Z.of_nat w ≤ Z.of_nat v)%Z idx = older ++ [v].
Proof.
  induction 1 as [|x rest Hs IH Hall]; [by intros ?%elem_of_nil|].
  intros Hin. destruct (decide (x = v)) as [->|Hne].
  - exists []. rewrite filter_cons_True by lia. by rewrite filter_above.
  - apply elem_of_cons in Hin as [?|Hin]; [done|].
    destruct (IH Hin) as [older Holder].
    rewrite Forall_forall in Hall. specialize (Hall _ Hin).
    exists (x :: older). rewrite filter_cons_True by lia. by rewrite Holder.
Qed.

End migrate_facts.

Lemma sample_source_wf : migrate.wf sample.source.
Proof.
  split.
  - repeat constructor.
  - repeat (constructor; [left; by eexists|]). constructor.
Qed.

(** C5.  On a store that is clean and at the newest version of the source,
    and so in particular on the store a successful [Up] has just left,
    [Up] hands no step to the store, logs "No new migrations to apply" and
    returns no error; the store is left as it was. *)
Theorem Up_idempotent_at_latest (src : migrate.Source) (st : MigrationRunner.State) :
  migrate.wf src →
  (migrate.at_latest src (MigrationRunner.db st)
   ∨ ∃ st0, (-1 ≤ migrate.version (MigrationRunner.db st0))%Z
            ∧ MigrationRunner.Up src st0 = (st, None)) →
  MigrationRunner.Up src st
  = ({| MigrationRunner.db := MigrationRunner.db st;
        MigrationRunner.log :=
          MigrationRunner.log st ++ [logger.info "Running database migrations...";
                                     logger.info "No new migrations to apply"] |},
     None)
  ∧ MigrationRunner.steps_of st (MigrationRunner.Up src st).1 = [].
Proof.
  intros Hwf Hst.
  assert (Hlatest : migrate.at_latest src (MigrationRunner.db st)).
  { destruct Hst as [?|(st0 & Hver & Hup)]; [done|].
    unfold MigrationRunner.Up in Hup. simpl in Hup.
    destruct (migrate.Up src (MigrationRunner.db st0)) as [db' r] eqn:Hrun.
    destruct r as [e|].
    - destruct e; try done. injection Hup as <-. simpl.
      eapply Up_settled; eauto.
    - injection Hup as <-. simpl. eapply Up_settled; eauto. }
  assert (Hup : MigrationRunner.Up src st
    = ({| MigrationRunner.db := MigrationRunner.db st;
          MigrationRunner.log :=
            MigrationRunner.log st ++ [logger.info "Running database migrations...";
                                       logger.info "No new migrations to apply"] |},
       None)).
  { unfold MigrationRunner.Up. simpl.
    rewrite (Up_at_latest src _ Hwf Hlatest). unfold MigrationRunner.say. simpl.
    by rewrite <- (assoc_L (++)). }
  split; [done|]. rewrite Hup. unfold MigrationRunner.steps_of. simpl.
  by rewrite drop_all.
Qed.

Lemma Up_idempotent_at_latest_witness :
  MigrationRunner.Up sample.source (sample.at_version 2)
  = ({| MigrationRunner.db := MigrationRunner.db (sample.at_version 2);
        MigrationRunner.log :=
          MigrationRunner.log (sample.at_version 2)
            ++ [logger.info "Running database migrations...";
                logger.info "No new migrations to apply"] |},
     None)
  ∧ MigrationRunner.steps_of (sample.at_version 2)
      (MigrationRunner.Up sample.source (sample.at_version 2)).1 = [].
Proof.
  apply (Up_idempotent_at_latest sample.source (sample.at_version 2)).
  - exact sample_source_wf.
  - left. split; [reflexivity|]. exists 2. split; reflexivity.
Defined.

(** From the empty store, the first [Up] applies both versions and the
    second finds nothing to do. *)
Example Up_then_Up :
  let '(st1, r1) := MigrationRunner.Up sample.source (sample.at_version (-1)) in
  let '(st2, r2) := MigrationRunner.Up sample.source st1 in
  r1 = None ∧ r2 = None
  ∧ migrate.Version <$> MigrationRunner.steps_of (sample.at_version (-1)) st1 = [1; 2]
  ∧ MigrationRunner.steps_of st1 st2 = []
  ∧ MigrationRunner.db st2 = MigrationRunner.db st1.
Proof. vm_compute. done. Qed.




(** ** The persistence schema *)

Section table_facts.
Context {A K : Type}.
Implicit Types (rows : list A) (id : A → Z) (key : A → K).

Lemma NoDup_fmap_filter key (P : A → Prop) `{∀ x, Decision (P x)} rows :
  NoDup (key <$> rows) → NoDup (key <$> filter P rows).
Proof.
  intros Hnd. eapply sublist_NoDup; [exact Hnd|].
  apply fmap_sublist, sublist_filter.
Qed.

Lemma NoDup_fmap_snoc key rows (r : A) :
  NoDup (key <$> rows) → key r ∉ key <$> rows → NoDup (key <$> (rows ++ [r])).
Proof.
  intros Hnd Hfresh. rewrite fmap_app. apply NoDup_app.
  split; [done|]. split; [|apply NoDup_singleton].
  intros k Hk ->%list_elem_of_singleton. done.
Qed.

(** An UPDATE that keeps primary keys leaves the key column as it was. *)
Lemma fmap_update_row_id id (target : Z) (f : A → A) rows :
  (∀ r, id (f r) = id r) →
  id <$> schema.update_row id target f rows = id <$> rows.
Proof.
  intros Hid. unfold schema.update_row. rewrite <- list_fmap_compose.
  apply list_fmap_ext. intros i r _. simpl. by case_bool_decide.
Qed.

(** An UPDATE keeps a unique column unique when the new value of the
    addressed row is not taken by another row. *)
Lemma NoDup_fmap_update_row id key (target : Z) (f : A → A) rows :
  NoDup (id <$> rows) → NoDup (key <$> rows) →
  (∀ r, r ∈ rows → id r = target → key (f r) ∉ key <$> schema.others id target rows) →
  NoDup (key <$> schema.update_row id target f rows).
Proof.
  intros Hid Hkey Hfresh. apply NoDup_alt. intros i j k Hi Hj.
  unfold schema.update_row in Hi, Hj. rewrite !list_lookup_fmap in Hi, Hj.
  destruct (rows !! i) as [ri|] eqn:Hri; [|done].
  destruct (rows !! j) as [rj|] eqn:Hrj; [|done].
  simpl in Hi, Hj. injection Hi as Hi. injection Hj as Hj.
  assert (Hin : ∀ n r, rows !! n = Some r → id r ≠ target →
                       key r ∈ key <$> schema.others id target rows).
  { intros n r Hn Hne. apply list_elem_of_fmap_2, list_elem_of_filter.
    split; [done|]. by eapply list_elem_of_lookup_2. }
  destruct (decide (id ri = target)) as [Hti|Hti];
    [rewrite bool_decide_eq_true_2 in Hi by done
    |rewrite bool_decide_eq_false_2 in Hi by done];
    (destruct (decide (id rj = target)) as [Htj|Htj];
     [rewrite bool_decide_eq_true_2 in Hj by done
     |rewrite bool_decide_eq_false_2 in Hj by done]).
  - eapply (NoDup_lookup (id <$> rows)); [done| |];
      rewrite list_lookup_fmap; [by rewrite Hri|]. rewrite Hrj. simpl. congruence.
  - exfalso. eapply (Hfresh ri); [by eapply list_elem_of_lookup_2|done|].
    rewrite Hi, <- Hj. by eapply Hin.
  - exfalso. eapply (Hfresh rj); [by eapply list_elem_of_lookup_2|done|].
    rewrite Hj, <- Hi. by eapply Hin.
  - eapply (NoDup_lookup (key <$> rows)); [done| |];
      rewrite list_lookup_fmap; [by rewrite Hri; simpl; rewrite Hi|].
    rewrite Hrj. simpl. by rewrite Hj.
Qed.

(** The row [find] returns is the only one with that primary key. *)
Lemma find_by_id id (target : Z) rows (old r : A) :
  NoDup (id <$> rows) →
  find (λ r, bool_decide (id r = target)) rows = Some old →
  r ∈ rows → id r = target → r = old.
Proof.
  induction rows as [|x rows IH]; simpl; [done|].
  intros [Hx Hnd]%NoDup_cons Hfind Hin Hr.
  case_bool_decide as Hxid.
  - injection Hfind as <-. apply elem_of_cons in Hin as [?|Hin]; [done|].
    destruct Hx. rewrite Hxid, <- Hr. by apply list_elem_of_fmap_2.
  - apply elem_of_cons in Hin as [->|Hin]; [done|]. by apply IH.
Qed.

End table_facts.

Section schema_invariant.
Import schema.

Lemma unique_same_tables (db db' : DB) :
  tables db' = tables db → unique db → unique db'.
Proof.
  unfold tables. intros [= Htags Henvs Htpls Htt] [].
  constructor; by rewrite ?Htags, ?Henvs, ?Htpls, ?Htt.
Qed.

(** Closes the branches in which a statement changed no table. *)
Ltac same_tables := eapply unique_same_tables; [|eassumption]; reflexivity.

Lemma exec_insert_tag_unique oc now i db :
  unique db → unique (exec_insert_tag oc now i db).1.
Proof.
  intros Hu. unfold exec_insert_tag.
  destruct (serial (it_id i) (tags_id_seq db)) as [id seq].
  destruct (oc && _); [same_tables|].
  case_bool_decide as Hid; [same_tables|].
  case_bool_decide as Hname; [same_tables|].
  destruct Hu. constructor; simpl; try done.
  - by apply NoDup_fmap_snoc.
  - by apply NoDup_fmap_snoc.
Qed.

Lemma exec_update_tag_unique now id u db :
  unique db → unique (exec_update_tag now id u db).1.
Proof.
  intros Hu. unfold exec_update_tag.
  destruct (find _ (tags db)) as [old|] eqn:Hfind; [|done].
  case_bool_decide as Hname; [done|].
  destruct Hu. constructor; simpl; try done.
  - by rewrite fmap_update_row_id.
  - apply NoDup_fmap_update_row; try done.
    intros r Hr Hrid. by rewrite (find_by_id tag_id id (tags db) old r).
Qed.

Lemma exec_delete_tag_unique id db : unique db → unique (exec_delete_tag id db).1.
Proof.
  intros []. constructor; simpl; try done;
    try (by apply NoDup_fmap_filter). by apply NoDup_filter.
Qed.

Lemma exec_insert_environment_unique oc now i db :
  unique db → unique (exec_insert_environment oc now i db).1.
Proof.
  intros Hu. unfold exec_insert_environment.
  destruct (serial (ie_id i) (environments_id_seq db)) as [id seq].
  destruct (negb _); [same_tables|].
  destruct (oc && _); [same_tables|].
  case_bool_decide as Hid; [same_tables|].
  case_bool_decide as Hname; [same_tables|].
  case_bool_decide as Hslug; [same_tables|].
  destruct Hu. constructor; simpl; try done; by apply NoDup_fmap_snoc.
Qed.

Lemma exec_update_environment_unique now id u db :
  unique db → unique (exec_update_environment now id u db).1.
Proof.
  intros Hu. unfold exec_update_environment.
  destruct (find _ (environments db)) as [old|] eqn:Hfind; [|done].
  destruct (negb _); [done|].
  case_bool_decide as Hname; [done|].
  case_bool_decide as Hslug; [done|].
  destruct Hu. constructor; simpl; try done.
  - by rewrite fmap_update_row_id.
  - apply NoDup_fmap_update_row; try done.
    intros r Hr Hrid. by rewrite (find_by_id env_id id (environments db) old r).
  - apply NoDup_fmap_update_row; try done.
    intros r Hr Hrid. by rewrite (find_by_id env_id id (environments db) old r).
Qed.

Lemma exec_delete_environment_unique id db :
  unique db → unique (exec_delete_environment id db).1.
Proof.
  intros []. constructor; simpl; try done;
    try (by apply NoDup_fmap_filter). by apply NoDup_filter.
Qed.

Lemma exec_insert_template_unique now i db :
  unique db → unique (exec_insert_template now i db).1.
Proof.
  intros Hu. unfold exec_insert_template.
  destruct (serial (itp_id i) (templates_id_seq db)) as [id seq].
  case_bool_decide as Hid; [same_tables|].
  case_bool_decide as Hkey; [same_tables|].
  case_bool_decide as Hfk; [same_tables|].
  destruct Hu. constructor; simpl; try done; by apply NoDup_fmap_snoc.
Qed.

Lemma exec_update_template_unique now id u db :
  unique db → unique (exec_update_template now id u db).1.
Proof.
  intros Hu. unfold exec_update_template.
  destruct (find _ (templates db)) as [old|] eqn:Hfind; [|done].
  case_bool_decide as Hkey; [done|].
  case_bool_decide as Hfk; [done|].
  destruct Hu. constructor; simpl; try done.
  - by rewrite fmap_update_row_id.
  - apply NoDup_fmap_update_row; try done.
    intros r Hr Hrid. by rewrite (find_by_id tpl_id id (templates db) old r).
Qed.

Lemma exec_delete_template_unique id db :
  unique db → unique (exec_delete_template id db).1.
Proof.
  intros []. constructor; simpl; try done;
    try (by apply NoDup_fmap_filter). by apply NoDup_filter.
Qed.

Lemma exec_insert_template_tag_unique t g db :
  unique db → unique (exec_insert_template_tag t g db).1.
Proof.
  intros Hu. unfold exec_insert_template_tag.
  case_bool_decide as Hpk; [done|].
  case_bool_decide as Hfk1; [done|].
  case_bool_decide as Hfk2; [done|].
  destruct Hu. constructor; simpl; try done.
  apply NoDup_app. split; [done|]. split; [|apply NoDup_singleton].
  by intros x Hx ->%list_elem_of_singleton.
Qed.

Lemma exec_delete_template_tag_unique t g db :
  unique db → unique (exec_delete_template_tag t g db).1.
Proof. intros []. constructor; simpl; try done. by apply NoDup_filter. Qed.

(** Every statement keeps every uniqueness constraint. *)
Lemma exec_unique now s db : unique db → unique (exec now s db).1.
Proof.
  destruct s; simpl; intros Hu;
    first [ by apply exec_insert_tag_unique | by apply exec_update_tag_unique
          | by apply exec_delete_tag_unique | by apply exec_insert_environment_unique
          | by apply exec_update_environment_unique
          | by apply exec_delete_environment_unique
          | by apply exec_insert_template_unique | by apply exec_update_template_unique
          | by apply exec_delete_template_unique
          | by apply exec_insert_template_tag_unique
          | by apply exec_delete_template_tag_unique ].
Qed.

Lemma reachable_unique db : reachable db → unique db.
Proof.
  induction 1 as [|now s db _ IH].
  - constructor; simpl; constructor.
  - by apply exec_unique.
Qed.

Lemma run_reachable now script db : reachable db → reachable (run now script db).1.
Proof.
  revert db. induction script as [|s script IH]; intros db Hdb; simpl; [done|].
  destruct (exec now s db) as [db' [e|]] eqn:Hexec.
  - simpl. change db' with (db', Some e).1. rewrite <- Hexec. by constructor.
  - apply IH. change db' with (db', @None SqlError).1. rewrite <- Hexec. by constructor.
Qed.

End schema_invariant.

(** C1.  In every store the statements can produce, no two tags share a
    name, no two environments share a name or a slug, and no two templates
    share a (name, environment_id) pair; and an INSERT that would break one
    of these is refused by the store itself, with an error and no table
    changed (the seed form with ON CONFLICT DO NOTHING skips the row
    instead, again changing no table). *)
Theorem store_enforces_uniqueness (db : schema.DB) :
  schema.reachable db →
  (NoDup (schema.tag_name <$> schema.tags db)
   ∧ NoDup (schema.env_name <$> schema.environments db)
   ∧ NoDup (schema.env_slug <$> schema.environments db)
   ∧ NoDup (schema.tpl_key <$> schema.templates db))
  ∧ (∀ now i, schema.it_name i ∈ schema.tag_name <$> schema.tags db →
       schema.rejects now (schema.InsertTag i) db
       ∧ schema.tables (schema.exec now (schema.InsertTagOnConflictName i) db).1
         = schema.tables db)
  ∧ (∀ now i, schema.ie_name i ∈ schema.env_name <$> schema.environments db
              ∨ schema.ie_slug i ∈ schema.env_slug <$> schema.environments db →
       schema.rejects now (schema.InsertEnvironment i) db
       ∧ schema.tables (schema.exec now (schema.InsertEnvironmentOnConflictSlug i) db).1
         = schema.tables db)
  ∧ (∀ now i, (schema.itp_name i, schema.itp_environment_id i)
                ∈ schema.tpl_key <$> schema.templates db →
       schema.rejects now (schema.InsertTemplate i) db).
Proof.
  intros Hreach. pose proof (reachable_unique db Hreach) as [].
  split; [done|]. split; [|split].
  - intros now i Hname. unfold schema.rejects. simpl. unfold schema.exec_insert_tag.
    destruct (schema.serial _ _) as [id seq]. simpl.
    rewrite (bool_decide_eq_true_2 (schema.it_name i ∈ _)) by done.
    case_bool_decide; done.
  - intros now i Hdup. unfold schema.rejects. simpl.
    unfold schema.exec_insert_environment.
    destruct (schema.serial _ _) as [id seq]. simpl.
    destruct (negb _); [done|]. simpl.
    repeat case_bool_decide; try done. by destruct Hdup.
  - intros now i Hkey. unfold schema.rejects. simpl.
    unfold schema.exec_insert_template.
    destruct (schema.serial _ _) as [id seq].
    case_bool_decide; [done|].
    by rewrite (bool_decide_eq_true_2 (schema.tpl_key _ ∈ _)) by done.
Qed.

Lemma store_enforces_uniqueness_witness :
  NoDup (schema.tag_name <$> schema.tags sample.seeded)
  ∧ schema.rejects 2000
      (schema.InsertTag
         {| schema.it_id := None; schema.it_name := "api";
            schema.it_description := None; schema.it_color := None;
            schema.it_created_at := None; schema.it_updated_at := None |})
      sample.seeded.
Proof.
  destruct (store_enforces_uniqueness sample.seeded) as [(Htags & _) (Hinsert & _)].
  - apply run_reachable. constructor.
  - split; [exact Htags|]. apply Hinsert. vm_compute.
    apply list_elem_of_further, list_elem_of_here.
Defined.

(** The seeds are idempotent: run a second time they change no table. *)
Example seeds_twice :
  schema.tables (schema.run 2000 schema.seeds sample.seeded).1 = schema.tables sample.seeded
  ∧ (schema.run 2000 schema.seeds sample.seeded).2 = None
  ∧ schema.env_slug <$> schema.environments sample.seeded = ["dev"; "staging"; "prod"].
Proof. vm_compute. done. Qed.

Section cascade_facts.
Import schema.

Lemma NoDup_fmap_eq {A K} (f : A → K) (l : list A) (x y : A) :
  NoDup (f <$> l) → x ∈ l → y ∈ l → f x = f y → x = y.
Proof.
  induction l as [|a l IH]; simpl; [by intros _ ?%elem_of_nil|].
  intros [Ha Hnd]%NoDup_cons [->|Hx]%elem_of_cons [->|Hy]%elem_of_cons Hf; try done.
  - destruct Ha. rewrite Hf. by apply list_elem_of_fmap_2.
  - destruct Ha. rewrite <- Hf. by apply list_elem_of_fmap_2.
  - by apply IH.
Qed.

Lemma tag_ids_after_delete_tag (tts : list template_tag) (t id : Z) :
  snd <$> filter (λ tt, tt.1 = t) (filter (λ tt, tt.2 ≠ id) tts)
  = filter (λ g, g ≠ id) (snd <$> filter (λ tt, tt.1 = t) tts).
Proof.
  induction tts as [|[t' g] tts IH]; [done|].
  rewrite filter_cons. simpl. rewrite (filter_cons _ (t', g)). simpl.
  destruct (decide (g ≠ id)) as [Hg|Hg]; destruct (decide (t' = t)) as [Ht|Ht];
    simpl; rewrite ?filter_cons; simpl;
    rewrite ?decide_True by done; rewrite ?decide_False by done;
    simpl; rewrite ?filter_cons; simpl;
    rewrite ?decide_True by done; rewrite ?decide_False by done;
    try done; try exact IH; f_equal; exact IH.
Qed.

Lemma NoDup_tag_ids (tts : list template_tag) (t : Z) :
  NoDup tts → NoDup (snd <$> filter (λ tt, tt.1 = t) tts).
Proof.
  intros Hnd. apply NoDup_fmap_2_strong; [|by apply NoDup_filter].
  intros [t1 g1] [t2 g2] [H1 _]%list_elem_of_filter [H2 _]%list_elem_of_filter.
  simpl in *. congruence.
Qed.

Lemma length_filter_ne (l : list Z) (x : Z) :
  NoDup l → x ∈ l → length (filter (λ g, g ≠ x) l) + 1 = length l.
Proof.
  induction l as [|a l IH]; [by intros _ ?%elem_of_nil|].
  intros [Ha Hnd]%NoDup_cons Hin. destruct (decide (a = x)) as [->|Hne].
  - rewrite filter_cons_False by (intros ?; done). simpl.
    assert (filter (λ g, g ≠ x) l = l) as ->; [|lia].
    clear -Ha. induction l as [|b l IH]; [done|].
    apply not_elem_of_cons in Ha as [? ?].
    rewrite filter_cons_True by done. by rewrite IH.
  - apply elem_of_cons in Hin as [?|Hin]; [done|].
    rewrite filter_cons_True by done. simpl. rewrite <- (IH Hnd Hin). lia.
Qed.

Lemma filter_id (l : list Z) (x : Z) : x ∉ l → filter (λ g, g ≠ x) l = l.
Proof.
  induction l as [|b l IH]; [done|].
  intros [? ?]%not_elem_of_cons. rewrite filter_cons_True by done. by rewrite IH.
Qed.

Lemma filter_filter_keep (tts : list template_tag) (t : Z) (gone : list Z) :
  t ∉ gone →
  filter (λ tt, tt.1 = t) (filter (λ tt, tt.1 ∉ gone) tts) = filter (λ tt, tt.1 = t) tts.
Proof.
  intros Ht. induction tts as [|[t' g] tts IH]; [done|].
  rewrite filter_cons. simpl. rewrite (filter_cons _ (t', g)). simpl.
  destruct (decide (t' ∉ gone)) as [Hk|Hk]; destruct (decide (t' = t)) as [Heq|Hne];
    simpl; rewrite ?filter_cons; simpl;
    rewrite ?decide_True by done; rewrite ?decide_False by done;
    try done; try exact IH; try (f_equal; exact IH).
  subst t'. done.
Qed.

Lemma filter_none {A} (P : A → Prop) `{∀ x, Decision (P x)} (l : list A) :
  (∀ x, x ∈ l → ¬ P x) → filter P l = [].
Proof.
  induction l as [|a l IH]; [done|]. intros Hall.
  rewrite filter_cons_False by (apply Hall, list_elem_of_here).
  apply IH. intros x Hx. by apply Hall, list_elem_of_further.
Qed.

End cascade_facts.

(** C2.  Deleting an environment deletes exactly the templates that
    reference it (and their junction rows) and leaves every tag and every
    other template, with its tag links, as it was.  Deleting a tag deletes
    that tag and the junction rows that reference it, and nothing else: all
    template and environment rows stay unchanged, and a template that was
    linked to the tag keeps its other links and has exactly one fewer. *)
Theorem delete_cascades (db : schema.DB) (now id : Z) :
  schema.reachable db →
  (let db' := (schema.exec now (schema.DeleteEnvironment id) db).1 in
   (schema.exec now (schema.DeleteEnvironment id) db).2 = None
   ∧ schema.environments db' = schema.others schema.env_id id (schema.environments db)
   ∧ schema.templates db'
     = filter (λ t, schema.tpl_environment_id t ≠ id) (schema.templates db)
   ∧ schema.tags db' = schema.tags db
   ∧ (∀ t, t ∈ schema.templates db' →
           schema.tag_ids_of db' (schema.tpl_id t) = schema.tag_ids_of db (schema.tpl_id t))
   ∧ (∀ t, t ∈ schema.templates db → schema.tpl_environment_id t = id →
           schema.tag_ids_of db' (schema.tpl_id t) = []))
  ∧ (let db' := (schema.exec now (schema.DeleteTag id) db).1 in
     (schema.exec now (schema.DeleteTag id) db).2 = None
     ∧ schema.tags db' = schema.others schema.tag_id id (schema.tags db)
     ∧ schema.templates db' = schema.templates db
     ∧ schema.environments db' = schema.environments db
     ∧ schema.template_tags db' = filter (λ tt, tt.2 ≠ id) (schema.template_tags db)
     ∧ (∀ t, schema.tag_ids_of db' t = filter (λ g, g ≠ id) (schema.tag_ids_of db t))
     ∧ (∀ t, id ∈ schema.tag_ids_of db t →
             length (schema.tag_ids_of db' t) + 1 = length (schema.tag_ids_of db t))
     ∧ (∀ t, id ∉ schema.tag_ids_of db t →
             schema.tag_ids_of db' t = schema.tag_ids_of db t)).
Proof.
  intros Hreach. pose proof (reachable_unique db Hreach) as [].
  split; simpl.
  - repeat split.
    + intros t [Henv Ht]%list_elem_of_filter. unfold schema.tag_ids_of. simpl.
      rewrite filter_filter_keep; [done|].
      intros (t' & Hid & [Henv' Ht']%list_elem_of_filter)%list_elem_of_fmap.
      apply Henv. rewrite (NoDup_fmap_eq schema.tpl_id (schema.templates db) t t'); done.
    + intros t Ht Henv. unfold schema.tag_ids_of. simpl.
      rewrite list_filter_filter.
      match goal with |- snd <$> ?l = [] => assert (l = []) as ->; [|done] end.
      apply filter_none. intros [t' g] _ [Heq Hgone]. simpl in *.
      apply Hgone. subst t'. apply list_elem_of_fmap_2, list_elem_of_filter. done.
  - repeat split.
    + intros t. apply tag_ids_after_delete_tag.
    + intros t Hin. unfold schema.tag_ids_of at 1. simpl.
      rewrite tag_ids_after_delete_tag. apply length_filter_ne; [|done].
      by apply NoDup_tag_ids.
    + intros t Hnot. unfold schema.tag_ids_of at 1. simpl.
      rewrite tag_ids_after_delete_tag. by apply filter_id.
Qed.

Lemma sample_linked_reachable : schema.reachable sample.linked.
Proof. repeat apply run_reachable. constructor. Qed.

Lemma delete_cascades_witness :
  let after_tag := (schema.exec 3000 (schema.DeleteTag 1) sample.linked).1 in
  let after_env := (schema.exec 3000 (schema.DeleteEnvironment 1) sample.linked).1 in
  schema.templates after_tag = schema.templates sample.linked
  ∧ length (schema.tag_ids_of after_tag 1) + 1 = length (schema.tag_ids_of sample.linked 1)
  ∧ schema.templates after_env
    = filter (λ t, schema.tpl_environment_id t ≠ 1%Z) (schema.templates sample.linked)
  ∧ schema.tags after_env = schema.tags sample.linked.
Proof.
  cbv zeta.
  destruct (delete_cascades sample.linked 3000 1)
    as [(_ & _ & Htpls & Htags & _) (_ & _ & Hkeep & _ & _ & _ & Hfewer & _)].
  - exact sample_linked_reachable.
  - split; [exact Hkeep|]. split; [|split; [exact Htpls|exact Htags]].
    apply Hfewer. vm_compute. apply list_elem_of_here.
Defined.

(** The same deletions, evaluated. *)
Example delete_cascades_run :
  let after_tag := (schema.exec 3000 (schema.DeleteTag 1) sample.linked).1 in
  let after_env := (schema.exec 3000 (schema.DeleteEnvironment 1) sample.linked).1 in
  schema.tag_ids_of sample.linked 1 = [1%Z; 2%Z]
  ∧ schema.tag_ids_of after_tag 1 = [2%Z]
  ∧ schema.tpl_name <$> schema.templates after_tag = ["db-config"]
  ∧ schema.templates after_env = []
  ∧ schema.template_tags after_env = []
  ∧ length (schema.tags after_env) = 4%nat.
Proof. vm_compute. done. Qed.

Section timestamp_facts.
Import schema.
Context {A : Type}.

Lemma elem_of_update_row (key : A → Z) (id : Z) (f : A → A) (rows : list A) (r : A) :
  (∀ x, key (f x) = key x) →
  r ∈ update_row key id f rows → key r = id →
  ∃ old, old ∈ rows ∧ key old = id ∧ r = f old.
Proof.
  intros Hkey (old & -> & Hold)%list_elem_of_fmap Hid.
  case_bool_decide as Hold_id.
  - by exists old.
  - done.
Qed.

Lemma find_None_id (key : A → Z) (id : Z) (rows : list A) (r : A) :
  find (λ r, bool_decide (key r = id)) rows = None → r ∈ rows → key r ≠ id.
Proof.
  induction rows as [|x rows IH]; simpl; [by intros _ ?%elem_of_nil|].
  case_bool_decide as Hx; [done|].
  intros Hfind [->|Hin]%elem_of_cons; [done|by apply IH].
Qed.

End timestamp_facts.

(** C3, as stated, fails twice over.  An INSERT that supplies its own
    timestamps gets them stored as supplied: [created_at] and [updated_at]
    differ and neither is the server time.  And an UPDATE in the
    transaction that inserted the row runs with the same [NOW()], so
    [updated_at] is not strictly later than at creation. *)
Lemma updated_at_not_always_server_time :
  let supplied :=
    {| schema.it_id := None; schema.it_name := "release";
       schema.it_description := None; schema.it_color := None;
       schema.it_created_at := Some (Some 100%Z);
       schema.it_updated_at := Some (Some 200%Z) |} in
  let plain :=
    {| schema.it_id := None; schema.it_name := "release";
       schema.it_description := None; schema.it_color := None;
       schema.it_created_at := None; schema.it_updated_at := None |} in
  let recolor :=
    {| schema.ut_name := None; schema.ut_description := None;
       schema.ut_color := Some "#000000";
       schema.ut_created_at := None; schema.ut_updated_at := None |} in
  (let '(db1, e1) := schema.exec 1000 (schema.InsertTag supplied) schema.empty in
   e1 = None
   ∧ schema.tag_created_at <$> schema.tags db1 = [Some 100%Z]
   ∧ schema.tag_updated_at <$> schema.tags db1 = [Some 200%Z])
  ∧ (let '(db1, e1) := schema.exec 1000 (schema.InsertTag plain) schema.empty in
     let '(db2, e2) := schema.exec 1000 (schema.UpdateTag 1 recolor) db1 in
     e1 = None ∧ e2 = None
     ∧ schema.tag_color <$> schema.tags db2 = ["#000000"]
     ∧ schema.tag_updated_at <$> schema.tags db1 = [Some 1000%Z]
     ∧ schema.tag_updated_at <$> schema.tags db2 = [Some 1000%Z]).
Proof. vm_compute. done. Qed.

(** C3, amended.  On each of tags, environments and templates, a
    successful UPDATE leaves the addressed row with [updated_at] equal to
    the [NOW()] of its transaction, whatever its SET list holds, an explicit
    [updated_at] included.  An INSERT that leaves [created_at] and
    [updated_at] out stores the [NOW()] of its transaction in both.  Hence
    [updated_at] is strictly later after an update whose [NOW()] is later
    than the value the row held. *)
Theorem updated_at_maintained (now : Z) (db : schema.DB) :
  (∀ id u r,
      (schema.exec now (schema.UpdateTag id u) db).2 = None →
      r ∈ schema.tags (schema.exec now (schema.UpdateTag id u) db).1 →
      schema.tag_id r = id → schema.tag_updated_at r = Some now)
  ∧ (∀ id u r,
      (schema.exec now (schema.UpdateEnvironment id u) db).2 = None →
      r ∈ schema.environments (schema.exec now (schema.UpdateEnvironment id u) db).1 →
      schema.env_id r = id → schema.env_updated_at r = Some now)
  ∧ (∀ id u r,
      (schema.exec now (schema.UpdateTemplate id u) db).2 = None →
      r ∈ schema.templates (schema.exec now (schema.UpdateTemplate id u) db).1 →
      schema.tpl_id r = id → schema.tpl_updated_at r = Some now)
  ∧ (∀ i, schema.it_created_at i = None → schema.it_updated_at i = None →
      (schema.exec now (schema.InsertTag i) db).2 = None →
      ∃ r, schema.tags (schema.exec now (schema.InsertTag i) db).1 = schema.tags db ++ [r]
           ∧ schema.tag_created_at r = Some now ∧ schema.tag_updated_at r = Some now)
  ∧ (∀ i, schema.ie_created_at i = None → schema.ie_updated_at i = None →
      (schema.exec now (schema.InsertEnvironment i) db).2 = None →
      ∃ r, schema.environments (schema.exec now (schema.InsertEnvironment i) db).1
             = schema.environments db ++ [r]
           ∧ schema.env_created_at r = Some now ∧ schema.env_updated_at r = Some now)
  ∧ (∀ i, schema.itp_created_at i = None → schema.itp_updated_at i = None →
      (schema.exec now (schema.InsertTemplate i) db).2 = None →
      ∃ r, schema.templates (schema.exec now (schema.InsertTemplate i) db).1
             = schema.templates db ++ [r]
           ∧ schema.tpl_created_at r = Some now ∧ schema.tpl_updated_at r = Some now)
  ∧ (∀ id u old new before,
      old ∈ schema.tags db → schema.tag_id old = id →
      schema.tag_updated_at old = Some before → (before < now)%Z →
      (schema.exec now (schema.UpdateTag id u) db).2 = None →
      new ∈ schema.tags (schema.exec now (schema.UpdateTag id u) db).1 →
      schema.tag_id new = id →
      ∃ after, schema.tag_updated_at new = Some after ∧ (before < after)%Z).
Proof.
  assert (Htag : ∀ id u r,
      (schema.exec now (schema.UpdateTag id u) db).2 = None →
      r ∈ schema.tags (schema.exec now (schema.UpdateTag id u) db).1 →
      schema.tag_id r = id → schema.tag_updated_at r = Some now).
  { intros id u r. simpl. unfold schema.exec_update_tag.
    destruct (find _ (schema.tags db)) as [old|] eqn:Hfind.
    - case_bool_decide; [done|]. simpl. intros _ Hr Hid.
      apply elem_of_update_row in Hr as (old' & _ & _ & ->); done.
    - intros _ Hr Hid. by destruct (find_None_id _ _ _ _ Hfind Hr). }
  split; [exact Htag|]. split; [|split; [|split; [|split; [|split]]]].
  - intros id u r. simpl. unfold schema.exec_update_environment.
    destruct (find _ (schema.environments db)) as [old|] eqn:Hfind.
    + destruct (negb _); [done|]. repeat (case_bool_decide; [done|]).
      simpl. intros _ Hr Hid.
      apply elem_of_update_row in Hr as (old' & _ & _ & ->); done.
    + intros _ Hr Hid. by destruct (find_None_id _ _ _ _ Hfind Hr).
  - intros id u r. simpl. unfold schema.exec_update_template.
    destruct (find _ (schema.templates db)) as [old|] eqn:Hfind.
    + repeat (case_bool_decide; [done|]). simpl. intros _ Hr Hid.
      apply elem_of_update_row in Hr as (old' & _ & _ & ->); done.
    + intros _ Hr Hid. by destruct (find_None_id _ _ _ _ Hfind Hr).
  - intros i Hc Hu. simpl. unfold schema.exec_insert_tag.
    destruct (schema.serial _ _) as [id seq]. simpl.
    repeat (case_bool_decide; [done|]). simpl. intros _.
    eexists. split; [done|]. simpl. by rewrite Hc, Hu.
  - intros i Hc Hu. simpl. unfold schema.exec_insert_environment.
    destruct (schema.serial _ _) as [id seq]. simpl.
    destruct (negb _); [done|]. repeat (case_bool_decide; [done|]). simpl. intros _.
    eexists. split; [done|]. simpl. by rewrite Hc, Hu.
  - intros i Hc Hu. simpl. unfold schema.exec_insert_template.
    destruct (schema.serial _ _) as [id seq].
    repeat (case_bool_decide; [done|]). simpl. intros _.
    eexists. split; [done|]. simpl. by rewrite Hc, Hu.
  - intros id u old new before _ _ _ Hlater Hok Hnew Hid.
    exists now. split; [|done]. by eapply Htag.
Qed.

(** An insert at server time 1000 and an update at 2000, evaluated. *)
Example updated_at_advances :
  let plain :=
    {| schema.it_id := None; schema.it_name := "release";
       schema.it_description := None; schema.it_color := None;
       schema.it_created_at := None; schema.it_updated_at := None |} in
  let backdate :=
    {| schema.ut_name := None; schema.ut_description := Some (Some "notes");
       schema.ut_color := None;
       schema.ut_created_at := None; schema.ut_updated_at := Some (Some 5%Z) |} in
  let db1 := (schema.exec 1000 (schema.InsertTag plain) schema.empty).1 in
  let db2 := (schema.exec 2000 (schema.UpdateTag 1 backdate) db1).1 in
  schema.tag_created_at <$> schema.tags db1 = [Some 1000%Z]
  ∧ schema.tag_updated_at <$> schema.tags db1 = [Some 1000%Z]
  ∧ schema.tag_created_at <$> schema.tags db2 = [Some 1000%Z]
  ∧ schema.tag_updated_at <$> schema.tags db2 = [Some 2000%Z].
Proof. vm_compute. done. Qed.

(** ** Validation of write requests *)

Example semver_samples :
  validation.is_semver "1.0.0" = true
  ∧ validation.is_semver "1.0.1-rc.1+build.7" = true
  ∧ validation.is_semver "1.0" = false
  ∧ validation.is_semver "01.0.0" = false
  ∧ validation.is_semver "v1.0.0" = false
  ∧ validation.is_hexcolor "#6b7280" = true
  ∧ validation.is_hexcolor "6b7280" = false
  ∧ validation.is_hexcolor "#6b728" = false
  ∧ validation.is_alphanum "dev" = true
  ∧ validation.is_alphanum "pre-prod" = false.
Proof. vm_compute. done. Qed.

Section validation_facts.
Import request validation.

Lemma collect_absent (l : list Field) (k : string) :
  k ∉ name <$> l → collect l !! k = None.
Proof.
  induction l as [|a l IH]; simpl; [done|].
  intros [Hne Hk]%not_elem_of_cons.
  destruct (check (tag a) (value a)); [|by apply IH].
  rewrite lookup_insert_ne by done. by apply IH.
Qed.

(** Each field's entry is the reason of the rule it breaks, if any. *)
Lemma collect_lookup (l : list Field) (f : Field) :
  NoDup (name <$> l) → f ∈ l →
  collect l !! name f = reason <$> check (tag f) (value f).
Proof.
  induction l as [|a l IH]; simpl; [by intros _ ?%elem_of_nil|].
  intros [Ha Hnd]%NoDup_cons [->|Hin]%elem_of_cons.
  - destruct (check (tag a) (value a)); simpl.
    + by rewrite lookup_insert_eq.
    + by apply collect_absent.
  - assert (name a ≠ name f) by (intros Heq; apply Ha; rewrite Heq;
                                  by apply list_elem_of_fmap_2).
    destruct (check (tag a) (value a)); [rewrite lookup_insert_ne by done|];
      by apply IH.
Qed.

Lemma WriteRequest_names_NoDup (w : WriteRequest) : NoDup (name <$> fields w).
Proof.
  destruct w; simpl; repeat (apply NoDup_cons; split; [|]);
    try apply NoDup_nil_2;
    rewrite ?elem_of_cons, ?elem_of_nil; intros Hin;
    repeat (destruct Hin as [Hin|Hin]; [discriminate Hin|]); done.
Qed.

Lemma reason_nonempty (r : Rule) : reason r ≠ "".
Proof. by destruct r. Qed.

End validation_facts.



(** Both broken fields of that request are reported, the sound one is not. *)
Example two_violations_reported :
  let bad := request.CreateTag {| request.ct_Name := ""; request.ct_Description := "";
                                  request.ct_Color := "red" |} in
  validation.Struct bad !! "name" = Some "is required"
  ∧ validation.Struct bad !! "color" = Some "must be a hex color"
  ∧ validation.Struct bad !! "description" = None.
Proof. vm_compute. done. Qed.

(** ** JSON documents *)

Section json_facts.
Import json.

Lemma compare_Lt_Gt (a b : bytes) : compare a b = Lt → compare b a = Gt.
Proof.
  revert b. induction a as [|x a IH]; intros [|y b]; simpl; try done.
  rewrite (N.compare_antisym (byte x) (byte y)).
  destruct (N.compare (byte x) (byte y)); simpl; auto; done.
Qed.

Lemma insert_last (k : bytes) (v : value) (m : list (bytes * value)) :
  Forall (λ kx, key_lt kx (k, v)) m → insert k v m = m ++ [(k, v)].
Proof.
  induction 1 as [|[k' v'] m Hlt _ IH]; simpl; [done|].
  unfold key_lt in Hlt. simpl in Hlt. rewrite (compare_Lt_Gt _ _ Hlt). by rewrite IH.
Qed.

(** Storing entries that come in increasing key order appends them. *)
Lemma store_sorted (acc m : list (bytes * value)) :
  StronglySorted key_lt (acc ++ m) → store acc m = acc ++ m.
Proof.
  revert acc. induction m as [|[k v] m IH]; intros acc Hs; simpl.
  - by rewrite app_nil_r.
  - unfold store in *. simpl. rewrite insert_last.
    + rewrite IH; rewrite <- (assoc_L (++)); done.
    + apply Forall_forall. intros kx Hkx.
      eapply StronglySorted_app_1_elem_of; [exact Hs|done|apply list_elem_of_here].
Qed.

Lemma byte_inj (c : ascii) (n : N) : byte c = n → c = of_byte n.
Proof. intros <-. unfold of_byte, byte. by rewrite ascii_N_embedding. Qed.

(** Reading back what [escape_byte] wrote gives the byte. *)
Lemma decode_escape_byte (c : ascii) (rest : bytes) :
  decode_chars (escape_byte c ++ rest) = prepend [c] (decode_chars rest).
Proof. destruct c as [[] [] [] [] [] [] [] []]; reflexivity. Qed.

Lemma decode_line_separator (c c1 c2 d : ascii) (rest : bytes) :
  line_separator c c1 c2 = Some d →
  decode_chars ([backslash; "u"; "2"; "0"; "2"; d]%char ++ rest)
  = prepend [c; c1; c2] (decode_chars rest).
Proof.
  unfold line_separator.
  destruct (bool_decide (byte c = 226%N)) eqn:Hc; [|done].
  destruct (bool_decide (byte c1 = 128%N)) eqn:Hc1; [|done]. simpl.
  apply bool_decide_eq_true, byte_inj in Hc, Hc1. subst c c1.
  destruct (bool_decide (byte c2 = 168%N)) eqn:Hc2.
  { apply bool_decide_eq_true, byte_inj in Hc2. subst c2. by intros [= <-]. }
  destruct (bool_decide (byte c2 = 169%N)) eqn:Hc3; [|done].
  apply bool_decide_eq_true, byte_inj in Hc3. subst c2. by intros [= <-].
Qed.

Lemma escape_unfold (c : ascii) (rest : bytes) :
  escape (c :: rest)
  = match rest with
    | c1 :: c2 :: rest2 =>
        match line_separator c c1 c2 with
        | Some d => [backslash; "u"; "2"; "0"; "2"; d]%char ++ escape rest2
        | None => escape_byte c ++ escape rest
        end
    | _ => escape_byte c ++ escape rest
    end.
Proof. by destruct rest as [|? [|? ?]]. Qed.

(** A string literal reads back as the string it was written from. *)
Lemma decode_chars_escape (s rest : bytes) :
  decode_chars (escape s ++ quote :: rest) = Some (s, rest).
Proof.
  remember (length s) as n eqn:Hn. assert (Hlen : length s ≤ n) by lia. clear Hn.
  revert s Hlen. induction n as [|n IH]; intros s Hlen.
  { destruct s; [done|simpl in Hlen; lia]. }
  destruct s as [|c s]; [done|]. rewrite escape_unfold.
  assert (Hplain : decode_chars ((escape_byte c ++ escape s) ++ quote :: rest)
                   = Some (c :: s, rest)).
  { rewrite <- (assoc_L (++)), decode_escape_byte, IH by (simpl in Hlen; lia). done. }
  destruct s as [|c1 [|c2 s2]]; try exact Hplain.
  destruct (line_separator c c1 c2) as [d|] eqn:Hsep; [|exact Hplain].
  rewrite <- (assoc_L (++)), (decode_line_separator c c1 c2 d) by done.
  rewrite IH by (simpl in Hlen; lia). done.
Qed.

Lemma skip_space_head (c : ascii) (rest : bytes) :
  is_space c = false → skip_space (c :: rest) = c :: rest.
Proof. intros H. simpl. by rewrite H. Qed.

Lemma span_all (p : ascii → bool) (text rest : bytes) :
  forallb p text = true →
  match rest with [] => True | c :: _ => p c = false end →
  span p (text ++ rest) = (text, rest).
Proof.
  intros Hall Hrest. induction text as [|c text IH]; simpl.
  - destruct rest as [|c rest]; [done|]. simpl. by rewrite Hrest.
  - simpl in Hall. apply andb_true_iff in Hall as [Hc Hall].
    rewrite Hc, (IH Hall). done.
Qed.

Lemma terminated_not_number (rest : bytes) :
  terminated rest → match rest with [] => True | c :: _ => number_byte c = false end.
Proof.
  destruct rest as [|c rest]; [done|]. simpl.
  rewrite !elem_of_cons, elem_of_nil. intros [->|[->|[->|[]]]]; reflexivity.
Qed.

Lemma is_number_head (text : bytes) :
  is_number text = true →
  ∃ c r, text = c :: r ∧ (is_digit c || bool_decide (c = "-"%char)) = true.
Proof.
  destruct text as [|c r]; [done|]. intros H. exists c, r. split; [done|].
  unfold is_number in H.
  destruct c as [[] [] [] [] [] [] [] []]; try reflexivity; simpl in H; discriminate H.
Qed.

(** Every encoded value starts with the byte that selects its kind. *)
Lemma encode_head (v : value) :
  well_formed v → ∃ c r, encode v = c :: r ∧ opens v c.
Proof.
  destruct v as [|[]|text|s|items|members]; simpl; intros Hwf;
    try (by eexists _, _).
  destruct (is_number_head text (proj1 Hwf)) as (c & r & -> & Hc). by exists c, r.
Qed.

Lemma opens_plain (v : value) (c : ascii) :
  opens v c → is_space c = false ∧ c ≠ "]"%char ∧ c ≠ "}"%char.
Proof.
  destruct v as [|[]|text|s|items|members]; simpl; try (by intros ->).
  destruct c as [[] [] [] [] [] [] [] []]; try done.
Qed.

Lemma value_induction (P : value → Prop) :
  P Null → (∀ b, P (Bool b)) → (∀ text, P (Number text)) → (∀ s, P (String s)) →
  (∀ items, Forall P items → P (Array items)) →
  (∀ members, Forall (λ kx, P kx.2) members → P (Object members)) →
  ∀ v, P v.
Proof.
  intros HNull HBool HNumber HString HArray HObject. fix IH 1.
  intros [|b|text|s|items|members].
  - exact HNull.
  - exact (HBool b).
  - exact (HNumber text).
  - exact (HString s).
  - apply HArray. induction items as [|x items IHitems]; constructor;
      [apply IH|exact IHitems].
  - apply HObject. induction members as [|[k x] members IHmembers]; constructor;
      [apply IH|exact IHmembers].
Qed.

Lemma encode_Array (items : list value) :
  encode (Array items) = "["%char :: encode_items items ++ ["]"%char].
Proof. reflexivity. Qed.

Lemma encode_Object (members : list (bytes * value)) :
  encode (Object members) = "{"%char :: encode_members members ++ ["}"%char].
Proof. reflexivity. Qed.

Lemma encode_items_cons (x : value) (items : list value) :
  encode_items (x :: items)
  = match items with
    | [] => encode x
    | _ :: _ => encode x ++ ","%char :: encode_items items
    end.
Proof. by destruct items. Qed.

Lemma encode_members_cons (k : bytes) (x : value) (members : list (bytes * value)) :
  encode_members ((k, x) :: members)
  = match members with
    | [] => encode_string k ++ ":"%char :: encode x
    | _ :: _ => encode_string k ++ ":"%char :: encode x ++ ","%char :: encode_members members
    end.
Proof. by destruct members. Qed.

Lemma well_formed_items (items : list value) :
  foldr (λ x p, well_formed x ∧ p) True items → Forall well_formed items.
Proof. induction items as [|x items IH]; simpl; [done|]. intros [? ?]. auto. Qed.

Lemma well_formed_members (members : list (bytes * value)) :
  foldr (λ kx p, well_formed kx.2 ∧ p) True members →
  Forall (λ kx, well_formed kx.2) members.
Proof. induction members as [|x members IH]; simpl; [done|]. intros [? ?]. auto. Qed.

Lemma height_items (items : list value) :
  Forall (λ x, height x ≤ foldr (λ x h, Nat.max (height x) h) 0 items) items.
Proof.
  induction items as [|x items IH]; simpl; constructor; [lia|].
  eapply Forall_impl; [exact IH|]. simpl. intros; lia.
Qed.

Lemma height_members (members : list (bytes * value)) :
  Forall (λ kx, height kx.2 ≤ foldr (λ kx h, Nat.max (height kx.2) h) 0 members) members.
Proof.
  induction members as [|x members IH]; simpl; constructor; [lia|].
  eapply Forall_impl; [exact IH|]. simpl. intros; lia.
Qed.

Lemma decode_S (fuel depth : nat) (input : bytes) :
  decode (S fuel) depth input
  = match skip_space input with
    | [] => None
    | c :: rest =>
        if bool_decide (c = quote) then
          '(s, r) ← decode_chars rest; Some (String s, r)
        else if bool_decide (c = "["%char) then
          if bool_decide (maxNestingDepth ≤ depth)%nat then None
          else match skip_space rest with
               | c' :: r =>
                   if bool_decide (c' = "]"%char) then Some (Array [], r)
                   else '(items, r') ← decode_items fuel (S depth) rest;
                        Some (Array items, r')
               | [] => None
               end
        else if bool_decide (c = "{"%char) then
          if bool_decide (maxNestingDepth ≤ depth)%nat then None
          else match skip_space rest with
               | c' :: r =>
                   if bool_decide (c' = "}"%char) then Some (Object [], r)
                   else '(members, r') ← decode_members fuel (S depth) rest;
                        Some (Object (store [] members), r')
               | [] => None
               end
        else if bool_decide (c = "n"%char) then r ← strip "ull" rest; Some (Null, r)
        else if bool_decide (c = "t"%char) then r ← strip "rue" rest; Some (Bool true, r)
        else if bool_decide (c = "f"%char) then r ← strip "alse" rest; Some (Bool false, r)
        else if is_digit c || bool_decide (c = "-"%char) then
          let '(text, r) := span number_byte (c :: rest) in
          if is_number text then Some (Number text, r) else None
        else None
    end.
Proof. reflexivity. Qed.

Lemma decode_items_S (fuel depth : nat) (input : bytes) :
  decode_items (S fuel) depth input
  = '(v, r) ← decode fuel depth input;
    match skip_space r with
    | c :: r' =>
        if bool_decide (c = ","%char) then
          '(vs, r'') ← decode_items fuel depth r'; Some (v :: vs, r'')
        else if bool_decide (c = "]"%char) then Some ([v], r')
        else None
    | [] => None
    end.
Proof. reflexivity. Qed.

Lemma decode_members_S (fuel depth : nat) (input : bytes) :
  decode_members (S fuel) depth input
  = match skip_space input with
    | q :: r0 =>
        if bool_decide (q = quote) then
          '(k, r1) ← decode_chars r0;
          match skip_space r1 with
          | colon :: r2 =>
              if bool_decide (colon = ":"%char) then
                '(v, r3) ← decode fuel depth r2;
                match skip_space r3 with
                | c :: r4 =>
                    if bool_decide (c = ","%char) then
                      '(ms, r5) ← decode_members fuel depth r4; Some ((k, v) :: ms, r5)
                    else if bool_decide (c = "}"%char) then Some ([(k, v)], r4)
                    else None
                | [] => None
                end
              else None
          | [] => None
          end
        else None
    | [] => None
    end.
Proof. reflexivity. Qed.

(** A digit or a minus sign selects the number branch of [decode]. *)
Lemma decode_number_branch (fuel depth : nat) (c : ascii) (rest : bytes) :
  (is_digit c || bool_decide (c = "-"%char)) = true →
  decode (S fuel) depth (c :: rest)
  = let '(text, r) := span number_byte (c :: rest) in
    if is_number text then Some (Number text, r) else None.
Proof.
  intros Hc. rewrite decode_S.
  destruct c as [[] [] [] [] [] [] [] []]; try discriminate Hc; reflexivity.
Qed.

Lemma encode_nonempty (v : value) : well_formed v → 1 ≤ length (encode v).
Proof. intros (c & r & -> & _)%encode_head. simpl. lia. Qed.

Lemma decode_items_encode (items : list value) :
  Forall reads_back items → items ≠ [] →
  ∀ fuel depth rest,
    Forall well_formed items →
    length (encode_items items) < fuel →
    Forall (λ x, depth + height x ≤ maxNestingDepth) items →
    decode_items fuel depth (encode_items items ++ "]"%char :: rest) = Some (items, rest).
Proof.
  induction 1 as [|x items Hx Hitems IH]; [done|].
  intros _ fuel depth rest Hwf Hlen Hh.
  destruct fuel as [|fuel]; [lia|]. rewrite decode_items_S.
  rewrite encode_items_cons in Hlen |- *.
  apply Forall_cons in Hwf as [Hwfx Hwf]. apply Forall_cons in Hh as [Hhx Hh].
  pose proof (encode_nonempty x Hwfx) as Hne.
  destruct items as [|y items].
  - rewrite (Hx fuel depth ("]"%char :: rest)); [done|done|lia|done|].
    simpl. rewrite !elem_of_cons. auto.
  - remember (encode_items (y :: items)) as tail eqn:Htail.
    rewrite length_app in Hlen. simpl in Hlen.
    rewrite <- (assoc_L (++)). simpl.
    rewrite (Hx fuel depth); [|done|lia|done|].
    2: { simpl. rewrite !elem_of_cons. auto. }
    simpl. subst tail. rewrite IH; [done|done|done|lia|done].
Qed.

Lemma member_text (k text rest : bytes) :
  (encode_string k ++ ":"%char :: text) ++ rest
  = quote :: escape k ++ quote :: ":"%char :: text ++ rest.
Proof. unfold encode_string. simpl. by rewrite <- !(assoc_L (++)). Qed.

(** Reading a member whose key was written from [k]. *)
Lemma decode_members_key (fuel depth : nat) (k tail : bytes) :
  decode_members (S fuel) depth (quote :: escape k ++ quote :: ":"%char :: tail)
  = '(v, r3) ← decode fuel depth tail;
    match skip_space r3 with
    | c :: r4 =>
        if bool_decide (c = ","%char) then
          '(ms, r5) ← decode_members fuel depth r4; Some ((k, v) :: ms, r5)
        else if bool_decide (c = "}"%char) then Some ([(k, v)], r4)
        else None
    | [] => None
    end.
Proof.
  rewrite decode_members_S, skip_space_head by reflexivity.
  rewrite bool_decide_eq_true_2 by done.
  rewrite decode_chars_escape. reflexivity.
Qed.

Lemma decode_members_encode (members : list (bytes * value)) :
  Forall (λ kx, reads_back kx.2) members → members ≠ [] →
  ∀ fuel depth rest,
    Forall (λ kx, well_formed kx.2) members →
    length (encode_members members) < fuel →
    Forall (λ kx, depth + height kx.2 ≤ maxNestingDepth) members →
    decode_members fuel depth (encode_members members ++ "}"%char :: rest)
    = Some (members, rest).
Proof.
  induction 1 as [|[k x] members Hx Hmembers IH]; [done|].
  intros _ fuel depth rest Hwf Hlen Hh.
  destruct fuel as [|fuel]; [lia|].
  rewrite encode_members_cons in Hlen |- *.
  apply Forall_cons in Hwf as [Hwfx Hwf]. apply Forall_cons in Hh as [Hhx Hh].
  simpl in Hx, Hwfx, Hhx.
  pose proof (encode_nonempty x Hwfx) as Hne.
  destruct members as [|y members].
  - rewrite length_app in Hlen. simpl in Hlen.
    rewrite member_text, decode_members_key.
    rewrite (Hx fuel depth ("}"%char :: rest)); [done|done|lia|done|].
    simpl. rewrite !elem_of_cons. auto.
  - remember (encode_members (y :: members)) as tail eqn:Htail.
    repeat (rewrite length_app in Hlen; simpl in Hlen).
    rewrite member_text, decode_members_key.
    rewrite <- (assoc_L (++)). simpl.
    rewrite (Hx fuel depth); [|done|lia|done|].
    2: { simpl. rewrite !elem_of_cons. auto. }
    simpl. subst tail. rewrite IH; [done|done|done|lia|done].
Qed.

Lemma Forall_height_le (depth bound : nat) (items : list value) :
  depth + S (foldr (λ x h, Nat.max (height x) h) 0 items) ≤ bound →
  Forall (λ x, S depth + height x ≤ bound) items.
Proof.
  intros Hle. eapply Forall_impl; [apply height_items|]. simpl. intros x Hx. lia.
Qed.

Lemma Forall_height_members_le (depth bound : nat) (members : list (bytes * value)) :
  depth + S (foldr (λ kx h, Nat.max (height kx.2) h) 0 members) ≤ bound →
  Forall (λ kx, S depth + height kx.2 ≤ bound) members.
Proof.
  intros Hle. eapply Forall_impl; [apply height_members|]. simpl. intros x Hx. lia.
Qed.

(** Every well-formed value reads back from its encoding. *)
Lemma decode_encode (v : value) : reads_back v.
Proof.
  induction v as [|b|text|s|items IH|members IH] using value_induction;
    intros fuel depth rest Hwf Hlen Hdepth Hrest;
    (destruct fuel as [|fuel];
     [pose proof (encode_nonempty _ Hwf); lia|]).
  - reflexivity.
  - destruct b; reflexivity.
  - destruct Hwf as [Hnum Hbytes].
    destruct (is_number_head text Hnum) as (c & r & Htext & Hc).
    simpl encode. rewrite Htext. simpl app. rewrite decode_number_branch by done.
    change (c :: r ++ rest) with ((c :: r) ++ rest). rewrite <- Htext.
    rewrite (span_all number_byte text rest Hbytes (terminated_not_number _ Hrest)).
    by rewrite Hnum.
  - simpl encode. unfold encode_string. simpl app. rewrite decode_S.
    rewrite skip_space_head by reflexivity.
    rewrite bool_decide_eq_true_2 by done.
    rewrite <- (assoc_L (++)). simpl app. by rewrite decode_chars_escape.
  - rewrite encode_Array in Hlen |- *. simpl in Hlen. rewrite length_app in Hlen.
    simpl in Hlen. simpl app. rewrite <- (assoc_L (++)). simpl app.
    rewrite decode_S, skip_space_head by reflexivity.
    rewrite (bool_decide_eq_false_2 (_ = quote)) by done.
    rewrite (bool_decide_eq_true_2 (_ = "["%char)) by done.
    simpl in Hdepth. rewrite bool_decide_eq_false_2 by lia.
    destruct items as [|x items]; [reflexivity|].
    apply (well_formed_items (x :: items)) in Hwf.
    pose proof (Forall_inv Hwf) as Hwfx.
    destruct (encode_head x Hwfx) as (c & r & Hhead & Hopens).
    apply opens_plain in Hopens as (Hspace & Hclose & _).
    assert (Hfirst : ∃ r', encode_items (x :: items) ++ "]"%char :: rest = c :: r').
    { rewrite encode_items_cons. destruct items; rewrite Hhead; simpl; by eexists. }
    destruct Hfirst as [r' Hfirst]. rewrite Hfirst, skip_space_head by done.
    rewrite bool_decide_eq_false_2 by done. rewrite <- Hfirst.
    rewrite decode_items_encode; [done|done|done|done|lia|].
    by apply Forall_height_le.
  - rewrite encode_Object in Hlen |- *. simpl in Hlen. rewrite length_app in Hlen.
    simpl in Hlen. simpl app. rewrite <- (assoc_L (++)). simpl app.
    rewrite decode_S, skip_space_head by reflexivity.
    rewrite (bool_decide_eq_false_2 (_ = quote)) by done.
    rewrite (bool_decide_eq_false_2 (_ = "["%char)) by done.
    rewrite (bool_decide_eq_true_2 (_ = "{"%char)) by done.
    simpl in Hdepth. rewrite bool_decide_eq_false_2 by lia.
    destruct members as [|[k x] members]; [reflexivity|].
    destruct Hwf as [Hsorted Hwf].
    apply (well_formed_members ((k, x) :: members)) in Hwf.
    assert (Hfirst : ∃ r', encode_members ((k, x) :: members) ++ "}"%char :: rest
                           = quote :: r').
    { rewrite encode_members_cons. destruct members; simpl; by eexists. }
    destruct Hfirst as [r' Hfirst]. rewrite Hfirst, skip_space_head by reflexivity.
    rewrite bool_decide_eq_false_2 by done. rewrite <- Hfirst.
    rewrite decode_members_encode; [|done|done|done|lia|].
    + cbn [mbind option_bind]. by rewrite (store_sorted [] ((k, x) :: members)).
    + by apply Forall_height_members_le.
Qed.

(** The decoder reads an encoded map back as the same map. *)
Lemma parse_encode (members : list (bytes * value)) :
  well_formed (Object members) → height (Object members) ≤ maxNestingDepth →
  parse (encode (Object members)) = Some (Object members).
Proof.
  intros Hwf Hheight. unfold parse.
  pose proof (decode_encode (Object members)
                (S (length (encode (Object members)))) 0 [] Hwf) as Hread.
  rewrite app_nil_r in Hread. rewrite Hread; [done|lia|done|done].
Qed.

End json_facts.



(** The text [Value] stores for that document, and what a read into a map
    that already holds an entry gives: the old entry stays. *)
Example JSONMap_samples :
  (model.JSONMap_Value sample.schema_document).1
  = driver.Bytes
      (json.lit "{" ++ [json.quote] ++ json.lit "port" ++ [json.quote]
       ++ json.lit ":5432," ++ [json.quote] ++ json.lit "tags" ++ [json.quote]
       ++ json.lit ":[" ++ [json.quote] ++ json.lit "a\u003cb" ++ [json.quote]
       ++ json.lit ",null,{}]}")
  ∧ model.JSONMap_Scan (Some [(json.lit "old", json.Null)])
      (model.JSONMap_Value sample.schema_document).1
    = (Some ((json.lit "old", json.Null) :: model.entries sample.schema_document), nil)
  ∧ (model.JSONMap_Scan None (driver.String "{}")).2
    = Some "cannot scan string into JSONMap".
Proof. vm_compute. done. Qed.

(* ===================================================================== *)
(** * Part II, continued: further properties                              *)
(* ===================================================================== *)

(** ** ConfigFormat and JSONMap, as values of a column *)

(** X1.  What [ConfigFormat.Value] hands to the driver, a string, scans back
    to the format it came from, whatever that format is and whatever the
    receiver held; a [Scan] that fails leaves the receiver as it was; and
    the same text handed over as bytes is refused. *)
Theorem ConfigFormat_Value_Scan_round_trip :
  (∀ cf old, ∃ v, model.ConfigFormat_Value cf = (v, nil)
                  ∧ model.ConfigFormat_Scan old v = (cf, nil))
  ∧ (∀ cf v cf' e, model.ConfigFormat_Scan cf v = (cf', Some e) → cf' = cf)
  ∧ (∀ cf old, model.ConfigFormat_Scan old
                 (driver.Bytes (String.list_ascii_of_string cf))
               = (old, Some "cannot scan []uint8 into ConfigFormat")).
Proof.
  split; [|split].
  - intros cf old. by eexists.
  - intros cf v cf' e. destruct v; simpl; intros [= <- <-]; done.
  - done.
Qed.

Section jsonmap_facts.
Import json.

Lemma byte_eq (x y : ascii) : byte x = byte y → x = y.
Proof. intros H. apply byte_inj in H. rewrite H. symmetry. by apply byte_inj. Qed.

Lemma compare_refl (a : bytes) : compare a a = Eq.
Proof. induction a as [|x a IH]; [done|]. simpl. by rewrite N.compare_refl. Qed.

Lemma compare_Eq (a b : bytes) : compare a b = Eq → a = b.
Proof.
  revert b. induction a as [|x a IH]; intros [|y b]; simpl; try done.
  destruct (N.compare (byte x) (byte y)) eqn:Hc; try done.
  apply N.compare_eq in Hc. apply byte_eq in Hc as ->. intros H. f_equal. by apply IH.
Qed.

Lemma find_key_insert (k k' : bytes) (v : value) (m : list (bytes * value)) :
  find (λ kv : bytes * value, bool_decide (kv.1 = k')) (insert k v m)
  = if decide (k' = k) then Some (k, v)
    else find (λ kv : bytes * value, bool_decide (kv.1 = k')) m.
Proof.
  induction m as [|[k1 v1] m IH]; simpl.
  - destruct (decide (k' = k)) as [->|Hne].
    + by rewrite bool_decide_true.
    + by rewrite bool_decide_false.
  - destruct (compare k k1) eqn:Hc; simpl.
    + apply compare_Eq in Hc as <-.
      destruct (decide (k' = k)) as [->|Hne].
      * by rewrite bool_decide_true.
      * by rewrite !bool_decide_false.
    + destruct (decide (k' = k)) as [->|Hne].
      * by rewrite bool_decide_true.
      * by rewrite (bool_decide_false (k = k')).
    + assert (k1 ≠ k) as Hk by (intros ->; by rewrite compare_refl in Hc).
      rewrite IH. destruct (decide (k' = k)) as [->|Hne]; [|done].
      by rewrite bool_decide_false.
Qed.

Lemma get_insert (k k' : bytes) (v : value) (m : list (bytes * value)) :
  jsonmap.get k' (Some (insert k v m))
  = if decide (k' = k) then Some v else jsonmap.get k' (Some m).
Proof.
  unfold jsonmap.get. simpl. rewrite find_key_insert. by destruct (decide (k' = k)).
Qed.

Lemma get_store (k : bytes) (members m : list (bytes * value)) :
  jsonmap.get k (Some (store m members))
  = match jsonmap.member k members with
    | Some v => Some v
    | None => jsonmap.get k (Some m)
    end.
Proof.
  unfold store, jsonmap.member. revert m.
  induction members as [|[k1 v1] members IH] using rev_ind; intros m; [done|].
  rewrite foldl_app, reverse_snoc. simpl foldl. rewrite get_insert.
  unfold jsonmap.get at 2. simpl.
  destruct (decide (k = k1)) as [->|Hne].
  - by rewrite bool_decide_true.
  - rewrite bool_decide_false by done. apply IH.
Qed.

End jsonmap_facts.




(** ** The health probe and the list endpoints, on their success paths *)

(** X4.  [Health] answers 200 with overall status [healthy] exactly when
    both dependencies answer, and 503 with [unhealthy] otherwise, the same
    code [Readiness] gives; it logs nothing; its body names the version and
    has exactly the entries [database] and [redis], each with the latency
    measured for it; and the entry of a failed dependency carries the
    error's text, for the store behind the health check's prefix. *)
Theorem Health_reports_each_dependency (version : string) (d : health.Deps)
    (cdb credis : health.Clock) :
  let r := health.Health version d cdb credis in
  (health.code r = http.StatusOK ↔ health.all_up d = true)
  ∧ (health.code r = http.StatusServiceUnavailable ↔ health.all_up d = false)
  ∧ health.code r = health.code (health.Readiness d)
  ∧ health.logged r = []
  ∧ ∃ resp, health.body r = health.HealthBody resp
      ∧ model.Version resp = version
      ∧ (model.HStatus resp = "healthy" ↔ health.all_up d = true)
      ∧ (model.HStatus resp = "unhealthy" ↔ health.all_up d = false)
      ∧ dom (model.Services resp) = {["database"; "redis"]}
      ∧ (∀ e, health.db_ping d = Some e →
              model.HMessage <$> model.Services resp !! "database"
              = Some ("database health check failed: " +:+ e))
      ∧ (∀ e, health.redis_ping d = Some e →
              model.HMessage <$> model.Services resp !! "redis" = Some e)
      ∧ (model.Latency <$> model.Services resp !! "database" = Some (health.latency cdb))
      ∧ (model.Latency <$> model.Services resp !! "redis" = Some (health.latency credis)).
Proof.
  destruct d as [[e1|] [e2|]]; simpl;
    (split; [by split|]); (split; [by split|]); (split; [done|]); (split; [done|]);
    eexists; (split; [reflexivity|]); simpl;
    (split; [done|]); (split; [by split|]); (split; [by split|]);
    (split; [by rewrite !dom_insert_L, dom_empty_L; set_solver|]);
    (split; [by intros ? [= <-]|]); (split; [by intros ? [= <-]|]); done.
Qed.

Lemma collect_all {row} (f : row → api.any) (rows : list row) (acc : list api.any) :
  api.collect f (inr <$> rows) acc = inr (acc ++ (f <$> rows)).
Proof.
  revert acc. induction rows as [|r rows IH]; intros acc; simpl.
  - by rewrite app_nil_r.
  - by rewrite IH, <- app_assoc.
Qed.

(** X5.  When the query and every row scan succeed, both list handlers
    answer 200 with one document per row, in the order of the rows, and a
    [total] equal to the number of rows. *)
Theorem list_handlers_return_every_row :
  (∀ rows : list api.EnvironmentRow,
      api.getEnvironments (inr (inr <$> rows))
      = {| api.status := http.StatusOK;
           api.payload :=
             api.H [("environments", api.List (api.environment_H <$> rows));
                    ("total", api.Int (Z.of_nat (length rows)))];
           api.logged := [] |})
  ∧ (∀ rows : list api.TagRow,
      api.getTags (inr (inr <$> rows))
      = {| api.status := http.StatusOK;
           api.payload :=
             api.H [("tags", api.List (api.tag_H <$> rows));
                    ("total", api.Int (Z.of_nat (length rows)))];
           api.logged := [] |}).
Proof.
  split; intros rows; unfold api.getEnvironments, api.getTags, api.list_handler;
    rewrite collect_all; simpl; by rewrite length_fmap.
Qed.

(** ** The migration runner: plans, failures, forced versions *)

Section migrate_more.
Import migrate.

Lemma readUp_loop_items (fuel : nat) (src : Source) (from limit count : Z) :
  Forall (λ it, match it with
                | Migr m => TargetVersion m = Z.of_nat (Version m)
                | Fail (ErrRun _ _) => False
                | Fail _ => True
                end) (readUp_loop fuel src from limit count).
Proof.
  revert from count. induction fuel as [|fuel IH]; intros from count; [constructor|].
  simpl. destruct (negb _); [constructor|].
  case_bool_decide.
  - destruct (First src); repeat constructor. apply IH.
  - destruct (Next src (Z.to_nat from)).
    + constructor; [done|apply IH].
    + repeat (case_match; try by repeat constructor).
Qed.

Lemma readUp_items (src : Source) (from limit : Z) :
  Forall (λ it, match it with
                | Migr m => TargetVersion m = Z.of_nat (Version m)
                | Fail (ErrRun _ _) => False
                | Fail _ => True
                end) (readUp src from limit).
Proof.
  unfold readUp. destruct (if bool_decide _ then _ else _) as [e|] eqn:He.
  - repeat constructor. destruct (bool_decide (0 ≤ from)%Z); [|done].
    unfold versionExists in He.
    destruct (ReadUp _ _); [done|]. destruct (ReadDown _ _); [done|].
    by injection He as <-.
  - destruct (bool_decide (limit = 0)%Z); [by repeat constructor|apply readUp_loop_items].
Qed.

Lemma runMigrations_up_failure (items : list Item) (db db' : Database) (d : Direction) (w : nat) :
  Forall (λ it, match it with
                | Migr m => TargetVersion m = Z.of_nat (Version m)
                | Fail (ErrRun _ _) => False
                | Fail _ => True
                end) items →
  runMigrations db items = (db', Some (ErrRun d w)) →
  d = DUp ∧ dirty db' = true ∧ version db' = Z.of_nat w
  ∧ ∃ m, last (history db') = Some m ∧ Version m = w.
Proof.
  intros Hall. revert db. induction Hall as [|it items Hit Hall IH]; intros db; [done|].
  simpl. destruct it as [m|e].
  - destruct (run_one db m) as [db1 [e|]] eqn:Hrun.
    + intros [= -> ->]. unfold run_one in Hrun. simpl in Hrun.
      destruct (Body m) as [body|]; [|done].
      destruct (script_ok body); [done|].
      injection Hrun as <- <- <-. simpl. unfold direction.
      rewrite Hit. rewrite bool_decide_true by lia. repeat split; try done.
      exists m. by rewrite last_snoc.
    + apply IH.
  - intros [= -> ->]. done.
Qed.


Lemma runMigrations_all_ok (ms : list Migration) (db : Database) :
  Forall (λ m, ∀ body, Body m = Some body → script_ok body = true) ms →
  ∃ db', runMigrations db (Migr <$> ms) = (db', None)
         ∧ history db' = history db ++ ms.
Proof.
  intros Hall. revert db. induction Hall as [|m ms Hm Hall IH]; intros db.
  - exists db. by rewrite app_nil_r.
  - assert (∃ db1, run_one db m = (db1, None) ∧ history db1 = history db ++ [m])
      as (db1 & Hrun & Hh).
    { unfold run_one. destruct (Body m) as [body|] eqn:Hb.
      - rewrite (Hm body eq_refl). by eexists.
      - by eexists. }
    destruct (IH db1) as (db' & Hrest & Hh').
    exists db'. cbn [fmap list_fmap runMigrations]. rewrite Hrun. split; [done|].
    by rewrite Hh', Hh, <- app_assoc.
Qed.

Lemma pending_split (pre post : list nat) (v : nat) :
  StronglySorted lt (pre ++ v :: post) →
  filter (λ w, (Z.of_nat v < Z.of_nat w)%Z) (pre ++ v :: post) = post.
Proof.
  intros Hs. rewrite filter_app, filter_cons.
  apply StronglySorted_app in Hs as (Hcross & _ & Hs).
  apply StronglySorted_inv in Hs as [_ Hpost].
  rewrite decide_False by lia.
  rewrite (filter_none _ pre).
  - simpl. clear Hcross. induction Hpost as [|x post Hx Hpost IH]; [done|].
    rewrite filter_cons, decide_True by lia. by f_equal.
  - intros x Hx. specialize (Hcross x v Hx (list_elem_of_here _ _)). lia.
Qed.

Lemma pending_all (idx : list nat) :
  filter (λ w, (-1 < Z.of_nat w)%Z) idx = idx.
Proof.
  induction idx as [|x idx IH]; [done|].
  rewrite filter_cons, decide_True by lia. by f_equal.
Qed.

(** The plan of an unlimited [readUp]: the pending versions, nothing else. *)
Lemma readUp_pending (src : Source) (db : Database) :
  wf src →
  (version db = (-1)%Z ∨ ∃ v, version db = Z.of_nat v ∧ v ∈ index src) →
  plan.pending src db ≠ [] →
  readUp src (version db) (-1) = Migr <$> (up_step src <$> plan.pending src db).
Proof.
  intros Hwf Hv Hne. pose proof Hwf as [Hs Hf]. unfold plan.pending in *.
  pose proof (sorted_NoDup _ Hs) as Hnd.
  destruct Hv as [Hv|(v & Hv & Hin)]; rewrite Hv in *.
  - rewrite pending_all in *. unfold readUp.
    rewrite bool_decide_false by lia. rewrite bool_decide_false by lia.
    unfold fuel_for. rewrite readUp_loop_nil by lia.
    unfold First. destruct (index src) as [|f post] eqn:Hidx; [done|].
    change (head (f :: post)) with (Some f). cbv beta iota.
    assert (length post < S (length src)) as Hlen.
    { unfold index in Hidx. apply (f_equal length) in Hidx.
      rewrite length_fmap in Hidx. simpl in Hidx. lia. }
    rewrite (readUp_loop_all src post [] f); [|by rewrite Hidx|by rewrite Hidx|done|lia].
    rewrite bool_decide_false by (intros [_ ?]; lia).
    by rewrite app_nil_r.
  - apply list_elem_of_split in Hin as (pre & post & Hidx).
    rewrite Hidx in Hs. rewrite Hidx, (pending_split _ _ _ Hs) in *.
    unfold readUp. rewrite bool_decide_true by lia.
    rewrite Nat2Z.id, versionExists_index; [|done|rewrite Hidx; set_solver].
    rewrite bool_decide_false by lia.
    assert (length post < fuel_for src) as Hlen.
    { unfold fuel_for. unfold index in Hidx. apply (f_equal length) in Hidx.
      rewrite length_fmap, length_app in Hidx. simpl in Hidx. lia. }
    rewrite (readUp_loop_all src post pre v); [|done|by rewrite Hidx|done|lia].
    rewrite bool_decide_false by (by intros [? _]). by rewrite app_nil_r.
Qed.

End migrate_more.

(** A clean store whose version the source knows, with bodies that run:
    [Up] hands the store the up step of every pending version, in order. *)
Lemma Up_runs_pending (src : migrate.Source) (st : MigrationRunner.State) :
  migrate.wf src →
  migrate.dirty (MigrationRunner.db st) = false →
  (migrate.version (MigrationRunner.db st) = (-1)%Z
   ∨ ∃ v, migrate.version (MigrationRunner.db st) = Z.of_nat v ∧ v ∈ migrate.index src) →
  plan.pending src (MigrationRunner.db st) ≠ [] →
  (∀ w body, w ∈ plan.pending src (MigrationRunner.db st) →
             migrate.ReadUp src w = Some body → migrate.script_ok body = true) →
  ∃ st', MigrationRunner.Up src st = (st', None)
    ∧ migrate.history (MigrationRunner.db st')
      = migrate.history (MigrationRunner.db st)
          ++ (migrate.up_step src <$> plan.pending src (MigrationRunner.db st))
    ∧ migrate.at_latest src (MigrationRunner.db st')
    ∧ MigrationRunner.log st'
      = MigrationRunner.log st
          ++ [logger.info "Running database migrations...";
              logger.info "Successfully applied database migrations"].
Proof.
  intros Hwf Hclean Hv Hne Hok.
  destruct st as [db log]. simpl in *.
  pose proof (readUp_pending src db Hwf Hv Hne) as Hplan.
  destruct (runMigrations_all_ok (migrate.up_step src <$> plan.pending src db) db)
    as (db' & Hrun & Hh).
  { apply Forall_fmap, Forall_forall. intros w Hw body. simpl.
    rewrite bool_decide_true by lia. by apply Hok. }
  assert (migrate.Up src db = (db', None)) as Hup.
  { unfold migrate.Up. by rewrite Hclean, Hplan. }
  eexists. split; [|split; [|split]].
  - unfold MigrationRunner.Up. simpl. rewrite Hup. reflexivity.
  - done.
  - simpl. eapply Up_settled; [done| |exact Hup|by left].
    destruct Hv as [->|(v & -> & _)]; lia.
  - simpl. by rewrite <- app_assoc.
Qed.

(** X6.  On a clean store whose version is the nil version or one the
    source knows, with at least one version pending and the up bodies of
    the pending versions running, [Up] hands the store the up step of every
    pending version, oldest first and nothing else, leaves it clean at the
    newest version and logs the start and the success. *)
Theorem Up_applies_pending (src : migrate.Source) (st : MigrationRunner.State) :
  migrate.wf src →
  migrate.dirty (MigrationRunner.db st) = false →
  (migrate.version (MigrationRunner.db st) = (-1)%Z
   ∨ ∃ v, migrate.version (MigrationRunner.db st) = Z.of_nat v ∧ v ∈ migrate.index src) →
  plan.pending src (MigrationRunner.db st) ≠ [] →
  (∀ w body, w ∈ plan.pending src (MigrationRunner.db st) →
             migrate.ReadUp src w = Some body → migrate.script_ok body = true) →
  ∃ st', MigrationRunner.Up src st = (st', None)
    ∧ MigrationRunner.steps_of st st'
      = migrate.up_step src <$> plan.pending src (MigrationRunner.db st)
    ∧ migrate.Version <$> MigrationRunner.steps_of st st'
      = plan.pending src (MigrationRunner.db st)
    ∧ migrate.at_latest src (MigrationRunner.db st')
    ∧ MigrationRunner.log st'
      = MigrationRunner.log st
          ++ [logger.info "Running database migrations...";
              logger.info "Successfully applied database migrations"].
Proof.
  intros Hwf Hclean Hv Hne Hok.
  destruct (Up_runs_pending src st Hwf Hclean Hv Hne Hok) as (st' & Hup & Hh & Hl & Hlog).
  assert (MigrationRunner.steps_of st st'
          = migrate.up_step src <$> plan.pending src (MigrationRunner.db st)) as Hsteps.
  { unfold MigrationRunner.steps_of. by rewrite Hh, drop_app_length. }
  exists st'. split; [done|]. split; [done|]. split; [|done].
  rewrite Hsteps, <- list_fmap_compose.
  by rewrite <- (list_fmap_id (plan.pending _ _)) at 2.
Qed.

Lemma Up_applies_pending_witness :
  ∃ st', MigrationRunner.Up sample.source (sample.at_version (-1)) = (st', None)
    ∧ MigrationRunner.steps_of (sample.at_version (-1)) st'
      = migrate.up_step sample.source
          <$> plan.pending sample.source (MigrationRunner.db (sample.at_version (-1)))
    ∧ migrate.Version <$> MigrationRunner.steps_of (sample.at_version (-1)) st'
      = plan.pending sample.source (MigrationRunner.db (sample.at_version (-1)))
    ∧ migrate.at_latest sample.source (MigrationRunner.db st')
    ∧ MigrationRunner.log st'
      = MigrationRunner.log (sample.at_version (-1))
          ++ [logger.info "Running database migrations...";
              logger.info "Successfully applied database migrations"].
Proof.
  apply (Up_applies_pending sample.source (sample.at_version (-1))).
  - apply sample_source_wf.
  - reflexivity.
  - left. reflexivity.
  - discriminate.
  - intros w body Hw. vm_compute in Hw.
    apply elem_of_cons in Hw as [->|Hw]; [by intros [= <-]|].
    apply elem_of_cons in Hw as [->|Hw]; [by intros [= <-]|].
    by apply elem_of_nil in Hw.
Defined.

(** X7.  When [Up] fails because the store rejected a body, that body is
    the up body of the version the store is left at, the step was the last
    one handed to the store, and the store is dirty; from then on [Up] and
    [Down] both refuse with the dirty error and change nothing. *)
Theorem Up_failure_leaves_dirty (src : migrate.Source) (st st' : MigrationRunner.State)
    (e : MigrationRunner.WrappedError) (d : migrate.Direction) (w : nat) :
  MigrationRunner.Up src st = (st', Some e) →
  MigrationRunner.cause e = migrate.ErrRun d w →
  d = migrate.DUp
  ∧ migrate.dirty (MigrationRunner.db st') = true
  ∧ migrate.version (MigrationRunner.db st') = Z.of_nat w
  ∧ (∃ m, last (migrate.history (MigrationRunner.db st')) = Some m ∧ migrate.Version m = w)
  ∧ MigrationRunner.Up src st'
    = ({| MigrationRunner.db := MigrationRunner.db st';
          MigrationRunner.log :=
            MigrationRunner.log st' ++ [logger.info "Running database migrations..."] |},
       Some {| MigrationRunner.prefix := "failed to run migrations";
               MigrationRunner.cause := migrate.ErrDirty (Z.of_nat w) |})
  ∧ MigrationRunner.Down src st'
    = ({| MigrationRunner.db := MigrationRunner.db st';
          MigrationRunner.log :=
            MigrationRunner.log st' ++ [logger.info "Rolling back one migration..."] |},
       Some {| MigrationRunner.prefix := "failed to rollback migration";
               MigrationRunner.cause := migrate.ErrDirty (Z.of_nat w) |}).
Proof.
  intros Hup Hcause. unfold MigrationRunner.Up in Hup. simpl in Hup.
  destruct (migrate.Up src (MigrationRunner.db st)) as [db' [err|]] eqn:Hrun;
    [|by injection Hup].
  assert (err = migrate.ErrRun d w ∧ MigrationRunner.db st' = db') as [-> Hdb].
  { destruct err; simplify_eq/=; done. }
  unfold migrate.Up in Hrun.
  destruct (migrate.dirty (MigrationRunner.db st)); [by injection Hrun|].
  apply runMigrations_up_failure in Hrun as (-> & Hd & Hv & Hm); [|apply readUp_items].
  rewrite Hdb. split; [done|]. split; [done|]. split; [done|]. split; [done|].
  unfold MigrationRunner.Up, MigrationRunner.Down, migrate.Up, migrate.Steps. simpl.
  rewrite Hdb, Hd, Hv. done.
Qed.

Lemma Up_failure_leaves_dirty_witness :
  let st' := (MigrationRunner.Up fixtures.broken_source (sample.at_version (-1))).1 in
  migrate.DUp = migrate.DUp
  ∧ migrate.dirty (MigrationRunner.db st') = true
  ∧ migrate.version (MigrationRunner.db st') = 3%Z
  ∧ (∃ m, last (migrate.history (MigrationRunner.db st')) = Some m
          ∧ migrate.Version m = 3%nat)
  ∧ MigrationRunner.Up fixtures.broken_source st'
    = ({| MigrationRunner.db := MigrationRunner.db st';
          MigrationRunner.log :=
            MigrationRunner.log st' ++ [logger.info "Running database migrations..."] |},
       Some {| MigrationRunner.prefix := "failed to run migrations";
               MigrationRunner.cause := migrate.ErrDirty 3 |})
  ∧ MigrationRunner.Down fixtures.broken_source st'
    = ({| MigrationRunner.db := MigrationRunner.db st';
          MigrationRunner.log :=
            MigrationRunner.log st' ++ [logger.info "Rolling back one migration..."] |},
       Some {| MigrationRunner.prefix := "failed to rollback migration";
               MigrationRunner.cause := migrate.ErrDirty 3 |}).
Proof.
  exact (Up_failure_leaves_dirty fixtures.broken_source (sample.at_version (-1))
           _ _ migrate.DUp 3 eq_refl eq_refl).
Defined.

(** X8.  [ForceVersion(v)] with [v] at least -1 sets the version, clears
    the dirty flag and runs no migration, whether or not the source has a
    version [v]; it logs a warning first and a success line after, and
    [Version] then reports [v], clean (or the nil-version error for -1).
    Below -1 it fails after the warning and leaves the store as it was. *)
Theorem ForceVersion_sets_version (v : Z) (st : MigrationRunner.State) :
  ((-1 ≤ v)%Z →
   ∃ st', MigrationRunner.ForceVersion v st = (st', None)
     ∧ MigrationRunner.db st'
       = {| migrate.version := v; migrate.dirty := false;
            migrate.history := migrate.history (MigrationRunner.db st) |}
     ∧ MigrationRunner.steps_of st st' = []
     ∧ MigrationRunner.log st'
       = MigrationRunner.log st
           ++ [ {| logger.level := logger.Warn; logger.err := nil;
                   logger.msg := "Forcing migration version (USE WITH CAUTION)" |};
                logger.info "Successfully forced migration version" ]
     ∧ ((0 ≤ v)%Z → MigrationRunner.Version st' = ((v, false), None))
     ∧ (v = (-1)%Z →
        MigrationRunner.Version st'
        = ((0%Z, false),
           Some {| MigrationRunner.prefix := "failed to get migration version";
                   MigrationRunner.cause := migrate.ErrNilVersion |})))
  ∧ ((v < -1)%Z →
     MigrationRunner.ForceVersion v st
     = ({| MigrationRunner.db := MigrationRunner.db st;
           MigrationRunner.log :=
             MigrationRunner.log st
               ++ [ {| logger.level := logger.Warn; logger.err := nil;
                       logger.msg := "Forcing migration version (USE WITH CAUTION)" |} ] |},
        Some {| MigrationRunner.prefix := "failed to force migration version";
                MigrationRunner.cause := migrate.ErrInvalidVersion |})).
Proof.
  destruct st as [db log].
  unfold MigrationRunner.ForceVersion, migrate.Force, MigrationRunner.steps_of,
    MigrationRunner.Version, migrate.GetVersion. simpl.
  split; intros Hv.
  - rewrite bool_decide_false by lia. eexists. split; [done|]. simpl.
    split; [done|]. split; [by rewrite drop_all|]. split; [by rewrite <- app_assoc|].
    split.
    + intros H0. unfold migrate.NilVersion. by rewrite bool_decide_false by lia.
    + intros ->. done.
  - by rewrite bool_decide_true by lia.
Qed.

(** X9.  After an [Up] that returned no error, [Version] reports the newest
    version of the source, not dirty, and no error. *)
Theorem Version_after_Up (src : migrate.Source) (st st' : MigrationRunner.State) :
  migrate.wf src →
  (-1 ≤ migrate.version (MigrationRunner.db st))%Z →
  MigrationRunner.Up src st = (st', None) →
  ∃ v, migrate.latest src = Some v
       ∧ MigrationRunner.Version st' = ((Z.of_nat v, false), None).
Proof.
  intros Hwf Hv Hup. unfold MigrationRunner.Up in Hup. simpl in Hup.
  destruct (migrate.Up src (MigrationRunner.db st)) as [db' r] eqn:Hrun.
  assert (MigrationRunner.db st' = db' ∧ (r = None ∨ r = Some migrate.ErrNoChange))
    as [Hdb Hr].
  { destruct r as [[]|]; simplify_eq; auto. }
  destruct (Up_settled src _ _ _ Hwf Hv Hrun Hr) as (Hd & v & Hl & Hver).
  exists v. split; [done|].
  unfold MigrationRunner.Version, migrate.GetVersion, migrate.NilVersion.
  rewrite Hdb, Hver, Hd. by rewrite bool_decide_false by lia.
Qed.

Lemma Version_after_Up_witness :
  ∃ v, migrate.latest sample.source = Some v
       ∧ MigrationRunner.Version
           (MigrationRunner.Up sample.source (sample.at_version (-1))).1
         = ((Z.of_nat v, false), None).
Proof.
  apply (Version_after_Up sample.source (sample.at_version (-1))).
  - apply sample_source_wf.
  - simpl. lia.
  - reflexivity.
Defined.

Section migrate_edges.
Import migrate.

Lemma find_ver_None (src : Source) (v : nat) :
  v ∉ index src → find (λ e, bool_decide (ver e = v)) src = None.
Proof.
  induction src as [|e src IH]; [done|].
  unfold index. rewrite fmap_cons, not_elem_of_cons. intros [Hne Hin]. simpl.
  rewrite bool_decide_false by done. by apply IH.
Qed.

Lemma versionExists_missing (src : Source) (v : nat) :
  v ∉ index src → versionExists src v = Some ErrNotExist.
Proof.
  intros Hin. unfold versionExists, ReadUp, ReadDown.
  by rewrite (find_ver_None src v Hin).
Qed.

Lemma prev_in_snoc (pre : list nat) (v : nat) :
  v ∉ pre → prev_in (pre ++ [v]) v = last pre.
Proof.
  induction pre as [|x pre IH]; [done|].
  rewrite not_elem_of_cons. intros [Hne Hin].
  destruct pre as [|y pre'].
  - simpl. by rewrite bool_decide_true.
  - change (prev_in ((x :: y :: pre') ++ [v]) v)
      with (if bool_decide (y = v) then Some x else prev_in ((y :: pre') ++ [v]) v).
    rewrite bool_decide_false by (intros ->; apply Hin; left).
    rewrite IH by done. done.
Qed.

End migrate_edges.

(** X10.  On a clean store that has no version applied, or whose version
    the source has no file for, [Down] fails with the not-exist error and
    changes nothing; in the second case so does [Up]. *)
Theorem version_without_files_is_refused (src : migrate.Source) (st : MigrationRunner.State) :
  migrate.dirty (MigrationRunner.db st) = false →
  (migrate.version (MigrationRunner.db st) = (-1)%Z
   ∨ ((0 ≤ migrate.version (MigrationRunner.db st))%Z
      ∧ Z.to_nat (migrate.version (MigrationRunner.db st)) ∉ migrate.index src)) →
  MigrationRunner.Down src st
  = ({| MigrationRunner.db := MigrationRunner.db st;
        MigrationRunner.log :=
          MigrationRunner.log st ++ [logger.info "Rolling back one migration..."] |},
     Some {| MigrationRunner.prefix := "failed to rollback migration";
             MigrationRunner.cause := migrate.ErrNotExist |})
  ∧ (migrate.version (MigrationRunner.db st) ≠ (-1)%Z →
     MigrationRunner.Up src st
     = ({| MigrationRunner.db := MigrationRunner.db st;
           MigrationRunner.log :=
             MigrationRunner.log st ++ [logger.info "Running database migrations..."] |},
        Some {| MigrationRunner.prefix := "failed to run migrations";
                MigrationRunner.cause := migrate.ErrNotExist |})).
Proof.
  destruct st as [db log]. simpl. intros Hclean Hv.
  unfold MigrationRunner.Down, MigrationRunner.Up, migrate.Steps, migrate.Up,
    migrate.readDown, migrate.readUp. simpl. rewrite Hclean.
  destruct Hv as [Hv|[Hv Hin]].
  - rewrite Hv. simpl. split; [done|]. by intros [].
  - rewrite bool_decide_true by done.
    rewrite (versionExists_missing src _ Hin). simpl. done.
Qed.

Lemma version_without_files_is_refused_witness :
  MigrationRunner.Down sample.source (sample.at_version 7)
  = ({| MigrationRunner.db := MigrationRunner.db (sample.at_version 7);
        MigrationRunner.log :=
          MigrationRunner.log (sample.at_version 7)
            ++ [logger.info "Rolling back one migration..."] |},
     Some {| MigrationRunner.prefix := "failed to rollback migration";
             MigrationRunner.cause := migrate.ErrNotExist |})
  ∧ MigrationRunner.Up sample.source (sample.at_version 7)
    = ({| MigrationRunner.db := MigrationRunner.db (sample.at_version 7);
          MigrationRunner.log :=
            MigrationRunner.log (sample.at_version 7)
              ++ [logger.info "Running database migrations..."] |},
       Some {| MigrationRunner.prefix := "failed to run migrations";
               MigrationRunner.cause := migrate.ErrNotExist |}).
Proof.
  destruct (version_without_files_is_refused sample.source (sample.at_version 7)) as [Hd Hu].
  - reflexivity.
  - right. split; [simpl; lia|]. vm_compute. intros H.
    apply elem_of_cons in H as [H|H]; [discriminate|].
    apply elem_of_cons in H as [H|H]; [discriminate|].
    by apply elem_of_nil in H.
  - split; [exact Hd|]. apply Hu. discriminate.
Defined.

(** X11.  On a clean store at the newest version, whose down and up
    bodies run, [Down] followed by [Up] undoes that version and applies it
    again: two steps, a down step and an up step of the same version, after
    which the store is clean at the version it started from. *)
Theorem Down_then_Up_restores (src : migrate.Source) (st : MigrationRunner.State) (v : nat) :
  migrate.wf src →
  migrate.dirty (MigrationRunner.db st) = false →
  migrate.version (MigrationRunner.db st) = Z.of_nat v →
  migrate.latest src = Some v →
  (∀ body, migrate.ReadDown src v = Some body → migrate.script_ok body = true) →
  (∀ body, migrate.ReadUp src v = Some body → migrate.script_ok body = true) →
  ∃ st1 st2,
    MigrationRunner.Down src st = (st1, None)
    ∧ MigrationRunner.Up src st1 = (st2, None)
    ∧ (migrate.version (MigrationRunner.db st1) < Z.of_nat v)%Z
    ∧ migrate.version (MigrationRunner.db st2) = Z.of_nat v
    ∧ migrate.dirty (MigrationRunner.db st2) = false
    ∧ migrate.Version <$> MigrationRunner.steps_of st st2 = [v; v]
    ∧ migrate.direction <$> MigrationRunner.steps_of st st2 = [migrate.DDown; migrate.DUp].
Proof.
  intros Hwf Hclean Hver Hlast Hdown Hup.
  pose proof Hwf as [Hs _]. pose proof (sorted_NoDup _ Hs) as Hnd.
  unfold migrate.latest in Hlast. apply last_Some in Hlast as [pre Hidx].
  assert (v ∈ migrate.index src) as Hin by (rewrite Hidx; set_solver).
  assert (v ∉ pre) as Hpre.
  { rewrite Hidx in Hnd. apply NoDup_app in Hnd as (_ & Hd & _).
    intros ?. eapply Hd; [done|]. left. }
  set (p := default (-1)%Z (Z.of_nat <$> migrate.Prev src v)).
  assert (p < Z.of_nat v)%Z as Hp.
  { unfold p. destruct (migrate.Prev src v) as [q|] eqn:Hq; simpl; [|lia].
    apply prev_in_lt in Hq as [? _]; [lia|done]. }
  destruct st as [db log]. simpl in *.
  set (m := migrate.newMigration src v p).
  set (db1 := {| migrate.version := p; migrate.dirty := false;
                 migrate.history := migrate.history db ++ [m] |}).
  assert (migrate.Steps src (-1) db = (db1, None)) as Hsteps.
  { unfold migrate.Steps. rewrite bool_decide_false by lia. rewrite Hclean.
    rewrite bool_decide_false by lia. rewrite Hver.
    change (- -1)%Z with 1%Z. rewrite readDown_one by done. fold p. fold m.
    simpl. unfold migrate.run_one. simpl.
    rewrite bool_decide_false by lia.
    destruct (migrate.ReadDown src v) as [body|] eqn:Hb; [|done].
    by rewrite (Hdown body eq_refl). }
  set (st1 := {| MigrationRunner.db := db1;
                 MigrationRunner.log :=
                   (log ++ [logger.info "Rolling back one migration..."])
                     ++ [logger.info "Successfully rolled back one migration"] |}).
  assert (plan.pending src db1 = [v]) as Hpend.
  { unfold plan.pending, db1. simpl. unfold p, migrate.Prev.
    rewrite Hidx, prev_in_snoc by done.
    destruct (last pre) as [q|] eqn:Hq; simpl.
    - apply last_Some in Hq as [pre' ->]. rewrite <- app_assoc. simpl.
      apply pending_split. rewrite Hidx, <- app_assoc in Hs. exact Hs.
    - apply last_None in Hq as ->. simpl. rewrite filter_cons, decide_True by lia. done. }
  destruct (Up_runs_pending src st1) as (st2 & Hup2 & Hh & Hl & _).
  { done. }
  { done. }
  { simpl. unfold p, migrate.Prev. destruct (migrate.prev_in (migrate.index src) v) as [q|] eqn:Hq.
    - right. exists q. split; [done|]. by apply prev_in_lt in Hq as [_ ?].
    - by left. }
  { simpl. by rewrite Hpend. }
  { simpl. rewrite Hpend. intros w body Hw. apply list_elem_of_singleton in Hw as ->.
    apply Hup. }
  exists st1, st2. simpl in Hh. rewrite Hpend in Hh. simpl in Hh.
  destruct Hl as (Hd2 & v' & Hl & Hv2).
  unfold migrate.latest in Hl. rewrite Hidx, last_snoc in Hl. injection Hl as <-.
  split; [|split; [done|split; [done|split; [done|split; [done|]]]]].
  - unfold MigrationRunner.Down. simpl. by rewrite Hsteps.
  - unfold MigrationRunner.steps_of. simpl. rewrite Hh, <- app_assoc, drop_app_length.
    split; [done|]. simpl. unfold migrate.direction. simpl.
    rewrite bool_decide_false by lia. by rewrite bool_decide_true by lia.
Qed.

Lemma Down_then_Up_restores_witness :
  ∃ st1 st2,
    MigrationRunner.Down sample.source (sample.at_version 2) = (st1, None)
    ∧ MigrationRunner.Up sample.source st1 = (st2, None)
    ∧ (migrate.version (MigrationRunner.db st1) < Z.of_nat 2)%Z
    ∧ migrate.version (MigrationRunner.db st2) = Z.of_nat 2
    ∧ migrate.dirty (MigrationRunner.db st2) = false
    ∧ migrate.Version <$> MigrationRunner.steps_of (sample.at_version 2) st2 = [2; 2]
    ∧ migrate.direction <$> MigrationRunner.steps_of (sample.at_version 2) st2
      = [migrate.DDown; migrate.DUp].
Proof.
  apply (Down_then_Up_restores sample.source (sample.at_version 2) 2).
  - apply sample_source_wf.
  - reflexivity.
  - reflexivity.
  - reflexivity.
  - by intros body [= <-].
  - by intros body [= <-].
Defined.

(** ** The schema: checks, references, seeds, sequences *)

Section priority_facts.
Import schema.

Lemma Forall_update_row {A} (P : A → Prop) (key : A → Z) (id : Z) (f : A → A)
    (rows : list A) :
  Forall P rows → (∀ r, r ∈ rows → key r = id → P (f r)) →
  Forall P (update_row key id f rows).
Proof.
  intros Hall Hf. unfold update_row. apply Forall_fmap, Forall_forall.
  intros r Hr. simpl. case_bool_decide.
  - by apply Hf.
  - by eapply Forall_forall in Hall.
Qed.

Lemma exec_priority (now : Z) (s : Stmt) (db : DB) :
  Forall (λ e, priority_ok (env_priority e) = true) (environments db) →
  Forall (λ e, priority_ok (env_priority e) = true) (environments (exec now s db).1).
Proof.
  intros Hall. destruct s; simpl; try done.
  - unfold exec_insert_tag. destruct (serial _ _). by repeat case_match.
  - unfold exec_insert_tag. destruct (serial _ _). by repeat case_match.
  - unfold exec_update_tag. by repeat case_match.
  - unfold exec_insert_environment. destruct (serial _ _) as [id seq].
    destruct (priority_ok _) eqn:Hp; simpl; [|done].
    repeat case_match; simpl; try done.
    apply Forall_app. split; [done|]. by repeat constructor.
  - unfold exec_insert_environment. destruct (serial _ _) as [id seq].
    destruct (priority_ok _) eqn:Hp; simpl; [|done].
    repeat case_match; simpl; try done.
    apply Forall_app. split; [done|]. by repeat constructor.
  - unfold exec_update_environment.
    destruct (find _ _) as [old|] eqn:Hfind; [|done].
    destruct (priority_ok (env_priority (set_environment now u old))) eqn:Hp; simpl; [|done].
    repeat case_match; simpl; try done.
    apply Forall_update_row; [done|]. intros r Hr Hid. simpl.
    simpl in Hp. destruct (ue_priority u) as [p|]; simpl in *; [done|].
    by eapply Forall_forall in Hall.
  - unfold others. apply Forall_forall. intros e [_ He]%list_elem_of_filter.
    by eapply Forall_forall in Hall.
  - unfold exec_insert_template. destruct (serial _ _). by repeat case_match.
  - unfold exec_update_template. by repeat case_match.
  - unfold exec_insert_template_tag. by repeat case_match.
Qed.

End priority_facts.



Section reference_facts.
Import schema.

Lemma elem_of_fmap_others {A} (key : A → Z) (id x : Z) (rows : list A) :
  x ∈ key <$> rows → x ≠ id → x ∈ key <$> others key id rows.
Proof.
  intros (r & -> & Hr)%list_elem_of_fmap Hne.
  apply list_elem_of_fmap. exists r. split; [done|].
  unfold others. by apply list_elem_of_filter.
Qed.

Lemma elem_of_fmap_snoc {A B} (f : A → B) (x : B) (rows : list A) (r : A) :
  x ∈ f <$> rows → x ∈ f <$> (rows ++ [r]).
Proof. rewrite fmap_app, elem_of_app. by left. Qed.

(** Every foreign key of the store points at a row that is there. *)
Lemma exec_references (now : Z) (s : Stmt) (db : DB) :
  (∀ t, t ∈ templates db → tpl_environment_id t ∈ env_id <$> environments db) →
  (∀ tt, tt ∈ template_tags db →
         tt.1 ∈ tpl_id <$> templates db ∧ tt.2 ∈ tag_id <$> tags db) →
  (∀ t, t ∈ templates (exec now s db).1 →
        tpl_environment_id t ∈ env_id <$> environments (exec now s db).1)
  ∧ (∀ tt, tt ∈ template_tags (exec now s db).1 →
           tt.1 ∈ tpl_id <$> templates (exec now s db).1
           ∧ tt.2 ∈ tag_id <$> tags (exec now s db).1).
Proof.
  intros Ht Htt. destruct s; simpl.
  - unfold exec_insert_tag. destruct (serial _ _) as [id seq].
    repeat case_match; simpl; (split; [done|]); try done.
    intros tt Hin. destruct (Htt tt Hin). split; [done|]. by apply elem_of_fmap_snoc.
  - unfold exec_insert_tag. destruct (serial _ _) as [id seq].
    repeat case_match; simpl; (split; [done|]); try done.
    intros tt Hin. destruct (Htt tt Hin). split; [done|]. by apply elem_of_fmap_snoc.
  - unfold exec_update_tag. repeat case_match; simpl; (split; [done|]); try done.
    intros tt Hin. rewrite fmap_update_row_id by done. by apply Htt.
  - split; [done|]. intros tt [Hne Hin]%list_elem_of_filter.
    destruct (Htt tt Hin). split; [done|]. by apply elem_of_fmap_others.
  - unfold exec_insert_environment. destruct (serial _ _) as [id seq].
    repeat case_match; simpl; (split; [|done]); try done.
    intros t Hin. by apply elem_of_fmap_snoc, Ht.
  - unfold exec_insert_environment. destruct (serial _ _) as [id seq].
    repeat case_match; simpl; (split; [|done]); try done.
    intros t Hin. by apply elem_of_fmap_snoc, Ht.
  - unfold exec_update_environment. repeat case_match; simpl; (split; [|done]); try done.
    intros t Hin. rewrite fmap_update_row_id by done. by apply Ht.
  - split.
    + intros t [Hne Hin]%list_elem_of_filter. apply elem_of_fmap_others; [|done].
      by apply Ht.
    + intros tt [Hgone Hin]%list_elem_of_filter. destruct (Htt tt Hin) as [H1 H2].
      split; [|done].
      apply list_elem_of_fmap in H1 as (t & Hid & Hint).
      apply list_elem_of_fmap. exists t. split; [done|].
      apply list_elem_of_filter. split; [|done].
      intros Henv. apply Hgone. rewrite Hid. apply list_elem_of_fmap.
      exists t. split; [done|]. by apply list_elem_of_filter.
  - unfold exec_insert_template. destruct (serial _ _) as [id seq].
    repeat case_match; simpl; try (split; done).
    split.
    + intros t [Hin|Hin%list_elem_of_singleton]%elem_of_app; [by apply Ht|].
      subst t. simpl.
      match goal with H : bool_decide (_ ∉ _) = false |- _ =>
        apply bool_decide_eq_false in H; by apply dec_stable in H end.
    + intros tt Hin. destruct (Htt tt Hin). split; [|done]. by apply elem_of_fmap_snoc.
  - unfold exec_update_template.
    destruct (find _ _) as [old|] eqn:Hfind; [|by split].
    repeat case_match; simpl; try (split; done).
    match goal with H : bool_decide (_ ∉ _) = false |- _ =>
      apply bool_decide_eq_false in H; apply dec_stable in H; rename H into Hfk end.
    split.
    + intros t Hin. unfold update_row in Hin.
      apply list_elem_of_fmap in Hin as (r & -> & Hr).
      destruct (bool_decide (tpl_id r = id)); [|by apply Ht].
      simpl in *. destruct (utp_environment_id u) as [e|]; simpl in *; [done|].
      by apply Ht.
    + intros tt Hin. rewrite fmap_update_row_id by done. by apply Htt.
  - split; [by intros t [_ Hin]%list_elem_of_filter; apply Ht|].
    intros tt [Hne Hin]%list_elem_of_filter.
    destruct (Htt tt Hin). split; [|done]. by apply elem_of_fmap_others.
  - unfold exec_insert_template_tag. repeat case_match; simpl; try (split; done).
    split; [done|].
    intros tt [Hin|Hin%list_elem_of_singleton]%elem_of_app; [by apply Htt|].
    subst tt. simpl.
    repeat match goal with H : bool_decide (_ ∉ _) = false |- _ =>
      apply bool_decide_eq_false in H; apply dec_stable in H end.
    done.
  - split; [done|]. intros tt [_ Hin]%list_elem_of_filter. by apply Htt.
Qed.

End reference_facts.

(** X13.  In every store the statements can produce, every template's
    environment exists, and every row of the junction table links a
    template that exists to a tag that exists. *)
Theorem foreign_keys_hold (db : schema.DB) :
  schema.reachable db →
  (∀ t, t ∈ schema.templates db →
        schema.tpl_environment_id t ∈ schema.env_id <$> schema.environments db)
  ∧ (∀ tt, tt ∈ schema.template_tags db →
           tt.1 ∈ schema.tpl_id <$> schema.templates db
           ∧ tt.2 ∈ schema.tag_id <$> schema.tags db).
Proof.
  induction 1 as [|now s db Hreach [IH1 IH2]].
  - split; intros ? Hin; by apply elem_of_nil in Hin.
  - by apply exec_references.
Qed.

Lemma foreign_keys_hold_witness :
  (∀ t, t ∈ schema.templates sample.linked →
        schema.tpl_environment_id t ∈ schema.env_id <$> schema.environments sample.linked)
  ∧ (∀ tt, tt ∈ schema.template_tags sample.linked →
           tt.1 ∈ schema.tpl_id <$> schema.templates sample.linked
           ∧ tt.2 ∈ schema.tag_id <$> schema.tags sample.linked).
Proof. apply (foreign_keys_hold sample.linked). apply sample_linked_reachable. Defined.

Section seeding_facts.
Import schema.

(** A guarded insert that raises no error leaves its row's conflict value
    in the table, and removes no row. *)
Lemma exec_guarded (now : Z) (s : Stmt) (db : DB) :
  seeding.guarded s → (exec now s db).2 = None →
  seeding.present s (exec now s db).1
  ∧ (∀ s', seeding.present s' db → seeding.present s' (exec now s db).1).
Proof.
  destruct s; simpl; try done; intros Hg.
  - unfold exec_insert_tag. destruct (serial _ _) as [id seq].
    destruct (bool_decide (tag_name (new_tag now id i) ∈ tag_name <$> tags db)) eqn:Hin;
      simpl.
    + intros _. apply bool_decide_eq_true in Hin. split; [done|]. by intros [].
    + destruct (bool_decide (id ∈ tag_id <$> tags db)); [done|]. simpl. intros _. split.
      * rewrite fmap_app, elem_of_app. right. simpl. apply list_elem_of_here.
      * intros []; simpl; try done. rewrite fmap_app, elem_of_app. by left.
  - unfold exec_insert_environment. destruct (serial _ _) as [id seq]. simpl.
    rewrite Hg. simpl.
    destruct (bool_decide (ie_slug i ∈ env_slug <$> environments db)) eqn:Hin; simpl.
    + intros _. apply bool_decide_eq_true in Hin. split; [done|]. by intros [].
    + destruct (bool_decide (id ∈ env_id <$> environments db)); [done|].
      destruct (bool_decide (ie_name i ∈ env_name <$> environments db)); [done|].
      simpl. intros _. split.
      * rewrite fmap_app, elem_of_app. right. simpl. apply list_elem_of_here.
      * intros []; simpl; try done. rewrite fmap_app, elem_of_app. by left.
Qed.

(** A guarded insert whose conflict value is taken is skipped. *)
Lemma exec_present (now : Z) (s : Stmt) (db : DB) :
  seeding.guarded s → seeding.present s db →
  (exec now s db).2 = None ∧ tables (exec now s db).1 = tables db.
Proof.
  destruct s; simpl; try done; intros Hg Hp.
  - unfold exec_insert_tag. destruct (serial _ _) as [id seq]. simpl.
    by rewrite bool_decide_true.
  - unfold exec_insert_environment. destruct (serial _ _) as [id seq]. simpl.
    rewrite Hg. simpl. by rewrite bool_decide_true.
Qed.

Lemma present_tables (s : Stmt) (db db' : DB) :
  tables db' = tables db → seeding.present s db → seeding.present s db'.
Proof. unfold tables. intros [= H1 H2 H3 H4]. destruct s; simpl; try done; congruence. Qed.

Lemma run_guarded (now : Z) (script : list Stmt) (db : DB) :
  Forall seeding.guarded script → (run now script db).2 = None →
  Forall (λ s, seeding.present s (run now script db).1) script
  ∧ (∀ s', seeding.present s' db → seeding.present s' (run now script db).1).
Proof.
  intros Hall. revert db. induction Hall as [|s script Hs Hall IH]; intros db; simpl.
  - intros _. split; [constructor|done].
  - destruct (exec now s db) as [db1 [e|]] eqn:Hexec; [done|]. intros Hrun.
    destruct (exec_guarded now s db Hs) as [Hp Hmono]; [by rewrite Hexec|].
    rewrite Hexec in Hp, Hmono. simpl in *.
    destruct (IH db1 Hrun) as [Hrest Hmono'].
    split; [|by auto]. constructor; [by apply Hmono'|done].
Qed.

Lemma run_present (now : Z) (script : list Stmt) (db : DB) :
  Forall seeding.guarded script → Forall (λ s, seeding.present s db) script →
  (run now script db).2 = None ∧ tables (run now script db).1 = tables db.
Proof.
  intros Hall. revert db. induction Hall as [|s script Hs Hall IH]; intros db Hp; simpl.
  - done.
  - apply Forall_cons in Hp as [Hp Hrest].
    destruct (exec_present now s db Hs Hp) as [He Ht].
    destruct (exec now s db) as [db1 e]. simpl in *. subst e.
    destruct (IH db1) as [Hr Ht'].
    { eapply Forall_impl; [exact Hrest|]. intros s'. by apply present_tables. }
    split; [done|]. by rewrite Ht'.
Qed.

Lemma seeds_guarded : Forall seeding.guarded seeds.
Proof. repeat constructor. Qed.

End seeding_facts.

(** X14.  Once the seed statements have run without error, from whatever
    store, the three seed slugs and the four seed tag names are there, and
    running the seed statements again, at any time, raises no error and
    changes no table. *)
Theorem seeds_are_idempotent (now now' : Z) (db : schema.DB) :
  (schema.run now schema.seeds db).2 = None →
  let seeded := (schema.run now schema.seeds db).1 in
  (schema.run now' schema.seeds seeded).2 = None
  ∧ schema.tables (schema.run now' schema.seeds seeded).1 = schema.tables seeded
  ∧ Forall (λ slug, slug ∈ schema.env_slug <$> schema.environments seeded)
      ["dev"; "staging"; "prod"]
  ∧ Forall (λ name, name ∈ schema.tag_name <$> schema.tags seeded)
      ["database"; "api"; "monitoring"; "security"].
Proof.
  intros Hrun seeded.
  destruct (run_guarded now schema.seeds db seeds_guarded Hrun) as [Hp _].
  fold seeded in Hp.
  destruct (run_present now' schema.seeds seeded seeds_guarded Hp) as [He Ht].
  split; [done|]. split; [done|].
  unfold schema.seeds in Hp.
  repeat match goal with H : Forall _ (_ :: _) |- _ => apply Forall_cons in H as [? H] end.
  split; repeat constructor; done.
Qed.

Lemma seeds_are_idempotent_witness :
  (schema.run 2000 schema.seeds sample.seeded).2 = None
  ∧ schema.tables (schema.run 2000 schema.seeds sample.seeded).1 = schema.tables sample.seeded
  ∧ (schema.run 1000 schema.seeds fixtures.renamed).2
    = Some (schema.unique_violation "environments_name_key").
Proof.
  destruct (seeds_are_idempotent 1000 2000 schema.empty eq_refl) as (H1 & H2 & _).
  split; [exact H1|]. split; [exact H2|reflexivity].
Defined.

Section frame_facts.
Import schema.

Lemma others_update_row {A} (key : A → Z) (id : Z) (f : A → A) (rows : list A) :
  (∀ r, key (f r) = key r) →
  others key id (update_row key id f rows) = others key id rows.
Proof.
  intros Hkey. unfold others, update_row.
  induction rows as [|r rows IH]; [done|].
  rewrite fmap_cons, !filter_cons, IH.
  destruct (decide (key r = id)) as [Heq|Hne].
  - rewrite bool_decide_true by done.
    rewrite decide_False by (rewrite Hkey; tauto). by rewrite decide_False by tauto.
  - rewrite bool_decide_false by done. by rewrite decide_True by done.
Qed.

Lemma find_absent {A} (key : A → Z) (id : Z) (rows : list A) :
  id ∉ key <$> rows → find (λ r, bool_decide (key r = id)) rows = None.
Proof.
  induction rows as [|r rows IH]; [done|].
  rewrite fmap_cons, not_elem_of_cons. intros [Hne Hin]. simpl.
  rewrite bool_decide_false by done. by apply IH.
Qed.

End frame_facts.

(** X15.  An UPDATE of a tag, an environment or a template, accepted or
    refused, leaves the rows with another primary key, the key column and
    the other tables as they were; when no row has the key it changes
    nothing and raises no error. *)
Theorem update_leaves_other_rows (now id : Z) (db : schema.DB) :
  (∀ u, let db' := (schema.exec now (schema.UpdateTag id u) db).1 in
        schema.others schema.tag_id id (schema.tags db')
        = schema.others schema.tag_id id (schema.tags db)
        ∧ schema.tag_id <$> schema.tags db' = schema.tag_id <$> schema.tags db
        ∧ schema.environments db' = schema.environments db
        ∧ schema.templates db' = schema.templates db
        ∧ schema.template_tags db' = schema.template_tags db
        ∧ (id ∉ schema.tag_id <$> schema.tags db →
           schema.exec now (schema.UpdateTag id u) db = (db, None)))
  ∧ (∀ u, let db' := (schema.exec now (schema.UpdateEnvironment id u) db).1 in
        schema.others schema.env_id id (schema.environments db')
        = schema.others schema.env_id id (schema.environments db)
        ∧ schema.env_id <$> schema.environments db'
          = schema.env_id <$> schema.environments db
        ∧ schema.tags db' = schema.tags db
        ∧ schema.templates db' = schema.templates db
        ∧ schema.template_tags db' = schema.template_tags db
        ∧ (id ∉ schema.env_id <$> schema.environments db →
           schema.exec now (schema.UpdateEnvironment id u) db = (db, None)))
  ∧ (∀ u, let db' := (schema.exec now (schema.UpdateTemplate id u) db).1 in
        schema.others schema.tpl_id id (schema.templates db')
        = schema.others schema.tpl_id id (schema.templates db)
        ∧ schema.tpl_id <$> schema.templates db' = schema.tpl_id <$> schema.templates db
        ∧ schema.tags db' = schema.tags db
        ∧ schema.environments db' = schema.environments db
        ∧ schema.template_tags db' = schema.template_tags db
        ∧ (id ∉ schema.tpl_id <$> schema.templates db →
           schema.exec now (schema.UpdateTemplate id u) db = (db, None))).
Proof.
  split; [|split]; intros u; simpl.
  - unfold schema.exec_update_tag.
    destruct (find _ _) as [old|] eqn:Hfind.
    + destruct (bool_decide _); simpl;
        rewrite ?others_update_row, ?fmap_update_row_id by done;
        repeat (split; [done|]); intros Hno; by rewrite find_absent in Hfind.
    + repeat (split; [done|]). done.
  - unfold schema.exec_update_environment.
    destruct (find _ _) as [old|] eqn:Hfind.
    + repeat (destruct (bool_decide _); simpl);
        destruct (schema.priority_ok _); simpl;
        rewrite ?others_update_row, ?fmap_update_row_id by done;
        repeat (split; [done|]); intros Hno; by rewrite find_absent in Hfind.
    + repeat (split; [done|]). done.
  - unfold schema.exec_update_template.
    destruct (find _ _) as [old|] eqn:Hfind.
    + repeat (destruct (bool_decide _); simpl);
        rewrite ?others_update_row, ?fmap_update_row_id by done;
        repeat (split; [done|]); intros Hno; by rewrite find_absent in Hfind.
    + repeat (split; [done|]). done.
Qed.

Section sequence_facts.
Import schema.
Local Open Scope Z_scope.

Lemma Forall_le_snoc {A} (key : A → Z) (rows : list A) (r : A) (seq : Z) :
  Forall (λ r, 1 ≤ key r ≤ seq) rows → 0 ≤ seq → key r = seq + 1 →
  Forall (λ r, 1 ≤ key r ≤ seq + 1) (rows ++ [r]).
Proof.
  intros Hall Hseq Hr. apply Forall_app. split.
  - eapply Forall_impl; [exact Hall|]. simpl. intros. lia.
  - repeat constructor; lia.
Qed.

Lemma Forall_le_mono {A} (key : A → Z) (rows : list A) (seq : Z) :
  Forall (λ r, 1 ≤ key r ≤ seq) rows → Forall (λ r, 1 ≤ key r ≤ seq + 1) rows.
Proof. intros Hall. eapply Forall_impl; [exact Hall|]. simpl. intros. lia. Qed.

Lemma Forall_others {A} (P : A → Prop) (key : A → Z) (id : Z) (rows : list A) :
  Forall P rows → Forall P (others key id rows).
Proof.
  intros Hall. apply Forall_forall. intros e [_ He]%list_elem_of_filter.
  by eapply Forall_forall in Hall.
Qed.

Lemma Forall_le_update_row {A} (key : A → Z) (id seq : Z) (f : A → A) (rows : list A) :
  (∀ r, key (f r) = key r) →
  Forall (λ r, 1 ≤ key r ≤ seq) rows →
  Forall (λ r, 1 ≤ key r ≤ seq) (update_row key id f rows).
Proof.
  intros Hkey Hall. apply Forall_update_row; [done|].
  intros r Hr _. rewrite Hkey. by eapply Forall_forall in Hall.
Qed.

Lemma fresh_id {A} (key : A → Z) (rows : list A) (seq : Z) :
  Forall (λ r, 1 ≤ key r ≤ seq) rows → bool_decide (seq + 1 ∈ key <$> rows) = false.
Proof.
  intros Hall. apply bool_decide_eq_false.
  intros (r & Hr & Hin)%list_elem_of_fmap.
  eapply Forall_forall in Hall; [|done]. simpl in Hall. lia.
Qed.

(** Ids handed out by the sequences stay at or below the sequences. *)
Lemma exec_sequences (now : Z) (s : Stmt) (db : DB) :
  session.default_id s →
  (0 ≤ tags_id_seq db ∧ Forall (λ r, 1 ≤ tag_id r ≤ tags_id_seq db) (tags db)) →
  (0 ≤ environments_id_seq db
   ∧ Forall (λ r, 1 ≤ env_id r ≤ environments_id_seq db) (environments db)) →
  (0 ≤ templates_id_seq db
   ∧ Forall (λ r, 1 ≤ tpl_id r ≤ templates_id_seq db) (templates db)) →
  let db' := (exec now s db).1 in
  (0 ≤ tags_id_seq db' ∧ Forall (λ r, 1 ≤ tag_id r ≤ tags_id_seq db') (tags db'))
  ∧ (0 ≤ environments_id_seq db'
     ∧ Forall (λ r, 1 ≤ env_id r ≤ environments_id_seq db') (environments db'))
  ∧ (0 ≤ templates_id_seq db'
     ∧ Forall (λ r, 1 ≤ tpl_id r ≤ templates_id_seq db') (templates db')).
Proof.
  intros Hid [Hs1 H1] [Hs2 H2] [Hs3 H3]. destruct s; simpl in *.
  - unfold exec_insert_tag. rewrite Hid. simpl.
    repeat case_match; simpl; (split; [|done]); (split; [lia|]);
      auto using Forall_le_mono, Forall_le_snoc.
  - unfold exec_insert_tag. rewrite Hid. simpl.
    repeat case_match; simpl; (split; [|done]); (split; [lia|]);
      auto using Forall_le_mono, Forall_le_snoc.
  - unfold exec_update_tag. repeat case_match; simpl; try done.
    split; [|done]. split; [done|]. by apply Forall_le_update_row.
  - split; [|done]. split; [done|]. by apply Forall_others.
  - unfold exec_insert_environment. rewrite Hid. simpl.
    repeat case_match; simpl; (split; [done|]); (split; [|done]); (split; [lia|]);
      auto using Forall_le_mono, Forall_le_snoc.
  - unfold exec_insert_environment. rewrite Hid. simpl.
    repeat case_match; simpl; (split; [done|]); (split; [|done]); (split; [lia|]);
      auto using Forall_le_mono, Forall_le_snoc.
  - unfold exec_update_environment. repeat case_match; simpl; try done.
    split; [done|]. split; [|done]. split; [done|]. by apply Forall_le_update_row.
  - split; [done|]. split; [split; [done|by apply Forall_others]|].
    split; [done|]. apply Forall_forall. intros e [_ He]%list_elem_of_filter.
    by eapply Forall_forall in H3.
  - unfold exec_insert_template. rewrite Hid. simpl.
    repeat case_match; simpl; (split; [done|]); (split; [done|]); (split; [lia|]);
      auto using Forall_le_mono, Forall_le_snoc.
  - unfold exec_update_template. repeat case_match; simpl; try done.
    split; [done|]. split; [done|]. split; [done|]. by apply Forall_le_update_row.
  - split; [done|]. split; [done|]. split; [done|]. by apply Forall_others.
  - unfold exec_insert_template_tag. by repeat case_match.
  - done.
Qed.

End sequence_facts.

(** X16.  As long as no statement supplies an id of its own, every id in
    the three tables lies between 1 and the value of its sequence, so that
    no statement that leaves the id to the sequence is ever refused for a
    primary key that is taken. *)
Theorem generated_ids_never_collide (script : list (Z * schema.Stmt)) :
  Forall (λ ns, session.default_id ns.2) script →
  let db := session.run_all script schema.empty in
  (∀ r, r ∈ schema.tags db → (1 ≤ schema.tag_id r ≤ schema.tags_id_seq db)%Z)
  ∧ (∀ r, r ∈ schema.environments db →
          (1 ≤ schema.env_id r ≤ schema.environments_id_seq db)%Z)
  ∧ (∀ r, r ∈ schema.templates db →
          (1 ≤ schema.tpl_id r ≤ schema.templates_id_seq db)%Z)
  ∧ (∀ now s, session.default_id s →
       (schema.exec now s db).2 ≠ Some (schema.unique_violation "tags_pkey")
       ∧ (schema.exec now s db).2 ≠ Some (schema.unique_violation "environments_pkey")
       ∧ (schema.exec now s db).2 ≠ Some (schema.unique_violation "templates_pkey")).
Proof.
  intros Hall db.
  assert ((0 ≤ schema.tags_id_seq db
           ∧ Forall (λ r, 1 ≤ schema.tag_id r ≤ schema.tags_id_seq db) (schema.tags db))
          ∧ (0 ≤ schema.environments_id_seq db
             ∧ Forall (λ r, 1 ≤ schema.env_id r ≤ schema.environments_id_seq db)
                 (schema.environments db))
          ∧ (0 ≤ schema.templates_id_seq db
             ∧ Forall (λ r, 1 ≤ schema.tpl_id r ≤ schema.templates_id_seq db)
                 (schema.templates db)))%Z as Hinv.
  { unfold db, session.run_all. clear db.
    induction script as [|ns script IH] using rev_ind.
    - simpl. repeat split; done.
    - apply Forall_app in Hall as [Hall Hns]. apply Forall_cons in Hns as [Hns _].
      rewrite foldl_app. simpl. destruct (IH Hall) as (I1 & I2 & I3).
      by apply exec_sequences. }
  destruct Hinv as ([Hs1 H1] & [Hs2 H2] & [Hs3 H3]).
  split; [intros r Hr; by eapply Forall_forall in H1|].
  split; [intros r Hr; by eapply Forall_forall in H2|].
  split; [intros r Hr; by eapply Forall_forall in H3|].
  intros now s Hid. destruct s; simpl in *.
  - unfold schema.exec_insert_tag. rewrite Hid. simpl.
    rewrite (fresh_id _ _ _ H1). by repeat case_match.
  - unfold schema.exec_insert_tag. rewrite Hid. simpl.
    rewrite (fresh_id _ _ _ H1). by repeat case_match.
  - unfold schema.exec_update_tag. by repeat case_match.
  - done.
  - unfold schema.exec_insert_environment. rewrite Hid. simpl.
    rewrite (fresh_id _ _ _ H2). by repeat case_match.
  - unfold schema.exec_insert_environment. rewrite Hid. simpl.
    rewrite (fresh_id _ _ _ H2). by repeat case_match.
  - unfold schema.exec_update_environment. by repeat case_match.
  - done.
  - unfold schema.exec_insert_template. rewrite Hid. simpl.
    rewrite (fresh_id _ _ _ H3). by repeat case_match.
  - unfold schema.exec_update_template. by repeat case_match.
  - done.
  - unfold schema.exec_insert_template_tag. by repeat case_match.
  - done.
Qed.

Lemma generated_ids_never_collide_witness :
  let db := session.run_all ((λ s, (1000%Z, s)) <$> schema.seeds) schema.empty in
  (∀ r, r ∈ schema.tags db → (1 ≤ schema.tag_id r ≤ schema.tags_id_seq db)%Z)
  ∧ (∀ r, r ∈ schema.environments db →
          (1 ≤ schema.env_id r ≤ schema.environments_id_seq db)%Z)
  ∧ (∀ r, r ∈ schema.templates db →
          (1 ≤ schema.tpl_id r ≤ schema.templates_id_seq db)%Z)
  ∧ (∀ now s, session.default_id s →
       (schema.exec now s db).2 ≠ Some (schema.unique_violation "tags_pkey")
       ∧ (schema.exec now s db).2 ≠ Some (schema.unique_violation "environments_pkey")
       ∧ (schema.exec now s db).2 ≠ Some (schema.unique_violation "templates_pkey")).
Proof.
  apply (generated_ids_never_collide ((λ s, (1000%Z, s)) <$> schema.seeds)).
  repeat constructor.
Defined.

(** ** The middleware chain and the collectors *)

Section label_facts.

Lemma pretty_N_go_length (x : N) (s : string) :
  String.length s ≤ String.length (pretty_N_go x s).
Proof.
  revert s. induction (N.lt_wf_0 x) as [x _ IH]; intros s.
  assert (x = 0 ∨ 0 < x)%N as [->|?] by lia; [by rewrite pretty_N_go_0|].
  rewrite pretty_N_go_step by done.
  etrans; [|by eapply IH, N.div_lt]. simpl. lia.
Qed.

Lemma pretty_N_ne_empty (x : N) : pretty x ≠ "".
Proof.
  unfold pretty, pretty_N. case_decide; [done|].
  rewrite pretty_N_go_step by lia.
  intros Heq. pose proof (pretty_N_go_length (x `div` 10)
    (String (pretty_N_char (x `mod` 10)) "")) as Hlen.
  rewrite Heq in Hlen. simpl in Hlen. lia.
Qed.

Lemma pretty_Z_ne_empty (z : Z) : pretty z ≠ "".
Proof.
  destruct z as [|p|p]; unfold pretty, pretty_Z; [done| |done].
  apply pretty_N_ne_empty.
Qed.

Lemma valid_ascii (s : list N) : Forall (λ b, (b < 128)%N) s → utf8.valid s = true.
Proof.
  induction 1 as [|b s Hb Hall IH]; [done|].
  simpl. by rewrite (proj2 (N.ltb_lt b 128) Hb).
Qed.

Lemma pretty_N_char_ascii (x : N) : (N_of_ascii (pretty_N_char x) < 128)%N.
Proof. unfold pretty_N_char. repeat case_match; vm_compute; done. Qed.

Lemma pretty_N_go_ascii (x : N) (s : string) :
  Forall (λ b, (b < 128)%N) (N_of_ascii <$> String.list_ascii_of_string s) →
  Forall (λ b, (b < 128)%N)
    (N_of_ascii <$> String.list_ascii_of_string (pretty_N_go x s)).
Proof.
  revert s. induction (N.lt_wf_0 x) as [x _ IH]; intros s Hs.
  assert (x = 0 ∨ 0 < x)%N as [->|?] by lia; [by rewrite pretty_N_go_0|].
  rewrite pretty_N_go_step by done. apply IH; [by apply N.div_lt|].
  simpl. constructor; [apply pretty_N_char_ascii|done].
Qed.

Lemma pretty_Z_valid (z : Z) : utf8.ValidString (pretty z) = true.
Proof.
  unfold utf8.ValidString. apply valid_ascii.
  assert (∀ x : N, Forall (λ b, (b < 128)%N)
            (N_of_ascii <$> String.list_ascii_of_string (pretty x))) as HN.
  { intros x. unfold pretty, pretty_N. case_decide.
    - repeat constructor.
    - apply pretty_N_go_ascii. constructor. }
  destruct z as [|p|p]; unfold pretty, pretty_Z.
  - repeat constructor.
  - apply HN.
  - simpl. constructor; [done|]. apply HN.
Qed.


Lemma find_valid (lvs : list string) :
  Forall (λ val, utf8.ValidString val = true) lvs →
  find (λ val, negb (utf8.ValidString val)) lvs = None.
Proof.
  induction 1 as [|val lvs Hval Hall IH]; [done|]. simpl. by rewrite Hval.
Qed.

Lemma validate_valid {child} (v : prometheus.Vec child) (lvs : list string) :
  length lvs = length (prometheus.labelNames v) →
  Forall (λ val, utf8.ValidString val = true) lvs →
  prometheus.validateLabelValues v lvs = None.
Proof.
  intros Hlen Hall. unfold prometheus.validateLabelValues.
  rewrite bool_decide_true by done. simpl. by rewrite find_valid.
Qed.

Lemma WithLabelValues_valid {child} (zero : child) (f : child → child)
    (lvs : list string) (v : prometheus.Vec child) :
  length lvs = length (prometheus.labelNames v) →
  Forall (λ val, utf8.ValidString val = true) lvs →
  prometheus.WithLabelValues zero f lvs v
  = ({| prometheus.labelNames := prometheus.labelNames v;
        prometheus.children :=
          <[lvs := f (default zero (prometheus.children v !! lvs))]>
            (prometheus.children v) |}, None).
Proof.
  intros Hlen Hall. unfold prometheus.WithLabelValues.
  by rewrite validate_valid.
Qed.

(** With valid labels the three recordings all go through. *)
Lemma record_valid (method endpoint statusCode : string) (duration size : Z)
    (m : metrics.Metrics) :
  metrics.labelled m →
  utf8.ValidString method = true → utf8.ValidString endpoint = true →
  utf8.ValidString statusCode = true →
  ∃ m', metrics.record method endpoint statusCode duration size m = (m', None)
    ∧ metrics.labelled m'
    ∧ metrics.activeConnections m' = metrics.activeConnections m
    ∧ metrics.dbConnections m' = metrics.dbConnections m
    ∧ prometheus.children (metrics.requestsTotal m')
      = <[[method; endpoint; statusCode] :=
            Z.succ (prometheus.value [method; endpoint; statusCode]
                      (metrics.requestsTotal m))]>
          (prometheus.children (metrics.requestsTotal m))
    ∧ prometheus.children (metrics.requestDuration m')
      = <[[method; endpoint; statusCode] :=
            prometheus.samples [method; endpoint; statusCode] (metrics.requestDuration m)
              ++ [prometheus.Seconds duration]]>
          (prometheus.children (metrics.requestDuration m))
    ∧ prometheus.children (metrics.responseSize m')
      = <[[method; endpoint] :=
            prometheus.samples [method; endpoint] (metrics.responseSize m)
              ++ [prometheus.Count size]]>
          (prometheus.children (metrics.responseSize m)).
Proof.
  intros (L1 & L2 & L3 & L4) Hm He Hs. unfold metrics.record.
  unfold prometheus.Inc, prometheus.Observe.
  rewrite WithLabelValues_valid by (rewrite ?L1; repeat constructor; done). simpl.
  rewrite WithLabelValues_valid by (rewrite ?L2; repeat constructor; done). simpl.
  rewrite WithLabelValues_valid by (rewrite ?L3; repeat constructor; done). simpl.
  eexists. split; [reflexivity|]. simpl. repeat split; done.
Qed.

(** A label that is not valid UTF-8 makes the first recording panic, and
    nothing is recorded. *)
Lemma record_invalid (method endpoint statusCode : string) (duration size : Z)
    (m : metrics.Metrics) :
  metrics.labelled m →
  (utf8.ValidString method && utf8.ValidString endpoint
   && utf8.ValidString statusCode) = false →
  ∃ bad, metrics.record method endpoint statusCode duration size m
         = (m, Some (prometheus.InvalidUTF8 bad))
         ∧ bad ∈ [method; endpoint; statusCode]
         ∧ utf8.ValidString bad = false.
Proof.
  intros (L1 & L2 & L3 & L4) Hbad. unfold metrics.record, prometheus.Inc,
    prometheus.WithLabelValues, prometheus.validateLabelValues.
  rewrite L1. simpl.
  destruct m as [total dur sz act dbc]. simpl in *.
  destruct (utf8.ValidString method) eqn:H1; simpl.
  - destruct (utf8.ValidString endpoint) eqn:H2; simpl.
    + destruct (utf8.ValidString statusCode) eqn:H3; simpl; [done|].
      exists statusCode. split; [done|]. split; [|done]. set_solver.
    + exists endpoint. split; [done|]. split; [|done]. set_solver.
  - exists method. split; [done|]. split; [|done]. set_solver.
Qed.

End label_facts.

Section stack_facts.
Import gin.

Lemma loop_unfold {M E} (n : Z) (h : @HandlerFunc M E) (rest : list HandlerFunc)
    (w : Flight M E) :
  (index (c w) < n)%Z →
  loop n (h :: rest) w
  = match panicking (h (λ w, loop n rest (on_context step w)) w) with
    | Some _ => h (λ w, loop n rest (on_context step w)) w
    | None => loop n rest (on_context step (h (λ w, loop n rest (on_context step w)) w))
    end.
Proof. intros Hlt. simpl. by rewrite bool_decide_true. Qed.

Lemma loop_done {M E} (n : Z) (handlers : list (@HandlerFunc M E)) (w : Flight M E) :
  (n ≤ index (c w))%Z → loop n handlers w = w.
Proof. intros Hle. destruct handlers; [done|]. simpl. by rewrite bool_decide_false by lia. Qed.

(** One handler of the chain, given what it made of the flight it was
    handed, the rest of the chain included. *)
Lemma loop_step {M E} (n : Z) (h : @HandlerFunc M E) (rest : list HandlerFunc)
    (w w' : Flight M E) :
  (index (c w) < n)%Z →
  h (λ w, loop n rest (on_context step w)) w = w' →
  (panicking w' = None → n ≤ index (c w') + 1)%Z →
  loop n (h :: rest) w
  = match panicking w' with Some _ => w' | None => on_context step w' end.
Proof.
  intros Hlt Hh Hidx. rewrite loop_unfold by done. rewrite Hh.
  destruct (panicking w') eqn:Hp; [done|].
  apply loop_done. simpl. by apply Hidx.
Qed.

End stack_facts.

Section middleware_facts.
Context (duration unixNano : Z) (elapsed : string).
Context (r : gin.Request) (rt : string) (status0 : Z).
Context (m0 : metrics.Metrics) (ev0 : list server.AccessLog).

Local Notation "'id'" := (stages.requestID unixNano r).

Lemma requestID_nonempty : id ≠ "".
Proof.
  unfold stages.requestID. case_bool_decide as Hid; [|done]. apply pretty_Z_ne_empty.
Qed.

Lemma requestID_sets (next : server.Flight → server.Flight) (w : server.Flight) :
  gin.request (gin.c w) = r →
  server.requestIDMiddleware unixNano next w
  = next {| gin.c := {| gin.request := gin.request (gin.c w);
                        gin.fullPath := gin.fullPath (gin.c w);
                        gin.index := gin.index (gin.c w);
                        gin.Keys := <["request_id" := id]> (gin.Keys (gin.c w));
                        gin.header := <["X-Request-ID" := id]> (gin.header (gin.c w));
                        gin.status := gin.status (gin.c w);
                        gin.size := gin.size (gin.c w) |};
            gin.m := gin.m w; gin.events := gin.events w;
            gin.panicking := gin.panicking w |}.
Proof.
  intros Hr. unfold server.requestIDMiddleware, gin.GetHeader.
  unfold gin.on_context, gin.Header, gin.Set_. simpl. rewrite !Hr.
  fold (stages.requestID unixNano r).
  by rewrite (bool_decide_false (id = "")) by apply requestID_nonempty.
Qed.

Lemma cors_passes (next : server.Flight → server.Flight) (w : server.Flight) :
  gin.Method (gin.request (gin.c w)) ≠ "OPTIONS" →
  server.corsMiddleware next w
  = next {| gin.c :=
              {| gin.request := gin.request (gin.c w);
                 gin.fullPath := gin.fullPath (gin.c w);
                 gin.index := gin.index (gin.c w);
                 gin.Keys := gin.Keys (gin.c w);
                 gin.header :=
                   <["Access-Control-Allow-Methods" :=
                       "POST, OPTIONS, GET, PUT, DELETE, PATCH"]>
                     (<["Access-Control-Allow-Headers" :=
                          "Content-Type, Content-Length, Accept-Encoding, X-CSRF-Token, Authorization, accept, origin, Cache-Control, X-Requested-With"]>
                        (<["Access-Control-Allow-Credentials" := "true"]>
                           (<["Access-Control-Allow-Origin" := "*"]>
                              (gin.header (gin.c w)))));
                 gin.status := gin.status (gin.c w);
                 gin.size := gin.size (gin.c w) |};
            gin.m := gin.m w; gin.events := gin.events w;
            gin.panicking := gin.panicking w |}.
Proof.
  intros Hm. unfold server.corsMiddleware.
  cbn [gin.on_context gin.c gin.request gin.Header].
  by rewrite (bool_decide_false (_ = "OPTIONS")) by done.
Qed.

Lemma cors_answers (next : server.Flight → server.Flight) (w : server.Flight) :
  gin.Method (gin.request (gin.c w)) = "OPTIONS" →
  server.corsMiddleware next w
  = {| gin.c :=
         gin.AbortWithStatus 204
           {| gin.request := gin.request (gin.c w);
              gin.fullPath := gin.fullPath (gin.c w);
              gin.index := gin.index (gin.c w);
              gin.Keys := gin.Keys (gin.c w);
              gin.header :=
                <["Access-Control-Allow-Methods" :=
                    "POST, OPTIONS, GET, PUT, DELETE, PATCH"]>
                  (<["Access-Control-Allow-Headers" :=
                       "Content-Type, Content-Length, Accept-Encoding, X-CSRF-Token, Authorization, accept, origin, Cache-Control, X-Requested-With"]>
                     (<["Access-Control-Allow-Credentials" := "true"]>
                        (<["Access-Control-Allow-Origin" := "*"]>
                           (gin.header (gin.c w)))));
              gin.status := gin.status (gin.c w);
              gin.size := gin.size (gin.c w) |};
       gin.m := gin.m w; gin.events := gin.events w;
       gin.panicking := gin.panicking w |}.
Proof.
  intros Hm. unfold server.corsMiddleware.
  cbn [gin.on_context gin.c gin.request gin.Header].
  by rewrite (bool_decide_true (_ = "OPTIONS")) by done.
Qed.

(** An aborted preflight has status 204 whatever status it started with. *)
Lemma AbortWithStatus_fresh (c : gin.Context) :
  gin.size c = gin.noWritten →
  gin.AbortWithStatus 204 c
  = {| gin.request := gin.request c; gin.fullPath := gin.fullPath c;
       gin.index := gin.abortIndex; gin.Keys := gin.Keys c; gin.header := gin.header c;
       gin.status := 204; gin.size := 0 |}.
Proof.
  intros Hsize. unfold gin.AbortWithStatus, gin.WriteHeader, gin.Written. rewrite Hsize.
  rewrite (bool_decide_true (gin.noWritten = gin.noWritten)) by done. simpl.
  destruct (decide (gin.status c = 204%Z)) as [Heq|Hne].
  - rewrite bool_decide_true by done. simpl.
    unfold gin.WriteHeaderNow, gin.Written. rewrite Hsize. simpl.
    unfold gin.Abort. simpl. by rewrite Heq.
  - rewrite bool_decide_false by done. simpl. reflexivity.
Qed.

(** [metrics.Middleware], given what the later handlers returned. *)
Lemma Middleware_returns (next : server.Flight → server.Flight) (w w' : server.Flight) :
  next {| gin.c := gin.c w;
          gin.m := metrics.with_activeConnections
                     (metrics.activeConnections (gin.m w) + 1) (gin.m w);
          gin.events := gin.events w; gin.panicking := gin.panicking w |} = w' →
  metrics.Middleware duration next w
  = match gin.panicking w' with
    | Some _ =>
        {| gin.c := gin.c w';
           gin.m := metrics.with_activeConnections
                      (metrics.activeConnections (gin.m w') - 1) (gin.m w');
           gin.events := gin.events w'; gin.panicking := gin.panicking w' |}
    | None =>
        {| gin.c := gin.c w';
           gin.m :=
             metrics.with_activeConnections
               (metrics.activeConnections
                  (metrics.record (gin.Method (gin.request (gin.c w'))) (stages.endpoint w')
                     (pretty (gin.status (gin.c w'))) duration (gin.size (gin.c w'))
                     (gin.m w')).1 - 1)
               (metrics.record (gin.Method (gin.request (gin.c w'))) (stages.endpoint w')
                  (pretty (gin.status (gin.c w'))) duration (gin.size (gin.c w'))
                  (gin.m w')).1;
           gin.events := gin.events w';
           gin.panicking :=
             gin.Collector
               <$> (metrics.record (gin.Method (gin.request (gin.c w'))) (stages.endpoint w')
                      (pretty (gin.status (gin.c w'))) duration (gin.size (gin.c w'))
                      (gin.m w')).2 |}
    end.
Proof.
  intros Hnext. unfold metrics.Middleware. rewrite Hnext.
  destruct (gin.panicking w'); [done|]. unfold stages.endpoint.
  by destruct (metrics.record _ _ _ _ _ _).
Qed.

(** *** The chain, whatever follows [loggingMiddleware] *)

Context (n : Z) (tail : list server.HandlerFunc) (after : server.Flight).

Local Notation "'w0'" := (stages.start r rt status0 m0 ev0).
Local Notation "'w1'" := (stages.arrival unixNano r rt status0 m0 ev0).

Local Notation "'chain'" :=
  ([metrics.Middleware duration; server.corsMiddleware;
    server.requestIDMiddleware unixNano; server.loggingMiddleware elapsed] ++ tail).

Local Notation "'inner'" :=
  ([server.corsMiddleware; server.requestIDMiddleware unixNano;
    server.loggingMiddleware elapsed] ++ tail).

Local Notation "'at_cors'" :=
  {| gin.c := {| gin.request := r; gin.fullPath := rt; gin.index := 1;
                 gin.Keys := ∅; gin.header := ∅; gin.status := status0; gin.size := -1 |};
     gin.m := gin.m w1; gin.events := ev0; gin.panicking := None |}.

Local Notation "'returned'" :=
  {| gin.c := gin.c after; gin.m := gin.m after;
     gin.events := gin.events after ++ [stages.event unixNano elapsed r after];
     gin.panicking := None |}.

Hypothesis Hn : (4 ≤ n ≤ 63)%Z.
Hypothesis Htail : gin.loop n tail w1 = after.
Hypothesis Hafter : (gin.panicking after = None → n ≤ gin.index (gin.c after))%Z.

Lemma from_cors_returns :
  gin.Method r ≠ "OPTIONS" → gin.panicking after = None →
  gin.loop n inner at_cors
  = gin.on_context gin.step (gin.on_context gin.step (gin.on_context gin.step returned)).
Proof.
  intros Hm Hp. specialize (Hafter Hp).
  assert (gin.loop n (server.loggingMiddleware elapsed :: tail)
            {| gin.c :=
                 {| gin.request := r; gin.fullPath := rt; gin.index := 3;
                    gin.Keys := gin.Keys (gin.c w1); gin.header := gin.header (gin.c w1);
                    gin.status := status0; gin.size := -1 |};
               gin.m := gin.m w1; gin.events := ev0; gin.panicking := None |}
          = gin.on_context gin.step returned) as Hlog.
  { etrans; [apply (loop_step n _ _ _ returned)|done].
    - simpl; lia.
    - unfold server.loggingMiddleware.
      change (gin.on_context gin.step _) with w1. rewrite Htail, Hp.
      unfold stages.event, gin.Get. simpl. by rewrite lookup_singleton_eq.
    - simpl. lia. }
  assert (gin.loop n (server.requestIDMiddleware unixNano
                        :: server.loggingMiddleware elapsed :: tail)
            {| gin.c := {| gin.request := r; gin.fullPath := rt; gin.index := 2;
                           gin.Keys := ∅;
                           gin.header := delete "X-Request-ID" (gin.header (gin.c w1));
                           gin.status := status0; gin.size := -1 |};
               gin.m := gin.m w1; gin.events := ev0; gin.panicking := None |}
          = gin.on_context gin.step (gin.on_context gin.step returned)) as Hreq.
  { etrans; [apply (loop_step n _ _ _ (gin.on_context gin.step returned))|done].
    - simpl; lia.
    - rewrite requestID_sets by done. etrans; [|exact Hlog]. f_equal.
    - simpl. lia. }
  etrans; [apply (loop_step n _ _ _
             (gin.on_context gin.step (gin.on_context gin.step returned)))|done].
  - simpl; lia.
  - rewrite cors_passes by done. etrans; [|exact Hreq]. f_equal.
  - simpl. lia.
Qed.


Lemma from_cors_unwinds (p : gin.Panic) :
  gin.Method r ≠ "OPTIONS" → gin.panicking after = Some p →
  gin.loop n inner at_cors = after.
Proof.
  intros Hm Hp.
  assert (gin.loop n (server.loggingMiddleware elapsed :: tail)
            {| gin.c :=
                 {| gin.request := r; gin.fullPath := rt; gin.index := 3;
                    gin.Keys := gin.Keys (gin.c w1); gin.header := gin.header (gin.c w1);
                    gin.status := status0; gin.size := -1 |};
               gin.m := gin.m w1; gin.events := ev0; gin.panicking := None |}
          = after) as Hlog.
  { etrans; [apply (loop_step n _ _ _ after)|by rewrite Hp].
    - simpl; lia.
    - unfold server.loggingMiddleware.
      change (gin.on_context gin.step _) with w1. rewrite Htail. by rewrite Hp.
    - by rewrite Hp. }
  assert (gin.loop n (server.requestIDMiddleware unixNano
                        :: server.loggingMiddleware elapsed :: tail)
            {| gin.c := {| gin.request := r; gin.fullPath := rt; gin.index := 2;
                           gin.Keys := ∅;
                           gin.header := delete "X-Request-ID" (gin.header (gin.c w1));
                           gin.status := status0; gin.size := -1 |};
               gin.m := gin.m w1; gin.events := ev0; gin.panicking := None |}
          = after) as Hreq.
  { etrans; [apply (loop_step n _ _ _ after)|by rewrite Hp].
    - simpl; lia.
    - rewrite requestID_sets by done. etrans; [|exact Hlog]. f_equal.
    - by rewrite Hp. }
  etrans; [apply (loop_step n _ _ _ after)|by rewrite Hp].
  - simpl; lia.
  - rewrite cors_passes by done. etrans; [|exact Hreq]. f_equal.
  - by rewrite Hp.
Qed.

Lemma from_cors_preflight :
  gin.Method r = "OPTIONS" →
  gin.loop n inner at_cors
  = {| gin.c :=
         {| gin.request := r; gin.fullPath := rt; gin.index := 64;
            gin.Keys := ∅;
            gin.header := delete "X-Request-ID" (gin.header (gin.c w1));
            gin.status := 204; gin.size := 0 |};
       gin.m := gin.m w1; gin.events := ev0; gin.panicking := None |}.
Proof.
  intros Hm.
  etrans; [apply (loop_step n _ _ _
    {| gin.c :=
         {| gin.request := r; gin.fullPath := rt; gin.index := 63;
            gin.Keys := ∅;
            gin.header := delete "X-Request-ID" (gin.header (gin.c w1));
            gin.status := 204; gin.size := 0 |};
       gin.m := gin.m w1; gin.events := ev0; gin.panicking := None |})|done].
  - simpl; lia.
  - rewrite cors_answers by done. rewrite AbortWithStatus_fresh by done. reflexivity.
  - simpl. lia.
Qed.

Lemma chain_top (W : server.Flight) :
  metrics.Middleware duration
    (λ w, gin.loop n inner (gin.on_context gin.step w))
    (gin.on_context gin.step w0) = W →
  (gin.panicking W = None → n - 1 ≤ gin.index (gin.c W))%Z →
  gin.loop n chain (gin.on_context gin.step w0)
  = match gin.panicking W with Some _ => W | None => gin.on_context gin.step W end.
Proof.
  intros HW Hidx.
  apply loop_step; [simpl; lia|done|]. intros Hp. specialize (Hidx Hp). lia.
Qed.

Lemma chain_returns :
  gin.Method r ≠ "OPTIONS" → gin.panicking after = None →
  ∃ k, gin.loop n chain (gin.on_context gin.step w0)
       = {| gin.c :=
              {| gin.request := gin.request (gin.c after);
                 gin.fullPath := gin.fullPath (gin.c after);
                 gin.index := k;
                 gin.Keys := gin.Keys (gin.c after);
                 gin.header := gin.header (gin.c after);
                 gin.status := gin.status (gin.c after);
                 gin.size := gin.size (gin.c after) |};
            gin.m :=
              metrics.with_activeConnections
                (metrics.activeConnections
                   (metrics.record (gin.Method (gin.request (gin.c after)))
                      (stages.endpoint after) (pretty (gin.status (gin.c after)))
                      duration (gin.size (gin.c after)) (gin.m after)).1 - 1)
                (metrics.record (gin.Method (gin.request (gin.c after)))
                   (stages.endpoint after) (pretty (gin.status (gin.c after)))
                   duration (gin.size (gin.c after)) (gin.m after)).1;
            gin.events := gin.events after ++ [stages.event unixNano elapsed r after];
            gin.panicking :=
              gin.Collector
                <$> (metrics.record (gin.Method (gin.request (gin.c after)))
                       (stages.endpoint after) (pretty (gin.status (gin.c after)))
                       duration (gin.size (gin.c after)) (gin.m after)).2 |}.
Proof.
  intros Hm Hp.
  pose proof (from_cors_returns Hm Hp) as Hbelow.
  pose proof (Middleware_returns
                (λ w, gin.loop n inner (gin.on_context gin.step w))
                (gin.on_context gin.step w0) _ Hbelow) as HW.
  cbn [gin.panicking gin.on_context] in HW.
  rewrite (chain_top _ HW).
  - unfold stages.endpoint. simpl.
    destruct (metrics.record _ _ _ _ _ _) as [m' [e|]]; simpl; eexists; reflexivity.
  - intros _. specialize (Hafter Hp). simpl. lia.
Qed.

Lemma chain_unwinds (p : gin.Panic) :
  gin.Method r ≠ "OPTIONS" → gin.panicking after = Some p →
  gin.loop n chain (gin.on_context gin.step w0)
  = {| gin.c := gin.c after;
       gin.m := metrics.with_activeConnections
                  (metrics.activeConnections (gin.m after) - 1) (gin.m after);
       gin.events := gin.events after;
       gin.panicking := Some p |}.
Proof.
  intros Hm Hp.
  pose proof (from_cors_unwinds p Hm Hp) as Hbelow.
  pose proof (Middleware_returns
                (λ w, gin.loop n inner (gin.on_context gin.step w))
                (gin.on_context gin.step w0) _ Hbelow) as HW.
  rewrite Hp in HW.
  rewrite (chain_top _ HW); [done|]. simpl. discriminate.
Qed.

Lemma chain_preflight :
  gin.Method r = "OPTIONS" →
  gin.loop n chain (gin.on_context gin.step w0)
  = {| gin.c :=
         {| gin.request := r; gin.fullPath := rt;
            gin.index :=
              match (metrics.record "OPTIONS"
                       (if bool_decide (rt = "") then gin.Path r else rt) "204"
                       duration 0 (gin.m w1)).2 with
              | Some _ => 64
              | None => 65
              end;
            gin.Keys := ∅;
            gin.header := delete "X-Request-ID" (gin.header (gin.c w1));
            gin.status := 204; gin.size := 0 |};
       gin.m :=
         metrics.with_activeConnections
           (metrics.activeConnections
              (metrics.record "OPTIONS"
                 (if bool_decide (rt = "") then gin.Path r else rt) "204"
                 duration 0 (gin.m w1)).1 - 1)
           (metrics.record "OPTIONS"
              (if bool_decide (rt = "") then gin.Path r else rt) "204"
              duration 0 (gin.m w1)).1;
       gin.events := ev0;
       gin.panicking :=
         gin.Collector
           <$> (metrics.record "OPTIONS"
                  (if bool_decide (rt = "") then gin.Path r else rt) "204"
                  duration 0 (gin.m w1)).2 |}.
Proof.
  intros Hm.
  pose proof (from_cors_preflight Hm) as Hbelow.
  pose proof (Middleware_returns
                (λ w, gin.loop n inner (gin.on_context gin.step w))
                (gin.on_context gin.step w0) _ Hbelow) as HW.
  cbn [gin.panicking] in HW.
  rewrite (chain_top _ HW); clear HW Hbelow.
  - unfold stages.endpoint. cbn [gin.c gin.request gin.fullPath gin.status gin.size gin.m].
    rewrite Hm. change (pretty 204%Z) with "204".
    by destruct (metrics.record _ _ _ _ _ _) as [m' [e|]].
  - intros _. simpl. lia.
Qed.

End middleware_facts.

Section serve_facts.
Context (duration unixNano : Z) (elapsed : string).
Context (h : option (server.Flight → server.Flight)).
Context (r : gin.Request) (rt : string) (status0 : Z).
Context (m0 : metrics.Metrics) (ev0 : list server.AccessLog).

Local Notation "'w0'" := (stages.start r rt status0 m0 ev0).
Local Notation "'w1'" := (stages.arrival unixNano r rt status0 m0 ev0).
Local Notation "'w2'" := (stages.answer unixNano r rt status0 m0 ev0 h).

(** The request is no preflight and the route's handler, if there is one,
    returns: the later middleware and [metrics.Middleware] see its answer. *)
Lemma serve_returns :
  gin.Method r ≠ "OPTIONS" →
  gin.panicking w2 = None → (4 ≤ gin.index (gin.c w2))%Z →
  ∃ k, server.serve duration unixNano elapsed h w0
       = {| gin.c :=
              {| gin.request := gin.request (gin.c w2);
                 gin.fullPath := gin.fullPath (gin.c w2);
                 gin.index := k;
                 gin.Keys := gin.Keys (gin.c w2);
                 gin.header := gin.header (gin.c w2);
                 gin.status := gin.status (gin.c w2);
                 gin.size := gin.size (gin.c w2) |};
            gin.m :=
              metrics.with_activeConnections
                (metrics.activeConnections
                   (metrics.record (gin.Method (gin.request (gin.c w2)))
                      (stages.endpoint w2) (pretty (gin.status (gin.c w2)))
                      duration (gin.size (gin.c w2)) (gin.m w2)).1 - 1)
                (metrics.record (gin.Method (gin.request (gin.c w2)))
                   (stages.endpoint w2) (pretty (gin.status (gin.c w2)))
                   duration (gin.size (gin.c w2)) (gin.m w2)).1;
            gin.events := gin.events w2 ++ [stages.event unixNano elapsed r w2];
            gin.panicking :=
              gin.Collector
                <$> (metrics.record (gin.Method (gin.request (gin.c w2)))
                       (stages.endpoint w2) (pretty (gin.status (gin.c w2)))
                       duration (gin.size (gin.c w2)) (gin.m w2)).2 |}.
Proof.
  intros Hm Hp Hidx. destruct h as [h0|]; cbn [stages.answer] in Hp, Hidx.
  - assert (gin.loop 5 [server.route h0] w1 = gin.on_context gin.step (h0 w1)) as Htail.
    { etrans; [apply (loop_step 5 _ _ _ (h0 w1)); [simpl; lia|done|lia]|]. by rewrite Hp. }
    apply (chain_returns duration unixNano elapsed r rt status0 m0 ev0
             5 [server.route h0] (gin.on_context gin.step (h0 w1)));
      [lia|exact Htail|simpl; lia|done|done].
  - apply (chain_returns duration unixNano elapsed r rt status0 m0 ev0 4 [] w1);
      [lia|done|simpl; lia|done|done].
Qed.

(** The route's handler panics: the panic passes every middleware, and only
    the deferred decrement of [metrics.Middleware] runs. *)
Lemma serve_unwinds (p : gin.Panic) :
  gin.Method r ≠ "OPTIONS" →
  gin.panicking w2 = Some p →
  server.serve duration unixNano elapsed h w0
  = {| gin.c := gin.c w2;
       gin.m := metrics.with_activeConnections
                  (metrics.activeConnections (gin.m w2) - 1) (gin.m w2);
       gin.events := gin.events w2;
       gin.panicking := Some p |}.
Proof.
  intros Hm Hp. destruct h as [h0|]; cbn [stages.answer] in *; [|done].
  assert (gin.loop 5 [server.route h0] w1 = h0 w1) as Htail.
  { etrans; [apply (loop_step 5 _ _ _ (h0 w1)); [simpl; lia|done|by rewrite Hp]|].
    by rewrite Hp. }
  apply (chain_unwinds duration unixNano elapsed r rt status0 m0 ev0
           5 [server.route h0] (h0 w1)); [lia|exact Htail|done|done].
Qed.

Lemma serve_preflight :
  gin.Method r = "OPTIONS" →
  server.serve duration unixNano elapsed h w0
  = {| gin.c :=
         {| gin.request := r; gin.fullPath := rt;
            gin.index :=
              match (metrics.record "OPTIONS"
                       (if bool_decide (rt = "") then gin.Path r else rt) "204"
                       duration 0 (gin.m w1)).2 with
              | Some _ => 64
              | None => 65
              end;
            gin.Keys := ∅;
            gin.header := delete "X-Request-ID" (gin.header (gin.c w1));
            gin.status := 204; gin.size := 0 |};
       gin.m :=
         metrics.with_activeConnections
           (metrics.activeConnections
              (metrics.record "OPTIONS"
                 (if bool_decide (rt = "") then gin.Path r else rt) "204"
                 duration 0 (gin.m w1)).1 - 1)
           (metrics.record "OPTIONS"
              (if bool_decide (rt = "") then gin.Path r else rt) "204"
              duration 0 (gin.m w1)).1;
       gin.events := ev0;
       gin.panicking :=
         gin.Collector
           <$> (metrics.record "OPTIONS"
                  (if bool_decide (rt = "") then gin.Path r else rt) "204"
                  duration 0 (gin.m w1)).2 |}.
Proof.
  intros Hm. destruct h as [h0|].
  - apply (chain_preflight duration unixNano elapsed r rt status0 m0 ev0
             5 [server.route h0]); [lia|done].
  - apply (chain_preflight duration unixNano elapsed r rt status0 m0 ev0 4 []); [lia|done].
Qed.

End serve_facts.

Lemma labelled_with_activeConnections (x : Z) (m : metrics.Metrics) :
  metrics.labelled m → metrics.labelled (metrics.with_activeConnections x m).
Proof. by intros (? & ? & ? & ?). Qed.

(** X17.  A request with method OPTIONS is answered by [corsMiddleware],
    whatever status the engine started the chain with and whatever handler
    follows the middleware, if any: the status is 204 with no body and the
    chain is aborted; the response carries the CORS headers but no request
    id, no key is set and nothing is logged.  [metrics.Middleware] still
    sees it: the gauge of active connections is back at its value, and the
    request is counted under status 204, unless the endpoint label is not
    valid UTF-8, in which case the collector panics and nothing is
    counted. *)
Theorem preflight_is_answered_by_cors (duration unixNano : Z) (elapsed : string)
    (h : option (server.Flight → server.Flight)) (r : gin.Request)
    (matched : string) (status0 : Z)
    (m0 : metrics.Metrics) (ev0 : list server.AccessLog) :
  gin.Method r = "OPTIONS" →
  metrics.labelled m0 →
  let w := server.serve duration unixNano elapsed h (stages.start r matched status0 m0 ev0) in
  let endpoint := if bool_decide (matched = "") then gin.Path r else matched in
  (∀ h', server.serve duration unixNano elapsed h' (stages.start r matched status0 m0 ev0) = w)
  ∧ gin.status (gin.c w) = 204%Z
  ∧ gin.size (gin.c w) = 0%Z
  ∧ gin.IsAborted (gin.c w) = true
  ∧ gin.header (gin.c w) !! "Access-Control-Allow-Origin" = Some "*"
  ∧ gin.header (gin.c w) !! "Access-Control-Allow-Credentials" = Some "true"
  ∧ gin.header (gin.c w) !! "Access-Control-Allow-Methods"
    = Some "POST, OPTIONS, GET, PUT, DELETE, PATCH"
  ∧ is_Some (gin.header (gin.c w) !! "Access-Control-Allow-Headers")
  ∧ gin.header (gin.c w) !! "X-Request-ID" = None
  ∧ gin.Keys (gin.c w) = ∅
  ∧ gin.events w = ev0
  ∧ metrics.activeConnections (gin.m w) = metrics.activeConnections m0
  ∧ (if utf8.ValidString endpoint
     then gin.panicking w = None
          ∧ prometheus.value ["OPTIONS"; endpoint; "204"] (metrics.requestsTotal (gin.m w))
            = (prometheus.value ["OPTIONS"; endpoint; "204"] (metrics.requestsTotal m0) + 1)%Z
     else gin.panicking w = Some (gin.Collector (prometheus.InvalidUTF8 endpoint))
          ∧ metrics.requestsTotal (gin.m w) = metrics.requestsTotal m0).
Proof.
  intros Hm Hl w endpoint.
  assert (∀ h', server.serve duration unixNano elapsed h' (stages.start r matched status0 m0 ev0) = w)
    as Hsame.
  { intros h'. unfold w. by rewrite !serve_preflight. }
  split; [done|]. clear Hsame.
  unfold w. rewrite serve_preflight by done. fold endpoint.
  set (m1 := gin.m (stages.arrival unixNano r matched status0 m0 ev0)).
  assert (metrics.labelled m1) as Hl1 by by apply labelled_with_activeConnections.
  destruct (utf8.ValidString endpoint) eqn:Hvalid.
  - destruct (record_valid "OPTIONS" endpoint "204" duration 0 m1 Hl1)
      as (m' & Hrec & _ & Hact & _ & Htotal & _); [done..|].
    rewrite Hrec. cbn [fst snd gin.c gin.m gin.events gin.panicking gin.status gin.size
                       gin.header gin.Keys fmap option_fmap option_map].
    repeat (split; [done|]). split; [simpl; rewrite Hact; simpl; lia|].
    split; [done|]. unfold prometheus.value. simpl. rewrite Htotal.
    by rewrite lookup_insert_eq.
  - destruct (record_invalid "OPTIONS" endpoint "204" duration 0 m1 Hl1)
      as (bad & Hrec & Hbad & Hinv).
    { by rewrite Hvalid. }
    assert (bad = endpoint) as ->.
    { apply elem_of_cons in Hbad as [->|Hbad]; [done|].
      apply elem_of_cons in Hbad as [->|Hbad]; [done|].
      apply list_elem_of_singleton in Hbad as ->. done. }
    rewrite Hrec. cbn [fst snd gin.c gin.m gin.events gin.panicking gin.status gin.size
                       gin.header gin.Keys fmap option_fmap option_map].
    repeat (split; [done|]). split; [simpl; lia|]. done.
Qed.

(** X18.  For a request that is no preflight, the request id is the
    [X-Request-ID] header the client sent, or else the decimal clock
    reading, and is never empty.  What follows [loggingMiddleware] finds it
    both as the response header and under the key [request_id]; when the
    route's handler, if there is one, returns, the response header is what
    it left and the event logged for the request carries the id.
    Generated ids differ exactly when the clock readings differ. *)
Theorem request_id_is_propagated (duration unixNano : Z) (elapsed : string)
    (r : gin.Request) (matched : string) (status0 : Z)
    (m0 : metrics.Metrics) (ev0 : list server.AccessLog) :
  gin.Method r ≠ "OPTIONS" →
  let id := stages.requestID unixNano r in
  let w1 := stages.arrival unixNano r matched status0 m0 ev0 in
  id ≠ ""
  ∧ (gin.HeaderGet r "X-Request-ID" ≠ "" → id = gin.HeaderGet r "X-Request-ID")
  ∧ (gin.HeaderGet r "X-Request-ID" = "" → id = server.generateRequestID unixNano)
  ∧ gin.header (gin.c w1) !! "X-Request-ID" = Some id
  ∧ gin.Get "request_id" (gin.c w1) = Some id
  ∧ (∀ h, let w2 := stages.answer unixNano r matched status0 m0 ev0 h in
          let w := server.serve duration unixNano elapsed h
                     (stages.start r matched status0 m0 ev0) in
          gin.panicking w2 = None → (4 ≤ gin.index (gin.c w2))%Z →
          gin.header (gin.c w) = gin.header (gin.c w2)
          ∧ ∃ ev, gin.events w = gin.events w2 ++ [ev]
                  ∧ server.request_id ev = Some id)
  ∧ (∀ t t', server.generateRequestID t = server.generateRequestID t' ↔ t = t').
Proof.
  intros Hm id w1.
  split; [apply requestID_nonempty|].
  split; [by intros Hne; unfold id, stages.requestID; rewrite bool_decide_false|].
  split; [by intros Heq; unfold id, stages.requestID; rewrite bool_decide_true|].
  split; [by apply lookup_insert_eq|].
  split; [by apply lookup_singleton_eq|].
  split.
  - intros h w2 w Hp Hidx.
    destruct (serve_returns duration unixNano elapsed h r matched status0 m0 ev0 Hm Hp Hidx)
      as [k Hserve].
    unfold w. rewrite Hserve. simpl. split; [done|]. by eexists.
  - intros t t'. split; [|by intros ->]. apply (inj pretty).
Qed.

(** X19.  For a request that is no preflight, [loggingMiddleware] hands the
    logger exactly one event after the route's handler returned, or at once
    when no handler follows, with the status and body size found then, the
    request's method, client address and user agent, and the path, followed
    by [?] and the query when there is one; when the handler panics nothing
    is logged and the panic goes on. *)
Theorem access_log_has_one_event_per_answer (duration unixNano : Z) (elapsed : string)
    (h : option (server.Flight → server.Flight)) (r : gin.Request)
    (matched : string) (status0 : Z)
    (m0 : metrics.Metrics) (ev0 : list server.AccessLog) :
  gin.Method r ≠ "OPTIONS" →
  let w1 := stages.arrival unixNano r matched status0 m0 ev0 in
  let w2 := stages.answer unixNano r matched status0 m0 ev0 h in
  let w := server.serve duration unixNano elapsed h (stages.start r matched status0 m0 ev0) in
  gin.events w1 = ev0
  ∧ (gin.panicking w2 = None → (4 ≤ gin.index (gin.c w2))%Z →
     gin.events w
     = gin.events w2
         ++ [ {| server.request_id := Some (stages.requestID unixNano r);
                 server.log_status := gin.status (gin.c w2);
                 server.latency := elapsed;
                 server.client_ip := gin.RemoteIP (gin.request (gin.c w2));
                 server.method := gin.Method (gin.request (gin.c w2));
                 server.path :=
                   if bool_decide (gin.RawQuery r = "") then gin.Path r
                   else gin.Path r +:+ "?" +:+ gin.RawQuery r;
                 server.user_agent :=
                   gin.HeaderGet (gin.request (gin.c w2)) "User-Agent";
                 server.body_size := gin.size (gin.c w2) |} ])
  ∧ (∀ p, gin.panicking w2 = Some p →
          gin.events w = gin.events w2 ∧ gin.panicking w = Some p).
Proof.
  intros Hm w1 w2 w. split; [done|]. split.
  - intros Hp Hidx.
    destruct (serve_returns duration unixNano elapsed h r matched status0 m0 ev0 Hm Hp Hidx)
      as [k Hserve].
    unfold w. rewrite Hserve. simpl. unfold stages.event. by destruct (bool_decide _).
  - intros p Hp. unfold w.
    by rewrite (serve_unwinds duration unixNano elapsed h r matched status0 m0 ev0 p Hm Hp).
Qed.

(** X20.  For a request that is no preflight, what follows the middleware
    runs with the gauge of active connections one higher, and the gauge is
    lowered again whether the route's handler returns or panics.  When it
    returns, or none follows, and the labels are valid UTF-8, the request
    counter of (method, endpoint, status) goes up by one, no other counter
    changes, and the duration and the response size are observed once; the
    endpoint is [c.FullPath()], or the request's path when that is empty.
    When a label is not valid UTF-8 the collector panics, and then, as when
    the handler panics, nothing is recorded. *)
Theorem http_metrics_of_a_request (duration unixNano : Z) (elapsed : string)
    (h : option (server.Flight → server.Flight)) (r : gin.Request)
    (matched : string) (status0 : Z)
    (m0 : metrics.Metrics) (ev0 : list server.AccessLog) :
  gin.Method r ≠ "OPTIONS" →
  let w1 := stages.arrival unixNano r matched status0 m0 ev0 in
  let w2 := stages.answer unixNano r matched status0 m0 ev0 h in
  let w := server.serve duration unixNano elapsed h (stages.start r matched status0 m0 ev0) in
  metrics.labelled (gin.m w2) →
  (gin.panicking w2 = None → 4 ≤ gin.index (gin.c w2))%Z →
  metrics.activeConnections (gin.m w1) = (metrics.activeConnections m0 + 1)%Z
  ∧ metrics.activeConnections (gin.m w)
    = (metrics.activeConnections (gin.m w2) - 1)%Z
  ∧ metrics.dbConnections (gin.m w) = metrics.dbConnections (gin.m w2)
  ∧ (gin.panicking w2 = None →
     let method := gin.Method (gin.request (gin.c w2)) in
     let endpoint := stages.endpoint w2 in
     if utf8.ValidString method && utf8.ValidString endpoint
     then gin.panicking w = None
          ∧ prometheus.value (stages.labels w2) (metrics.requestsTotal (gin.m w))
            = (prometheus.value (stages.labels w2)
                 (metrics.requestsTotal (gin.m w2)) + 1)%Z
          ∧ (∀ lvs, lvs ≠ stages.labels w2 →
                    prometheus.value lvs (metrics.requestsTotal (gin.m w))
                    = prometheus.value lvs (metrics.requestsTotal (gin.m w2)))
          ∧ prometheus.samples (stages.labels w2) (metrics.requestDuration (gin.m w))
            = prometheus.samples (stages.labels w2)
                (metrics.requestDuration (gin.m w2))
                ++ [prometheus.Seconds duration]
          ∧ prometheus.samples [method; endpoint] (metrics.responseSize (gin.m w))
            = prometheus.samples [method; endpoint] (metrics.responseSize (gin.m w2))
                ++ [prometheus.Count (gin.size (gin.c w2))]
     else (∃ bad, gin.panicking w = Some (gin.Collector (prometheus.InvalidUTF8 bad))
                  ∧ utf8.ValidString bad = false)
          ∧ metrics.requestsTotal (gin.m w) = metrics.requestsTotal (gin.m w2)
          ∧ metrics.requestDuration (gin.m w) = metrics.requestDuration (gin.m w2)
          ∧ metrics.responseSize (gin.m w) = metrics.responseSize (gin.m w2))
  ∧ (∀ p, gin.panicking w2 = Some p →
          gin.panicking w = Some p
          ∧ metrics.requestsTotal (gin.m w) = metrics.requestsTotal (gin.m w2)
          ∧ metrics.requestDuration (gin.m w) = metrics.requestDuration (gin.m w2)
          ∧ metrics.responseSize (gin.m w) = metrics.responseSize (gin.m w2)).
Proof.
  intros Hm w1 w2 w Hl Hidx. split; [done|].
  subst w. clear w1.
  destruct (gin.panicking w2) as [p|] eqn:Hp.
  - rewrite (serve_unwinds duration unixNano elapsed h r matched status0 m0 ev0 p Hm Hp). simpl.
    split; [done|]. split; [done|]. split; [done|]. by intros ? [= <-].
  - destruct (serve_returns duration unixNano elapsed h r matched status0 m0 ev0 Hm Hp (Hidx eq_refl))
      as [k Hserve].
    rewrite Hserve. clear Hserve.
    change (stages.answer unixNano r matched status0 m0 ev0 h) with w2.
    cbn [gin.c gin.m gin.events gin.panicking].
    set (method := gin.Method (gin.request (gin.c w2))).
    set (endpoint := stages.endpoint w2).
    destruct (utf8.ValidString method && utf8.ValidString endpoint) eqn:Hvalid.
    + apply andb_true_iff in Hvalid as [Hv1 Hv2].
      destruct (record_valid method endpoint (pretty (gin.status (gin.c w2))) duration
                  (gin.size (gin.c w2)) (gin.m w2) Hl Hv1 Hv2 (pretty_Z_valid _))
        as (m' & Hrec & _ & Hact & Hdb & Htotal & Hdur & Hsize).
      rewrite Hrec. simpl. split; [by rewrite Hact|]. split; [done|].
      split; [|done]. intros _.
      unfold prometheus.value, prometheus.samples, stages.labels.
      fold method. fold endpoint.
      rewrite Htotal, Hdur, Hsize. rewrite !lookup_insert_eq.
      split; [done|]. split; [done|]. split; [|done].
      intros lvs Hne. by rewrite lookup_insert_ne.
    + destruct (record_invalid method endpoint (pretty (gin.status (gin.c w2))) duration
                  (gin.size (gin.c w2)) (gin.m w2) Hl)
        as (bad & Hrec & Hbad & Hinv).
      { by rewrite Hvalid. }
      rewrite Hrec. simpl. split; [done|]. split; [done|]. split; [|done].
      intros _. split; [by exists bad|done].
Qed.

Lemma labelled_New : metrics.labelled metrics.New.
Proof. repeat split. Qed.

Lemma preflight_is_answered_by_cors_witness :
  let w := server.serve 1500000 1730000000000000000 "1.5ms" None
             (stages.start fixtures.preflight "" 404 metrics.New []) in
  gin.status (gin.c w) = 204%Z
  ∧ gin.IsAborted (gin.c w) = true
  ∧ gin.header (gin.c w) !! "X-Request-ID" = None
  ∧ gin.events w = []
  ∧ metrics.activeConnections (gin.m w) = metrics.activeConnections metrics.New.
Proof.
  destruct (preflight_is_answered_by_cors 1500000 1730000000000000000 "1.5ms" None
              fixtures.preflight "" 404 metrics.New [] eq_refl labelled_New)
    as (_ & H1 & _ & H2 & _ & _ & _ & _ & H3 & _ & H4 & H5 & _).
  repeat split; assumption.
Defined.

Lemma request_id_is_propagated_witness :
  let id := stages.requestID 1730000000000000000 fixtures.list_tags in
  let w1 := stages.arrival 1730000000000000000 fixtures.list_tags "/api/v1/tags"
              200 metrics.New [] in
  id ≠ ""
  ∧ gin.header (gin.c w1) !! "X-Request-ID" = Some id
  ∧ gin.Get "request_id" (gin.c w1) = Some id.
Proof.
  destruct (request_id_is_propagated 1500000 1730000000000000000 "1.5ms"
              fixtures.list_tags "/api/v1/tags" 200 metrics.New [])
    as (H1 & _ & _ & H2 & H3 & _).
  - discriminate.
  - repeat split; assumption.
Defined.

Lemma access_log_has_one_event_per_answer_witness :
  gin.events (stages.arrival 1730000000000000000 fixtures.list_tags "/api/v1/tags"
                200 metrics.New []) = []
  ∧ server.path
      <$> gin.events
            (server.serve 1500000 1730000000000000000 "1.5ms" (Some fixtures.alive)
               (stages.start fixtures.list_tags "/api/v1/tags" 200 metrics.New []))
    = ["/api/v1/tags?page=2"]
  ∧ gin.events
      (server.serve 1500000 1730000000000000000 "1.5ms" (Some fixtures.crash)
         (stages.start fixtures.list_tags "/api/v1/tags" 200 metrics.New []))
    = [].
Proof.
  destruct (access_log_has_one_event_per_answer 1500000 1730000000000000000 "1.5ms"
              (Some fixtures.alive) fixtures.list_tags "/api/v1/tags" 200 metrics.New [])
    as (H1 & H2 & _); [discriminate|].
  destruct (access_log_has_one_event_per_answer 1500000 1730000000000000000 "1.5ms"
              (Some fixtures.crash) fixtures.list_tags "/api/v1/tags" 200 metrics.New [])
    as (_ & _ & H3); [discriminate|].
  split; [exact H1|]. split.
  - rewrite H2; [reflexivity|reflexivity|simpl; lia].
  - exact (proj1 (H3 _ eq_refl)).
Defined.

Lemma http_metrics_of_a_request_witness :
  let w := server.serve 1500000 1730000000000000000 "1.5ms" (Some fixtures.alive)
             (stages.start fixtures.list_tags "/api/v1/tags" 200 metrics.New []) in
  metrics.activeConnections
    (gin.m (stages.arrival 1730000000000000000 fixtures.list_tags "/api/v1/tags"
              200 metrics.New [])) = 1%Z
  ∧ metrics.activeConnections (gin.m w) = 0%Z.
Proof.
  destruct (http_metrics_of_a_request 1500000 1730000000000000000 "1.5ms" (Some fixtures.alive)
              fixtures.list_tags "/api/v1/tags" 200 metrics.New [])
    as (H1 & H2 & _).
  - discriminate.
  - repeat split.
  - intros _. simpl. lia.
  - split; [exact H1|exact H2].
Defined.




